(** * Heap introspection of the Luau collector (VM/src/lgcdebug.cpp)

    A shallow embedding of the invariant validator ([luaC_validate]), of the
    string and table visitors of the JSON heap dump ([luaC_dump]) and of the
    node/edge enumeration ([luaC_enumheap]), followed by the properties that
    the specification states about them.

    Conventions.
    - A pointer is an address ([Z]); [NULL] is 0.  The collectable objects
      live in a finite map from addresses to [GCObject]s.
    - Every function that reads through a pointer or indexes an array returns
      a [result]: [Ok], a fired [LUAU_ASSERT], a [Fault] (an access that the
      C program would perform outside of the modelled memory) or [Diverges]
      (a walk along a cyclic pointer chain).
    - [FILE*] output is a list of [Token]s; the caller's [node] and [edge]
      callbacks are recorded as a list of [Callback]s, in call order. *)

From Stdlib Require Import ZArith List String Ascii Bool Lia.
From stdpp Require Import base option list gmap strings pretty.

Open Scope Z_scope.

(** ** Outcome of a visitor *)

Inductive result (A : Type) : Type :=
  | Ok (a : A)
  | AssertFailed (what : string)
  | Fault
  | Diverges.

Arguments Ok {A} a.
Arguments AssertFailed {A} what.
Arguments Fault {A}.
Arguments Diverges {A}.

#[global] Instance result_ret : MRet result := fun A a => Ok a.

#[global] Instance result_bind : MBind result := fun A B f m =>
  match m with
  | Ok a => f a
  | AssertFailed w => AssertFailed w
  | Fault => Fault
  | Diverges => Diverges
  end.

Definition LUAU_ASSERT (cond : bool) (what : string) : result unit :=
  if cond then Ok tt else AssertFailed what.

Definition of_option {A : Type} (o : option A) : result A :=
  match o with
  | Some a => Ok a
  | None => Fault
  end.

(** [data[i]] for an array held as a list; an index outside of it is a fault. *)
Definition index {A : Type} (data : list A) (i : Z) : result A :=
  if i <? 0 then Fault else of_option (data !! Z.to_nat i).

(** [for (i = lo; i < hi; ++i) body(i)], checking only. *)
Fixpoint for_loop (n : nat) (i : Z) (body : Z → result unit) : result unit :=
  match n with
  | O => Ok tt
  | S n' => body i ;; for_loop n' (i + 1) body
  end.

Definition for_range (lo hi : Z) (body : Z → result unit) : result unit :=
  for_loop (Z.to_nat (hi - lo)) lo body.

(** The same loop when the body produces output. *)
Fixpoint emit_loop {E : Type} (n : nat) (i : Z) (body : Z → result (list E))
    : result (list E) :=
  match n with
  | O => Ok []
  | S n' => out ← body i; rest ← emit_loop n' (i + 1) body; Ok (out ++ rest)
  end.

Definition emit_range {E : Type} (lo hi : Z) (body : Z → result (list E))
    : result (list E) :=
  emit_loop (Z.to_nat (hi - lo)) lo body.

(** ** Object model (lobject.h, lstate.h) *)

Definition ptr := Z.
Definition NULL : ptr := 0.
Definition StkId := Z.

(** [enum lua_Type] of lua.h with the internal tags that follow it;
    [LUA_TNONE] is the tag that [enumproto] gives to a native code blob. *)
Inductive lua_Type :=
  | LUA_TNIL | LUA_TBOOLEAN | LUA_TLIGHTUSERDATA | LUA_TNUMBER | LUA_TVECTOR
  | LUA_TSTRING | LUA_TTABLE | LUA_TFUNCTION | LUA_TUSERDATA | LUA_TTHREAD
  | LUA_TBUFFER | LUA_TPROTO | LUA_TUPVAL | LUA_TDEADKEY | LUA_TNONE.

#[global] Instance lua_Type_eq_dec : EqDecision lua_Type.
Proof. solve_decision. Defined.

(** The [Value] union.  A number is kept as the bit pattern of its double. *)
Inductive Value :=
  | Vgc (gc : ptr)
  | Vp (p : ptr)
  | Vn (n : Z)
  | Vb (b : Z)
  | Vnone.

Record TValue := mkTValue { value : Value; tv_tt : lua_Type }.

Definition ttype (o : TValue) : lua_Type := tv_tt o.
Definition ttisnil (o : TValue) : bool := bool_decide (ttype o = LUA_TNIL).
Definition ttisnumber (o : TValue) : bool := bool_decide (ttype o = LUA_TNUMBER).
Definition ttisstring (o : TValue) : bool := bool_decide (ttype o = LUA_TSTRING).
Definition ttisfunction (o : TValue) : bool := bool_decide (ttype o = LUA_TFUNCTION).

(** [gcvalue(o)] and [nvalue(o)] read the member [gc] or [n] of the union;
    reading a member that the value does not hold is a fault. *)
Definition gcvalue (o : TValue) : result ptr :=
  match value o with
  | Vgc gc => Ok gc
  | _ => Fault
  end.

Definition nvalue (o : TValue) : result Z :=
  match value o with
  | Vn n => Ok n
  | _ => Fault
  end.

(** [CommonHeader] *)
Record GCheader := mkGCheader { gch_tt : lua_Type; marked : Z; memcat : Z }.

Record TString := mkTString { ts_len : Z; ts_data : string }.

(** A hash node: [gval], [gkey] and [gnext] read its three parts. *)
Record LuaNode := mkLuaNode { gval : TValue; gkey : TValue; gnext : Z }.

(** [h->node] either is [&luaH_dummynode] or points at the table's own
    node vector. *)
Inductive NodeVector :=
  | DummyNode
  | Nodes (nodes : list LuaNode).

Record LuaTable := mkLuaTable {
  lsizenode : Z;
  sizearray : Z;
  lastfree : Z;
  h_metatable : ptr;
  array : list TValue;
  node : NodeVector;
  h_gclist : ptr
}.

(** The [c] and [l] members of the closure union are kept side by side. *)
Record Closure := mkClosure {
  isC : bool;
  nupvalues : Z;
  cl_gclist : ptr;
  env : ptr;
  c_debugname : option string;
  c_upvals : list TValue;
  l_p : ptr;
  l_uprefs : list TValue
}.

Record Udata := mkUdata { u_tag : Z; u_len : Z; u_metatable : ptr }.

Record CallInfo := mkCallInfo { ci_base : StkId; ci_func : StkId; ci_top : StkId }.

(** A thread.  [stack], [top] and [stack_last] are slot addresses, in units of
    one [TValue]; [slots] is the content of the allocated stack from [stack]
    on.  [base_ci] is the content of the call-info array and [ci] the index of
    the current frame in it. *)
Record lua_State := mklua_State {
  top : StkId;
  ci : Z;
  stack_last : StkId;
  stack : StkId;
  slots : list TValue;
  base_ci : list CallInfo;
  stacksize : Z;
  size_ci : Z;
  gt : ptr;
  openupval : ptr;
  th_gclist : ptr;
  namecall : ptr
}.

Record Buffer := mkBuffer { b_len : Z }.

Record LocVar := mkLocVar { varname : ptr }.

Record Proto := mkProto {
  nups : Z;
  k : list TValue;
  p : list ptr;
  execdata : ptr;
  locvars : list LocVar;
  upvalues : list ptr;
  source : ptr;
  debugname : ptr;
  p_gclist : ptr;
  sizecode : Z;
  sizep : Z;
  sizelocvars : Z;
  sizeupvalues : Z;
  sizek : Z;
  sizelineinfo : Z;
  linedefined : Z
}.

(** An upvalue.  [uv_v] is the [TValue] that [uv->v] points at and
    [upisopen] tells whether that is a stack slot rather than the upvalue's
    own [u.value]; the three links are those of [u.open]. *)
Record UpVal := mkUpVal {
  uv_v : TValue;
  upisopen : bool;
  open_prev : ptr;
  open_next : ptr;
  open_threadnext : ptr
}.

Inductive GCUnion :=
  | U_ts (ts : TString)
  | U_h (h : LuaTable)
  | U_cl (cl : Closure)
  | U_u (u : Udata)
  | U_th (th : lua_State)
  | U_buf (b : Buffer)
  | U_p (f : Proto)
  | U_uv (uv : UpVal).

Record GCObject := mkGCObject { gch : GCheader; body : GCUnion }.

(** [global_State].  [uvhead] is the sentinel of the ring of open upvalues
    and [uvhead_addr] its address [&g->uvhead]; [getmemorysize] is the
    optional [ecb.getmemorysize] callback. *)
Record global_State := mkglobal_State {
  currentwhite : Z;
  gcstate : Z;
  gray : ptr;
  grayagain : ptr;
  weak : ptr;
  mainthread : ptr;
  uvhead : UpVal;
  uvhead_addr : ptr;
  mt : list ptr;
  ttname : list ptr;
  registry : TValue;
  getmemorysize : option (ptr → Z);
  allgcopages : list ptr
}.

Definition deref (heap : gmap Z GCObject) (o : ptr) : result GCObject :=
  if o =? NULL then Fault else of_option (heap !! o).

Definition gco2ts (o : GCObject) : result TString :=
  match body o with U_ts ts => Ok ts | _ => Fault end.
Definition gco2h (o : GCObject) : result LuaTable :=
  match body o with U_h h => Ok h | _ => Fault end.
Definition gco2cl (o : GCObject) : result Closure :=
  match body o with U_cl cl => Ok cl | _ => Fault end.
Definition gco2u (o : GCObject) : result Udata :=
  match body o with U_u u => Ok u | _ => Fault end.
Definition gco2th (o : GCObject) : result lua_State :=
  match body o with U_th th => Ok th | _ => Fault end.
Definition gco2buf (o : GCObject) : result Buffer :=
  match body o with U_buf b => Ok b | _ => Fault end.
Definition gco2p (o : GCObject) : result Proto :=
  match body o with U_p f => Ok f | _ => Fault end.
Definition gco2uv (o : GCObject) : result UpVal :=
  match body o with U_uv uv => Ok uv | _ => Fault end.

(** Modelled from the spec: the Page/Object Iterator [luaM_visitgco] of the
    allocator (lmem.cpp) is not part of this file; it "calls back once per
    live object across all allocation pages".  [allgcopages] lists the
    addresses it yields, in the order it yields them; the visitor receives
    the caller's context and returns it updated. *)
Definition luaM_visitgco {C : Type} (g : global_State) (context : C)
    (visitor : C → ptr → result C) : result C :=
  foldl (fun acc gco => c ← acc; visitor c gco) (Ok context) (allgcopages g).

(** [luaH_dummynode]: the shared node of every table without a hash part. *)
Definition luaH_dummynode : LuaNode :=
  {| gval := mkTValue Vnone LUA_TNIL; gkey := mkTValue Vnone LUA_TNIL; gnext := 0 |}.

(** [sizenode(h)] is [1 << h->lsizenode]. *)
Definition sizenode (h : LuaTable) : Z := Z.shiftl 1 (lsizenode h).

(** [h->node[i]] *)
Definition node_at (h : LuaTable) (i : Z) : result LuaNode :=
  match node h with
  | DummyNode => if i =? 0 then Ok luaH_dummynode else Fault
  | Nodes ns => index ns i
  end.

(** [h->node != &luaH_dummynode] *)
Definition has_nodes (h : LuaTable) : bool :=
  match node h with
  | DummyNode => false
  | Nodes _ => true
  end.

(** ** What the headers outside of this file provide

    The macros of lgc.h, lobject.h, lstring.h, ludata.h, lbuffer.h, lfunc.h
    and ltm.h that lgcdebug.cpp uses, the sizes of the structures it adds up
    and the one libc conversion whose result is not modelled here.  Every
    definition and theorem below is stated for an arbitrary [Headers]. *)
Class Headers := {
  (* lgc.h *)
  GCSsweep : Z;
  keepinvariant : global_State → bool;
  isdead : global_State → GCObject → bool;
  isblack : GCObject → bool;
  iswhite : GCObject → bool;
  isgray : GCObject → bool;
  (* lobject.h, lua.h *)
  iscollectable : TValue → bool;
  checkliveness : gmap Z GCObject → global_State → TValue → result unit;
  LUA_T_COUNT : Z;
  lua_Type_value : lua_Type → Z;
  LUA_IDSIZE : Z;
  (* ltm.h: [gfasttm(g, et, TM_MODE)], [None] standing for a null result *)
  gfasttm_TM_MODE : gmap Z GCObject → global_State → ptr → option TValue;
  (* object sizes *)
  sizestring : Z → Z;
  sizeudata : Z → Z;
  sizebuffer : Z → Z;
  sizeCclosure : Z → Z;
  sizeLclosure : Z → Z;
  sizeof_LuaTable : Z;
  sizeof_LuaNode : Z;
  sizeof_TValue : Z;
  sizeof_lua_State : Z;
  sizeof_CallInfo : Z;
  sizeof_Proto : Z;
  sizeof_Instruction : Z;
  sizeof_pointer : Z;
  sizeof_LocVar : Z;
  sizeof_UpVal : Z;
  (* [offsetof(Udata, data)] *)
  offsetof_Udata_data : Z;
  (* whether plain [char] is a signed type on the target *)
  char_is_signed : bool;
  (* [snprintf(buf, n, "%.14g", d)] before truncation, [d] given by its bits *)
  fmt_g14 : Z → string
}.

(** [FFlag::LuauHeapDumpStringSizeOverhead], declared in this file by
    [LUAU_FASTFLAGVARIABLE]; its value is set by the embedder. *)
Record FastFlags := mkFastFlags { LuauHeapDumpStringSizeOverhead : bool }.

Section Validator.
Context `{Headers}.
Variable heap : gmap Z GCObject.
Variable g : global_State.

Definition validateobjref (f t : ptr) : result unit :=
  to ← deref heap t;
  LUAU_ASSERT (negb (isdead g to)) "!isdead(g, t)";;
  if keepinvariant g then
    fo ← deref heap f;
    LUAU_ASSERT (negb (isblack fo && iswhite to)) "!(isblack(f) && iswhite(t))"
  else Ok tt.

Definition validateref (f : ptr) (v : TValue) : result unit :=
  if iscollectable v then
    gc ← gcvalue v;
    o ← deref heap gc;
    LUAU_ASSERT (bool_decide (ttype v = gch_tt (gch o))) "ttype(v) == gcvalue(v)->gch.tt";;
    validateobjref f gc
  else Ok tt.

Definition validatenode (o : ptr) (h : LuaTable) (i : Z) : result unit :=
  n ← node_at h i;
  LUAU_ASSERT (negb (bool_decide (ttype (gkey n) = LUA_TDEADKEY)) || ttisnil (gval n))
    "ttype(gkey(n)) != LUA_TDEADKEY || ttisnil(gval(n))";;
  LUAU_ASSERT ((0 <=? i + gnext n) && (i + gnext n <? sizenode h))
    "i + gnext(n) >= 0 && i + gnext(n) < sizenode";;
  if negb (ttisnil (gval n)) then
    validateref o (gkey n);;
    validateref o (gval n)
  else Ok tt.

Definition validatetable (o : ptr) (h : LuaTable) : result unit :=
  LUAU_ASSERT (lastfree h <=? sizenode h) "h->lastfree <= sizenode";;
  (if negb (h_metatable h =? NULL) then validateobjref o (h_metatable h) else Ok tt);;
  for_range 0 (sizearray h) (fun i => v ← index (array h) i; validateref o v);;
  for_range 0 (sizenode h) (validatenode o h).

Definition validateclosure (o : ptr) (cl : Closure) : result unit :=
  validateobjref o (env cl);;
  if isC cl then
    for_range 0 (nupvalues cl) (fun i => v ← index (c_upvals cl) i; validateref o v)
  else
    po ← deref heap (l_p cl);
    f ← gco2p po;
    LUAU_ASSERT (nupvalues cl =? nups f) "cl->nupvalues == cl->l.p->nups";;
    validateobjref o (l_p cl);;
    for_range 0 (nupvalues cl) (fun i => v ← index (l_uprefs cl) i; validateref o v).

(** Reading an [UpVal] through a link of the open-upvalue ring: the link is
    either [&g->uvhead] or the address of an upvalue object. *)
Definition deref_uv (uv : ptr) : result UpVal :=
  if uv =? uvhead_addr g then Ok (uvhead g)
  else o ← deref heap uv; gco2uv o.

(** The four assertions made on each open upvalue, by [validatestack] and by
    [luaC_validate]; the result is the upvalue as read. *)
Definition validateopenupval (uv : ptr) : result UpVal :=
  o ← deref heap uv;
  LUAU_ASSERT (bool_decide (gch_tt (gch o) = LUA_TUPVAL)) "uv->tt == LUA_TUPVAL";;
  u ← gco2uv o;
  LUAU_ASSERT (upisopen u) "upisopen(uv)";;
  nx ← deref_uv (open_next u);
  (if open_prev nx =? uv then
     pv ← deref_uv (open_prev u);
     LUAU_ASSERT (open_next pv =? uv) "uv->u.open.prev->u.open.next == uv"
   else AssertFailed "uv->u.open.next->u.open.prev == uv");;
  LUAU_ASSERT (negb (isblack o)) "!isblack(obj2gco(uv))";;
  Ok u.

(** [for (uv = l->openupval; uv; uv = uv->u.open.threadnext)] *)
Fixpoint validatethreadupvals (fuel : nat) (uv : ptr) : result unit :=
  if uv =? NULL then Ok tt
  else match fuel with
       | O => Diverges
       | S fuel' =>
           u ← validateopenupval uv;
           validatethreadupvals fuel' (open_threadnext u)
       end.

(** One iteration of the call-frame loop of [validatestack], on
    [l->base_ci[i]]. *)
Definition validateframe (l : lua_State) (i : Z) : result unit :=
  c ← index (base_ci l) i;
  LUAU_ASSERT (stack l <=? ci_base c) "l->stack <= ci->base";;
  LUAU_ASSERT ((ci_func c <=? ci_base c) && (ci_base c <=? ci_top c))
    "ci->func <= ci->base && ci->base <= ci->top";;
  LUAU_ASSERT (ci_top c <=? stack_last l) "ci->top <= l->stack_last".

Definition validatestack (o : ptr) (l : lua_State) : result unit :=
  validateobjref o (gt l);;
  for_range 0 (ci l + 1) (validateframe l);;
  for_range (stack l) (top l)
    (fun a => v ← index (slots l) (a - stack l); checkliveness heap g v);;
  (if negb (namecall l =? NULL) then validateobjref o (namecall l) else Ok tt);;
  validatethreadupvals (S (size heap)) (openupval l).

Definition validateproto (o : ptr) (f : Proto) : result unit :=
  (if negb (source f =? NULL) then validateobjref o (source f) else Ok tt);;
  (if negb (debugname f =? NULL) then validateobjref o (debugname f) else Ok tt);;
  for_range 0 (sizek f) (fun i => v ← index (k f) i; validateref o v);;
  for_range 0 (sizeupvalues f) (fun i =>
    s ← index (upvalues f) i;
    if negb (s =? NULL) then validateobjref o s else Ok tt);;
  for_range 0 (sizep f) (fun i =>
    q ← index (p f) i;
    if negb (q =? NULL) then validateobjref o q else Ok tt);;
  for_range 0 (sizelocvars f) (fun i =>
    lv ← index (locvars f) i;
    if negb (varname lv =? NULL) then validateobjref o (varname lv) else Ok tt).

Definition validateobj (o : ptr) : result unit :=
  obj ← deref heap o;
  if isdead g obj then
    LUAU_ASSERT (gcstate g =? GCSsweep) "g->gcstate == GCSsweep"
  else
    match gch_tt (gch obj) with
    | LUA_TSTRING => Ok tt
    | LUA_TTABLE => h ← gco2h obj; validatetable o h
    | LUA_TFUNCTION => cl ← gco2cl obj; validateclosure o cl
    | LUA_TUSERDATA =>
        u ← gco2u obj;
        if negb (u_metatable u =? NULL) then validateobjref o (u_metatable u)
        else Ok tt
    | LUA_TTHREAD => th ← gco2th obj; validatestack o th
    | LUA_TBUFFER => Ok tt
    | LUA_TPROTO => f ← gco2p obj; validateproto o f
    | LUA_TUPVAL => uv ← gco2uv obj; validateref o (uv_v uv)
    | _ => AssertFailed "unexpected object type"
    end.

(** [validategraylist], called only when [keepinvariant(g)] holds. *)
Fixpoint validategraylist_walk (fuel : nat) (o : ptr) : result unit :=
  if o =? NULL then Ok tt
  else match fuel with
       | O => Diverges
       | S fuel' =>
           obj ← deref heap o;
           LUAU_ASSERT (isgray obj) "isgray(o)";;
           match gch_tt (gch obj) with
           | LUA_TTABLE => h ← gco2h obj; validategraylist_walk fuel' (h_gclist h)
           | LUA_TFUNCTION => cl ← gco2cl obj; validategraylist_walk fuel' (cl_gclist cl)
           | LUA_TTHREAD => th ← gco2th obj; validategraylist_walk fuel' (th_gclist th)
           | LUA_TPROTO => f ← gco2p obj; validategraylist_walk fuel' (p_gclist f)
           | _ => AssertFailed "unknown object in gray list"
           end
       end.

Definition validategraylist (o : ptr) : result unit :=
  if negb (keepinvariant g) then Ok tt
  else validategraylist_walk (S (size heap)) o.

Definition validategco (context : unit) (gco : ptr) : result unit :=
  validateobj gco.

(** [for (uv = g->uvhead.u.open.next; uv != &g->uvhead; uv = uv->u.open.next)] *)
Fixpoint validateuvring (fuel : nat) (uv : ptr) : result unit :=
  if uv =? uvhead_addr g then Ok tt
  else match fuel with
       | O => Diverges
       | S fuel' =>
           u ← validateopenupval uv;
           validateuvring fuel' (open_next u)
       end.

Definition luaC_validate : result unit :=
  mth ← deref heap (mainthread g);
  LUAU_ASSERT (negb (isdead g mth)) "!isdead(g, obj2gco(g->mainthread))";;
  checkliveness heap g (registry g);;
  for_range 0 LUA_T_COUNT (fun i =>
    m ← index (mt g) i;
    if negb (m =? NULL) then
      mo ← deref heap m;
      LUAU_ASSERT (negb (isdead g mo)) "!isdead(g, obj2gco(g->mt[i]))"
    else Ok tt);;
  validategraylist (weak g);;
  validategraylist (gray g);;
  validategraylist (grayagain g);;
  validategco tt (mainthread g);;
  luaM_visitgco g tt validategco;;
  validateuvring (S (size heap)) (open_next (uvhead g)).

End Validator.

(** ** C strings and formatted output *)

Definition NUL : ascii := "000"%char.

(** The characters before the first NUL: what [%s], [strcmp] and a consumer
    of a [const char*] see of a buffer. *)
Fixpoint cstr (s : string) : string :=
  match s with
  | EmptyString => EmptyString
  | String a rest => if Ascii.eqb a NUL then EmptyString else String a (cstr rest)
  end.

(** [strchr(s, c) != NULL] on the buffer [s], which ends with a NUL that is
    not part of [s]. *)
Fixpoint strchr (s : string) (c : ascii) : bool :=
  match s with
  | EmptyString => Ascii.eqb c NUL
  | String a rest =>
      if Ascii.eqb a c then true
      else if Ascii.eqb a NUL then false
      else strchr rest c
  end.

(** [strcmp(a, b) == 0] *)
Definition strcmp_eq (a b : string) : bool := String.eqb (cstr a) (cstr b).

(** What [snprintf(buf, size, ...)] leaves in [buf] when the conversion
    produces [s]: at most [size - 1] characters. *)
Fixpoint take_chars (n : nat) (s : string) : string :=
  match n, s with
  | S n', String a rest => String a (take_chars n' rest)
  | _, _ => EmptyString
  end.

Definition snprintf (size : Z) (s : string) : string :=
  take_chars (Z.to_nat (size - 1)) s.

(** [size_t] and [int] conversions. *)
Definition size_t (z : Z) : Z := z mod 2 ^ 64.
Definition int (z : Z) : Z := (z + 2 ^ 31) mod 2 ^ 32 - 2 ^ 31.

(** What is written to a [FILE*]: single bytes, and the [%d] and [%p]
    conversions of [fprintf], whose arguments are kept as they are. *)
Inductive Token :=
  | Byte (c : ascii)
  | Dec (n : Z)
  | Hex (o : ptr).

Inductive Arg :=
  | A_int (n : Z)
  | A_ptr (o : ptr)
  | A_str (s : string).

Fixpoint bytes_of (s : string) : list Token :=
  match s with
  | EmptyString => []
  | String a rest => Byte a :: bytes_of rest
  end.

Definition conversion (c : ascii) (a : Arg) : list Token :=
  match a with
  | A_int n => [Dec n]
  | A_ptr o => [Hex o]
  | A_str s => bytes_of (cstr s)
  end.

(** [fprintf(f, format, args...)].  In the formats below an apostrophe stands
    for the double quote that the C format string has at that place (no
    format of this file contains an apostrophe). *)
Fixpoint fprintf (format : string) (args : list Arg) : list Token :=
  match format with
  | EmptyString => []
  | String c rest =>
      if Ascii.eqb c "%"%char then
        match rest with
        | String d rest' =>
            match args with
            | a :: args' => conversion d a ++ fprintf rest' args'
            | [] => fprintf rest' []
            end
        | EmptyString => []
        end
      else Byte (if Ascii.eqb c "'"%char then "034"%char else c) :: fprintf rest args
  end.

Definition fputc (c : ascii) : list Token := [Byte c].

(** [data[i]] for the bytes of a string object, which are followed by a NUL. *)
Definition char_at (data : string) (i : Z) : result ascii :=
  index (list_ascii_of_string data ++ [NUL]) i.

(** ** JSON dump: strings and tables *)

Section Dump.
Context `{Headers}.

(** The value of a [char] holding the byte [c], as an [int]. *)
Definition char_value (c : ascii) : Z :=
  let n := Z.of_N (N_of_ascii c) in
  if char_is_signed && (128 <=? n) then n - 256 else n.

(** [unsigned(ch)] *)
Definition unsigned (z : Z) : Z := z mod 2 ^ 32.

Definition safejson (ch : ascii) : bool :=
  (unsigned (char_value ch) <? 128) && (32 <=? char_value ch)
  && negb (char_value ch =? 92) && negb (char_value ch =? 34).

Definition dumpref (o : ptr) : list Token :=
  fprintf "'%p'" [A_ptr o].

(** The loops of the dump carry the flag [first] along with the output. *)
Fixpoint dump_loop (n : nat) (i : Z)
    (body : Z → bool → result (list Token * bool)) (first : bool)
    : result (list Token * bool) :=
  match n with
  | O => Ok ([], first)
  | S n' =>
      r ← body i first;
      r' ← dump_loop n' (i + 1) body r.2;
      Ok (r.1 ++ r'.1, r'.2)
  end.

Definition dumprefs (data : list TValue) (size : Z) : result (list Token) :=
  r ← dump_loop (Z.to_nat size) 0 (fun i first =>
         v ← index data i;
         if iscollectable v then
           gc ← gcvalue v;
           Ok ((if negb first then fputc ","%char else []) ++ dumpref gc, false)
         else Ok ([], first)) true;
  Ok r.1.

Definition dumpstringdata (data : string) (len : Z) : result (list Token) :=
  emit_range 0 len (fun i =>
    ch ← char_at data i;
    Ok (fputc (if safejson ch then ch else "?"%char))).

Definition dumpstring (o : GCObject) (ts : TString) : result (list Token) :=
  data ← dumpstringdata (ts_data ts) (ts_len ts);
  Ok (fprintf "{'type':'string','cat':%d,'size':%d,'data':'"
        [A_int (memcat (gch o)); A_int (int (sizestring (ts_len ts)))]
      ++ data ++ fprintf "'}" []).

(** One iteration of the loop over the hash part in [dumptable]. *)
Definition dumppair (h : LuaTable) (i : Z) (first : bool)
    : result (list Token * bool) :=
  n ← node_at h i;
  if negb (ttisnil (gval n)) && (iscollectable (gkey n) || iscollectable (gval n)) then
    kout ← (if iscollectable (gkey n)
            then gc ← gcvalue (gkey n); Ok (dumpref gc)
            else Ok (fprintf "null" []));
    vout ← (if iscollectable (gval n)
            then gc ← gcvalue (gval n); Ok (dumpref gc)
            else Ok (fprintf "null" []));
    Ok ((if negb first then fputc ","%char else []) ++ kout ++ fputc ","%char ++ vout,
        false)
  else Ok ([], first).

Definition dumppairs (h : LuaTable) : result (list Token) :=
  r ← dump_loop (Z.to_nat (sizenode h)) 0 (dumppair h) true;
  Ok r.1.

Definition dumptable (o : GCObject) (h : LuaTable) : result (list Token) :=
  let size := size_t (sizeof_LuaTable
                      + (if has_nodes h then sizenode h * sizeof_LuaNode else 0)
                      + sizearray h * sizeof_TValue) in
  pairs ← (if has_nodes h
           then ps ← dumppairs h; Ok (fprintf ",'pairs':[" [] ++ ps ++ fprintf "]" [])
           else Ok []);
  arr ← (if negb (sizearray h =? 0)
         then rs ← dumprefs (array h) (sizearray h);
              Ok (fprintf ",'array':[" [] ++ rs ++ fprintf "]" [])
         else Ok []);
  Ok (fprintf "{'type':'table','cat':%d,'size':%d" [A_int (memcat (gch o)); A_int (int size)]
      ++ pairs ++ arr
      ++ (if negb (h_metatable h =? NULL)
          then fprintf ",'metatable':" [] ++ dumpref (h_metatable h)
          else [])
      ++ fprintf "}" []).

End Dump.

(** ** Enumeration of nodes and edges *)

(** One call of the caller's [node] or [edge] callback, with its arguments
    after the caller's context. *)
Inductive Callback :=
  | CbNode (pointer : ptr) (tag : lua_Type) (cat : Z) (size : Z) (name : option string)
  | CbEdge (from to : ptr) (name : string).

Section Enum.
Context `{Headers}.
Variable FFlag : FastFlags.
Variable heap : gmap Z GCObject.
Variable g : global_State.

(** [getstr(ts)]: the bytes of the string object at [ts]. *)
Definition getstr (ts : ptr) : result string :=
  o ← deref heap ts;
  s ← gco2ts o;
  Ok (ts_data s).

Definition svalue (v : TValue) : result string :=
  gc ← gcvalue v;
  getstr gc.

Definition enumtopointer (gco : ptr) : result ptr :=
  o ← deref heap gco;
  Ok (if bool_decide (gch_tt (gch o) = LUA_TUSERDATA)
      then gco + offsetof_Udata_data
      else gco).

Definition enumnode (gco : ptr) (size : Z) (objname : option string)
    : result (list Callback) :=
  pointer ← enumtopointer gco;
  o ← deref heap gco;
  Ok [CbNode pointer (gch_tt (gch o)) (memcat (gch o)) size objname].

Definition enumedge (from to : ptr) (edgename : string) : result (list Callback) :=
  f ← enumtopointer from;
  t ← enumtopointer to;
  Ok [CbEdge f t edgename].

Definition enumedges (from : ptr) (data : list TValue) (size : Z) (edgename : string)
    : result (list Callback) :=
  emit_range 0 size (fun i =>
    v ← index data i;
    if iscollectable v then
      gc ← gcvalue v;
      enumedge from gc edgename
    else Ok []).

Definition enumstring (o : ptr) (ts : TString) : result (list Callback) :=
  if LuauHeapDumpStringSizeOverhead FFlag then
    enumnode o (sizestring (ts_len ts)) None
  else
    enumnode o (ts_len ts) None.

(** The pair [(weakkey, weakvalue)] that [enumtable] computes from the
    metatable. *)
Definition weakmode (h : LuaTable) : result (bool * bool) :=
  match gfasttm_TM_MODE heap g (h_metatable h) with
  | Some mode =>
      if ttisstring mode then
        s ← svalue mode;
        Ok (strchr s "k"%char, strchr s "v"%char)
      else Ok (false, false)
  | None => Ok (false, false)
  end.

(** The edge to the key made for one hash node, the edge to the value made
    for it, and the whole iteration of the loop of [enumtable]. *)
Definition enumkey (o : ptr) (weakkey : bool) (n : LuaNode) : result (list Callback) :=
  if negb weakkey && iscollectable (gkey n) then
    gc ← gcvalue (gkey n);
    enumedge o gc "[key]"
  else Ok [].

Definition enumvalue (o : ptr) (weakvalue : bool) (n : LuaNode) : result (list Callback) :=
  if negb weakvalue && iscollectable (gval n) then
    if ttisstring (gkey n) then
      gc ← gcvalue (gval n);
      s ← svalue (gkey n);
      enumedge o gc (cstr s)
    else if ttisnumber (gkey n) then
      d ← nvalue (gkey n);
      gc ← gcvalue (gval n);
      enumedge o gc (snprintf 32 (fmt_g14 d))
    else
      tn ← index (ttname g) (lua_Type_value (ttype (gkey n)));
      s ← getstr tn;
      gc ← gcvalue (gval n);
      enumedge o gc (snprintf 32 ("[" +:+ cstr s +:+ "]"))
  else Ok [].

Definition enumpair (o : ptr) (weakkey weakvalue : bool) (n : LuaNode)
    : result (list Callback) :=
  if negb (ttisnil (gval n)) && (iscollectable (gkey n) || iscollectable (gval n)) then
    ke ← enumkey o weakkey n;
    ve ← enumvalue o weakvalue n;
    Ok (ke ++ ve)
  else Ok [].

Definition enumpairs (o : ptr) (h : LuaTable) : result (list Callback) :=
  if has_nodes h then
    w ← weakmode h;
    emit_range 0 (sizenode h) (fun i => n ← node_at h i; enumpair o w.1 w.2 n)
  else Ok [].

Definition enumtable (o : ptr) (h : LuaTable) : result (list Callback) :=
  let size := size_t (sizeof_LuaTable
                      + (if has_nodes h then sizenode h * sizeof_LuaNode else 0)
                      + sizearray h * sizeof_TValue) in
  reg ← gcvalue (registry g);
  nd ← enumnode o size (if o =? reg then Some "registry" else None);
  ps ← enumpairs o h;
  arr ← (if negb (sizearray h =? 0) then enumedges o (array h) (sizearray h) "array"
         else Ok []);
  mt ← (if negb (h_metatable h =? NULL) then enumedge o (h_metatable h) "metatable"
        else Ok []);
  Ok (nd ++ ps ++ arr ++ mt).

(** The text that [enumclosure], [enumthread] and [enumproto] format into
    [buf] for the prototype [f], after the given prefix. *)
Definition describe (prefix : string) (f : Proto) : result string :=
  dn ← (if negb (debugname f =? NULL) then s ← getstr (debugname f); Ok (cstr s)
        else Ok "unnamed");
  if negb (source f =? NULL) then
    src ← getstr (source f);
    Ok (snprintf LUA_IDSIZE
          (prefix +:+ dn +:+ ":" +:+ pretty (linedefined f) +:+ " " +:+ cstr src))
  else
    Ok (snprintf LUA_IDSIZE (prefix +:+ dn +:+ ":" +:+ pretty (linedefined f))).

Definition enumclosure (o : ptr) (cl : Closure) : result (list Callback) :=
  nd ← (if isC cl then enumnode o (sizeCclosure (nupvalues cl)) (c_debugname cl)
        else
          po ← deref heap (l_p cl);
          f ← gco2p po;
          buf ← describe "" f;
          enumnode o (sizeLclosure (nupvalues cl)) (Some buf));
  e ← enumedge o (env cl) "env";
  rest ← (if isC cl then
            if negb (nupvalues cl =? 0)
            then enumedges o (c_upvals cl) (nupvalues cl) "upvalue"
            else Ok []
          else
            pe ← enumedge o (l_p cl) "proto";
            ups ← (if negb (nupvalues cl =? 0)
                   then enumedges o (l_uprefs cl) (nupvalues cl) "upvalue"
                   else Ok []);
            Ok (pe ++ ups));
  Ok (nd ++ e ++ rest).

(** The search for ["__type"] in the metatable of a userdata: the loop ends at
    the first node whose key and value are strings and whose key reads
    ["__type"]. *)
Fixpoint findtypename (n : nat) (i : Z) (h : LuaTable) : result (option string) :=
  match n with
  | O => Ok None
  | S n' =>
      nd ← node_at h i;
      found ← (if ttisstring (gkey nd) && ttisstring (gval nd)
               then ks ← svalue (gkey nd); Ok (strcmp_eq ks "__type")
               else Ok false);
      if (found : bool) then vs ← svalue (gval nd); Ok (Some (cstr vs))
      else findtypename n' (i + 1) h
  end.

Definition enumudata (o : ptr) (u : Udata) : result (list Callback) :=
  name ← (if negb (u_metatable u =? NULL) then
            mo ← deref heap (u_metatable u);
            h ← gco2h mo;
            if has_nodes h then findtypename (Z.to_nat (sizenode h)) 0 h
            else Ok None
          else Ok None);
  nd ← enumnode o (sizeudata (u_len u)) name;
  mt ← (if negb (u_metatable u =? NULL) then enumedge o (u_metatable u) "metatable"
        else Ok []);
  Ok (nd ++ mt).

(** The first frame of the thread whose function slot holds a function:
    the closure [tcl], or [None] for a null [tcl]. *)
Fixpoint findclosure (n : nat) (i : Z) (th : lua_State) : result (option ptr) :=
  match n with
  | O => Ok None
  | S n' =>
      c ← index (base_ci th) i;
      fn ← index (slots th) (ci_func c - stack th);
      if ttisfunction fn then gc ← gcvalue fn; Ok (Some gc)
      else findclosure n' (i + 1) th
  end.

Definition enumthread (o : ptr) (th : lua_State) : result (list Callback) :=
  let size := size_t (sizeof_lua_State + sizeof_TValue * stacksize th
                      + sizeof_CallInfo * size_ci th) in
  tcl ← findclosure (Z.to_nat (ci th + 1)) 0 th;
  name ← match tcl with
         | Some c =>
             co ← deref heap c;
             cl ← gco2cl co;
             if isC cl then Ok None
             else
               po ← deref heap (l_p cl);
               f ← gco2p po;
               if negb (source f =? NULL)
               then buf ← describe "thread at " f; Ok (Some buf)
               else Ok None
         | None => Ok None
         end;
  nd ← enumnode o size name;
  e ← enumedge o (gt th) "globals";
  st ← (if stack th <? top th
        then enumedges o (slots th) (top th - stack th) "stack"
        else Ok []);
  Ok (nd ++ e ++ st).

Definition enumbuffer (o : ptr) (b : Buffer) : result (list Callback) :=
  enumnode o (sizebuffer (b_len b)) None.

Definition enumproto (o : ptr) (f : Proto) : result (list Callback) :=
  let size := size_t (sizeof_Proto + sizeof_Instruction * sizecode f
                      + sizeof_pointer * sizep f + sizeof_TValue * sizek f
                      + sizelineinfo f + sizeof_LocVar * sizelocvars f
                      + sizeof_pointer * sizeupvalues f) in
  native ← (if negb (execdata f =? NULL) then
              match getmemorysize g with
              | Some cb =>
                  obj ← deref heap o;
                  from ← enumtopointer o;
                  Ok [CbNode (execdata f) LUA_TNONE (memcat (gch obj)) (cb o) None;
                      CbEdge from (execdata f) "[native]"]
              | None => Ok []
              end
            else Ok []);
  buf ← describe "proto " f;
  nd ← enumnode o size (Some buf);
  ks ← (if negb (sizek f =? 0) then enumedges o (k f) (sizek f) "constants" else Ok []);
  ps ← emit_range 0 (sizep f) (fun i => q ← index (p f) i; enumedge o q "protos");
  Ok (native ++ nd ++ ks ++ ps).

Definition enumupval (o : ptr) (uv : UpVal) : result (list Callback) :=
  nd ← enumnode o sizeof_UpVal None;
  e ← (if iscollectable (uv_v uv) then gc ← gcvalue (uv_v uv); enumedge o gc "value"
       else Ok []);
  Ok (nd ++ e).

Definition enumobj (o : ptr) : result (list Callback) :=
  obj ← deref heap o;
  match gch_tt (gch obj) with
  | LUA_TSTRING => ts ← gco2ts obj; enumstring o ts
  | LUA_TTABLE => h ← gco2h obj; enumtable o h
  | LUA_TFUNCTION => cl ← gco2cl obj; enumclosure o cl
  | LUA_TUSERDATA => u ← gco2u obj; enumudata o u
  | LUA_TTHREAD => th ← gco2th obj; enumthread o th
  | LUA_TBUFFER => b ← gco2buf obj; enumbuffer o b
  | LUA_TPROTO => f ← gco2p obj; enumproto o f
  | LUA_TUPVAL => uv ← gco2uv obj; enumupval o uv
  | _ => AssertFailed "Unknown object tag"
  end.

(** The context of the visitor is the sequence of callbacks made so far. *)
Definition enumgco (context : list Callback) (gco : ptr) : result (list Callback) :=
  out ← enumobj gco;
  Ok (context ++ out).

Definition luaC_enumheap : result (list Callback) :=
  c ← enumgco [] (mainthread g);
  luaM_visitgco g c enumgco.

End Enum.

(** ** Vocabulary of the specification *)

Section Vocabulary.
Context `{Headers}.

(** The object that a collectable value refers to, if any. *)
Definition gcref (v : TValue) : list ptr :=
  if iscollectable v then
    match value v with
    | Vgc t => [t]
    | _ => []
    end
  else [].

(** The objects referred to from the first [size] elements of an array. *)
Definition gcrefs (data : list TValue) (size : Z) : list ptr :=
  flat_map gcref (take (Z.to_nat size) data).

Definition nonnull (o : ptr) : list ptr := if o =? NULL then [] else [o].

(** The nodes that a loop [for (i = 0; i < sizenode(h); ++i)] reads. *)
Definition hashnodes (h : LuaTable) : list LuaNode :=
  match node h with
  | DummyNode => take (Z.to_nat (sizenode h)) [luaH_dummynode]
  | Nodes ns => take (Z.to_nat (sizenode h)) ns
  end.

(** The key and the value that an entry of the hash part refers to; an entry
    with a nil value is not an entry. *)
Definition pairref (weakkey weakvalue : bool) (n : LuaNode) : list ptr :=
  if ttisnil (gval n) then []
  else (if weakkey then [] else gcref (gkey n))
       ++ (if weakvalue then [] else gcref (gval n)).

(** The strong fields of an object: the references of §3 of the
    specification that the validator hands to [validateobjref].  The slots of
    a thread's stack are not among them; [validatestack] says of them that
    "stack refs can violate gc invariant so we only check for liveness".
    Strings and buffers have none. *)
Definition strongfields (obj : GCObject) : list ptr :=
  match gch_tt (gch obj), body obj with
  | LUA_TTABLE, U_h h =>
      nonnull (h_metatable h) ++ gcrefs (array h) (sizearray h)
      ++ flat_map (pairref false false) (hashnodes h)
  | LUA_TFUNCTION, U_cl cl =>
      env cl :: (if isC cl then gcrefs (c_upvals cl) (nupvalues cl)
                 else l_p cl :: gcrefs (l_uprefs cl) (nupvalues cl))
  | LUA_TUSERDATA, U_u u => nonnull (u_metatable u)
  | LUA_TTHREAD, U_th th => gt th :: nonnull (namecall th)
  | LUA_TPROTO, U_p f =>
      nonnull (source f) ++ nonnull (debugname f) ++ gcrefs (k f) (sizek f)
      ++ flat_map nonnull (take (Z.to_nat (sizeupvalues f)) (upvalues f))
      ++ flat_map nonnull (take (Z.to_nat (sizep f)) (p f))
      ++ flat_map (fun lv => nonnull (varname lv))
           (take (Z.to_nat (sizelocvars f)) (locvars f))
  | LUA_TUPVAL, U_uv uv => gcref (uv_v uv)
  | _, _ => []
  end.

(** The pair references of a table, without those of a weak side. *)
Definition pairrefs (weakkey weakvalue : bool) (h : LuaTable) : list ptr :=
  if has_nodes h then flat_map (pairref weakkey weakvalue) (hashnodes h) else [].

End Vocabulary.

(** The objects that a piece of the dump refers to, in order. *)
Definition pointers (out : list Token) : list ptr :=
  omap (fun t => match t with Hex o => Some o | _ => None end) out.

(** Printable ASCII: the characters from the space to the tilde. *)
Definition printable (c : ascii) : bool :=
  (32 <=? Z.of_N (N_of_ascii c)) && (Z.of_N (N_of_ascii c) <=? 126).

(** "A node is emitted before every edge mentioning its pointer": every edge
    of the sequence comes after a node callback for its source and after one
    for its target. *)
Fixpoint nodesfirst (seen : list ptr) (out : list Callback) : bool :=
  match out with
  | [] => true
  | CbNode pointer _ _ _ _ :: rest => nodesfirst (pointer :: seen) rest
  | CbEdge from to _ :: rest =>
      bool_decide (from ∈ seen) && bool_decide (to ∈ seen) && nodesfirst seen rest
  end.

(** "Each call frame's base is >= the previous frame's top." *)
Definition framesnested (l : lua_State) : Prop :=
  ∀ i c c', 0 ≤ i → i + 1 ≤ ci l →
    base_ci l !! Z.to_nat i = Some c →
    base_ci l !! Z.to_nat (i + 1) = Some c' →
    ci_top c ≤ ci_base c'.

(** The checks that [validatestack] makes on one frame. *)
Definition frameok (l : lua_State) (c : CallInfo) : Prop :=
  stack l ≤ ci_base c ∧ ci_func c ≤ ci_base c ∧ ci_base c ≤ ci_top c
  ∧ ci_top c ≤ stack_last l.

(** The bytes from 32 to 127 other than the backslash (92) and the double
    quote (34). *)
Definition verbatim (c : ascii) : bool :=
  let n := Z.of_N (N_of_ascii c) in
  (32 <=? n) && (n <=? 127) && negb (n =? 92) && negb (n =? 34).

(** The byte written for [c] by a writer that replaces by a question mark
    what [keep] rejects. *)
Definition escaped (keep : ascii → bool) (c : ascii) : Token :=
  Byte (if keep c then c else "?"%char).

(** ** Vocabulary for the enumeration *)

Section Identities.
Context `{Headers}.
Variable heap : gmap Z GCObject.
Variable g : global_State.

(** [pointer] is the identity under which the object [obj] at address [o] is
    reported: the address of the payload for a userdata, the address of the
    object otherwise. *)
Definition denotes (pointer o : ptr) (obj : GCObject) : Prop :=
  heap !! o = Some obj
  ∧ (gch_tt (gch obj) = LUA_TUSERDATA → pointer = o + offsetof_Udata_data)
  ∧ (gch_tt (gch obj) ≠ LUA_TUSERDATA → pointer = o).

(** [cb] is the node callback of the object at [o]. *)
Definition nodeof (o : ptr) (cb : Callback) : Prop :=
  ∃ obj pointer size name,
    cb = CbNode pointer (gch_tt (gch obj)) (memcat (gch obj)) size name
    ∧ denotes pointer o obj.

(** [cb] is an edge callback from the object at [o] to some object. *)
Definition edgefrom (o : ptr) (cb : Callback) : Prop :=
  ∃ obj from t tobj to name,
    cb = CbEdge from to name ∧ denotes from o obj ∧ denotes to t tobj.

(** [cb] is an edge callback from the object at [o] to the object at [t],
    with the label [name]. *)
Definition edgeof (o t : ptr) (name : string) (cb : Callback) : Prop :=
  ∃ obj from tobj to,
    cb = CbEdge from to name ∧ denotes from o obj ∧ denotes to t tobj.

(** [name] is the label of the edge to the value of the entry [n]: the text
    of the key when the key is a string, the [%.14g] form of the key when it
    is a number, and otherwise the name of the type of the key between
    brackets. *)
Definition valuelabel (n : LuaNode) (name : string) : Prop :=
  if ttisstring (gkey n) then ∃ ks, svalue heap (gkey n) = Ok ks ∧ name = cstr ks
  else if ttisnumber (gkey n) then
    ∃ d, nvalue (gkey n) = Ok d ∧ name = snprintf 32 (fmt_g14 d)
  else
    ∃ tn s, index (ttname g) (lua_Type_value (ttype (gkey n))) = Ok tn
            ∧ getstr heap tn = Ok s ∧ name = snprintf 32 ("[" +:+ cstr s +:+ "]").

(** The edges to the keys and the edges to the values that the entry [n] of
    a table with the weak flags [wk] and [wv] stands for: none for an entry
    whose value is nil, none on a weak side. *)
Definition keyrefs (wk : bool) (n : LuaNode) : list ptr :=
  if ttisnil (gval n) || wk then [] else gcref (gkey n).

Definition valuerefs (wv : bool) (n : LuaNode) : list ptr :=
  if ttisnil (gval n) || wv then [] else gcref (gval n).

(** [e] is what the enumeration of the table at [o] reports for its entry
    [n]: the edge to the key, labelled [[key]], then the edge to the value
    under its label, each one if the entry stands for it. *)
Definition entryedges (o : ptr) (wk wv : bool) (n : LuaNode) (e : list Callback) : Prop :=
  ∃ ks vs,
    e = ks ++ vs
    ∧ Forall2 (fun t cb => edgeof o t "[key]" cb) (keyrefs wk n) ks
    ∧ Forall2 (fun t cb => ∃ name, valuelabel n name ∧ edgeof o t name cb)
        (valuerefs wv n) vs.

(** What [enumproto] emits for the native code of the prototype at [o],
    before the node of the prototype. *)
Definition nativeblob (o : ptr) (pre : list Callback) : Prop :=
  pre = []
  ∨ ∃ obj f cb from,
      denotes from o obj ∧ body obj = U_p f ∧ gch_tt (gch obj) = LUA_TPROTO
      ∧ execdata f ≠ NULL ∧ getmemorysize g = Some cb
      ∧ pre = [CbNode (execdata f) LUA_TNONE (memcat (gch obj)) (cb o) None;
               CbEdge from (execdata f) "[native]"].

(** The callbacks made for the object at [o]: its node, then edges from
    it, after what is emitted for native code. *)
Definition groupof (o : ptr) (out : list Callback) : Prop :=
  ∃ pre nd edges,
    out = pre ++ nd :: edges
    ∧ nativeblob o pre ∧ nodeof o nd ∧ Forall (edgefrom o) edges.

End Identities.

(** ** A concrete reading of the headers, and small heaps

    The mark bits and collector states of lgc.h, the numbering of the tags of
    lua.h and representative sizes for a 64-bit build, used by the examples;
    no theorem depends on them.  [fmt_g14] is a stand-in, and no example has a
    number as a key. *)

Definition lua_Type_number (t : lua_Type) : Z :=
  match t with
  | LUA_TNIL => 0 | LUA_TBOOLEAN => 1 | LUA_TLIGHTUSERDATA => 2 | LUA_TNUMBER => 3
  | LUA_TVECTOR => 4 | LUA_TSTRING => 5 | LUA_TTABLE => 6 | LUA_TFUNCTION => 7
  | LUA_TUSERDATA => 8 | LUA_TTHREAD => 9 | LUA_TBUFFER => 10 | LUA_TPROTO => 11
  | LUA_TUPVAL => 12 | LUA_TDEADKEY => 13 | LUA_TNONE => 255
  end.

(** Mark bits: white0 is bit 0, black bit 1, white1 bit 2, fixed bit 3. *)
Definition WHITEBITS : Z := 5.
Definition luau_iswhite (o : GCObject) : bool :=
  negb (Z.land (marked (gch o)) WHITEBITS =? 0).
Definition luau_isblack (o : GCObject) : bool := Z.testbit (marked (gch o)) 1.
Definition luau_isgray (o : GCObject) : bool := Z.land (marked (gch o)) 7 =? 0.
Definition luau_isdead (g : global_State) (o : GCObject) : bool :=
  Z.land (marked (gch o)) (Z.lor WHITEBITS 8)
  =? Z.land (Z.lxor (currentwhite g) WHITEBITS) WHITEBITS.

(** Collector states: pause 0, propagate 1, propagate again 2, atomic 3,
    sweep 4. *)
Definition luau_keepinvariant (g : global_State) : bool :=
  (gcstate g =? 1) || (gcstate g =? 2) || (gcstate g =? 3).

Definition luau_iscollectable (v : TValue) : bool :=
  lua_Type_number LUA_TSTRING <=? lua_Type_number (ttype v).

Definition luau_checkliveness (heap : gmap Z GCObject) (g : global_State)
    (v : TValue) : result unit :=
  if luau_iscollectable v then
    gc ← gcvalue v;
    o ← deref heap gc;
    LUAU_ASSERT (bool_decide (ttype v = gch_tt (gch o)) && negb (luau_isdead g o))
      "checkliveness"
  else Ok tt.

(** The value of the field ["__mode"] of a metatable, found by its text;
    a nil value counts as absent. *)
Definition string_is (heap : gmap Z GCObject) (v : TValue) (s : string) : bool :=
  match value v, ttype v with
  | Vgc a, LUA_TSTRING =>
      match heap !! a with
      | Some (mkGCObject _ (U_ts ts)) => String.eqb (ts_data ts) s
      | _ => false
      end
  | _, _ => false
  end.

Definition luau_gfasttm_TM_MODE (heap : gmap Z GCObject) (g : global_State)
    (et : ptr) : option TValue :=
  match heap !! et with
  | Some (mkGCObject _ (U_h h)) =>
      match node h with
      | Nodes ns =>
          match List.find (fun n => string_is heap (gkey n) "__mode") ns with
          | Some n => if ttisnil (gval n) then None else Some (gval n)
          | None => None
          end
      | DummyNode => None
      end
  | _ => None
  end.

Definition luau64 : Headers := {|
  GCSsweep := 4;
  keepinvariant := luau_keepinvariant;
  isdead := luau_isdead;
  isblack := luau_isblack;
  iswhite := luau_iswhite;
  isgray := luau_isgray;
  iscollectable := luau_iscollectable;
  checkliveness := luau_checkliveness;
  LUA_T_COUNT := 11;
  lua_Type_value := lua_Type_number;
  LUA_IDSIZE := 256;
  gfasttm_TM_MODE := luau_gfasttm_TM_MODE;
  sizestring := fun len => 24 + len + 1;
  sizeudata := fun len => 16 + len;
  sizebuffer := fun len => 8 + len;
  sizeCclosure := fun n => 48 + 16 * n;
  sizeLclosure := fun n => 32 + 16 * n;
  sizeof_LuaTable := 48;
  sizeof_LuaNode := 32;
  sizeof_TValue := 16;
  sizeof_lua_State := 120;
  sizeof_CallInfo := 40;
  sizeof_Proto := 160;
  sizeof_Instruction := 4;
  sizeof_pointer := 8;
  sizeof_LocVar := 24;
  sizeof_UpVal := 40;
  offsetof_Udata_data := 16;
  char_is_signed := true;
  fmt_g14 := fun bits => pretty bits
|}.

(** Object headers in the current white (1), gray (0) and black (2). *)
Definition white (tt : lua_Type) : GCheader := mkGCheader tt 1 0.
Definition gray_ (tt : lua_Type) : GCheader := mkGCheader tt 0 0.
Definition black (tt : lua_Type) : GCheader := mkGCheader tt 2 0.

Definition nilvalue : TValue := mkTValue Vnone LUA_TNIL.
Definition truevalue : TValue := mkTValue (Vb 1) LUA_TBOOLEAN.
Definition objvalue (tt : lua_Type) (o : ptr) : TValue := mkTValue (Vgc o) tt.

Definition emptytable : LuaTable :=
  {| lsizenode := 0; sizearray := 0; lastfree := 0; h_metatable := NULL;
     array := []; node := DummyNode; h_gclist := NULL |}.

Definition uvsentinel : UpVal :=
  {| uv_v := nilvalue; upisopen := true; open_prev := 8; open_next := 8;
     open_threadnext := NULL |}.

(** A thread with two frames: the second frame starts (base 4) inside the
    first one (top 10). *)
Definition twoframes : lua_State :=
  {| top := 6; ci := 1; stack_last := 20; stack := 0;
     slots := replicate 25 nilvalue;
     base_ci := [mkCallInfo 1 0 10; mkCallInfo 4 3 12];
     stacksize := 25; size_ci := 2; gt := 32; openupval := NULL;
     th_gclist := NULL; namecall := NULL |}.

(** The strings that name the types, from the address 200 on. *)
Definition typenames : list ptr :=
  [200; 208; 216; 224; 232; 240; 248; 256; 264; 272; 280].

(** A state in the given phase (current white 1), with the main thread at 16,
    its globals at 32 and the registry at 48; the sentinel of the upvalue ring
    is at 8. *)
Definition state (phase : Z) (pages : list ptr) : global_State :=
  {| currentwhite := 1; gcstate := phase; gray := NULL; grayagain := NULL;
     weak := NULL; mainthread := 16; uvhead := uvsentinel; uvhead_addr := 8;
     mt := replicate 11 NULL; ttname := typenames; registry := objvalue LUA_TTABLE 48;
     getmemorysize := None; allgcopages := pages |}.

Definition stringobj (hdr : GCheader) (s : string) : GCObject :=
  mkGCObject hdr (U_ts (mkTString (Z.of_nat (String.length s)) s)).

Definition baseheap : gmap Z GCObject :=
  list_to_map
    ([(16, mkGCObject (gray_ LUA_TTHREAD) (U_th twoframes));
      (32, mkGCObject (gray_ LUA_TTABLE) (U_h emptytable));
      (48, mkGCObject (gray_ LUA_TTABLE) (U_h emptytable))]
     ++ zip typenames
          (stringobj (gray_ LUA_TSTRING)
           <$> ["nil"; "boolean"; "userdata"; "number"; "vector"; "string"; "table";
                "function"; "userdata"; "thread"; "buffer"])).

(** A table without hash part whose array holds the value [v]. *)
Definition tablewith (hdr : GCheader) (v : TValue) : GCObject :=
  mkGCObject hdr (U_h {| lsizenode := 0; sizearray := 1; lastfree := 0;
                         h_metatable := NULL; array := [v]; node := DummyNode;
                         h_gclist := NULL |}).

(** A black table at 64 whose array holds the white string at 80: the
    write barrier was bypassed. *)
Definition badheap : gmap Z GCObject :=
  <[64 := tablewith (black LUA_TTABLE) (objvalue LUA_TSTRING 80)]>
  (<[80 := stringobj (white LUA_TSTRING) "s"]> baseheap).

(** The same heap after the barrier: the table is gray again. *)
Definition goodheap : gmap Z GCObject :=
  <[64 := tablewith (gray_ LUA_TTABLE) (objvalue LUA_TSTRING 80)]>
  (<[80 := stringobj (white LUA_TSTRING) "s"]> baseheap).

(** A dead table (marked with the other white) at 64 whose array slot holds
    an address at which there is no object. *)
Definition deadheap : gmap Z GCObject :=
  <[64 := tablewith (mkGCheader LUA_TTABLE 4 0) (objvalue LUA_TSTRING 999)]> baseheap.

(** An object whose header carries the tag of a number. *)
Definition oddheap : gmap Z GCObject :=
  <[64 := mkGCObject (gray_ LUA_TNUMBER) (U_buf (mkBuffer 0))]> baseheap.

(** The payload made of [a], a backslash, [b], a double quote, [c], the byte
    200 and [d]. *)
Definition payload : string :=
  String "a" (String "092" (String "b" (String "034" (String "c"
    (String "200" (String "d" EmptyString)))))).

(** A payload made of the byte 127 alone. *)
Definition delpayload : string := String "127" EmptyString.


(** A string of length 1 at 80. *)
Definition stringheap : gmap Z GCObject :=
  <[80 := stringobj (white LUA_TSTRING) "s"]> baseheap.

(** A prototype at 64 with native code at the address 4096, in a state
    whose [getmemorysize] callback answers 512. *)
Definition nativeproto : Proto :=
  {| nups := 0; k := []; p := []; execdata := 4096; locvars := []; upvalues := [];
     source := NULL; debugname := NULL; p_gclist := NULL; sizecode := 2; sizep := 0;
     sizelocvars := 0; sizeupvalues := 0; sizek := 0; sizelineinfo := 0;
     linedefined := 3 |}.

Definition protoheap : gmap Z GCObject :=
  <[64 := mkGCObject (gray_ LUA_TPROTO) (U_p nativeproto)]> baseheap.

Definition nativestate (pages : list ptr) : global_State :=
  {| currentwhite := 1; gcstate := 0; gray := NULL; grayagain := NULL;
     weak := NULL; mainthread := 16; uvhead := uvsentinel; uvhead_addr := 8;
     mt := replicate 11 NULL; ttname := typenames; registry := objvalue LUA_TTABLE 48;
     getmemorysize := Some (fun _ => 512); allgcopages := pages |}.

(** Tables with a hash part. *)
Definition entry (key val : TValue) : LuaNode :=
  {| gval := val; gkey := key; gnext := 0 |}.

Definition hashtable (metatable : ptr) (lsize : Z) (ns : list LuaNode) : LuaTable :=
  {| lsizenode := lsize; sizearray := 0; lastfree := 0; h_metatable := metatable;
     array := []; node := Nodes ns; h_gclist := NULL |}.

(** The table at 64 maps the table at 128 to the table at 144; its metatable,
    at 96, has the single field ["__mode"], whose value is the string at
    112. *)
Definition weakheap (mode : string) : gmap Z GCObject :=
  <[64 := mkGCObject (gray_ LUA_TTABLE)
            (U_h (hashtable 96 0 [entry (objvalue LUA_TTABLE 128) (objvalue LUA_TTABLE 144)]))]>
  (<[96 := mkGCObject (gray_ LUA_TTABLE)
             (U_h (hashtable NULL 0
                     [entry (objvalue LUA_TSTRING 104) (objvalue LUA_TSTRING 112)]))]>
  (<[104 := stringobj (gray_ LUA_TSTRING) "__mode"]>
  (<[112 := stringobj (gray_ LUA_TSTRING) mode]>
  (<[128 := mkGCObject (gray_ LUA_TTABLE) (U_h emptytable)]>
  (<[144 := mkGCObject (gray_ LUA_TTABLE) (U_h emptytable)]> baseheap))))).

Definition weaktable : LuaTable :=
  hashtable 96 0 [entry (objvalue LUA_TTABLE 128) (objvalue LUA_TTABLE 144)].

(** The mode string made of a NUL followed by [k]. *)
Definition nulk : string := String NUL "k".

(** The table at 64 maps the string ["x"] (at 104) and [true] to the table
    at 144. *)
Definition labeltable : LuaTable :=
  hashtable NULL 1 [entry (objvalue LUA_TSTRING 104) (objvalue LUA_TTABLE 144);
                    entry truevalue (objvalue LUA_TTABLE 144)].

Definition labelheap : gmap Z GCObject :=
  <[64 := mkGCObject (gray_ LUA_TTABLE) (U_h labeltable)]>
  (<[104 := stringobj (gray_ LUA_TSTRING) "x"]>
  (<[144 := mkGCObject (gray_ LUA_TTABLE) (U_h emptytable)]> baseheap)).

(** A black thread at 64 whose first stack slot holds the white string at
    80. *)
Definition blackthread : lua_State :=
  {| top := 1; ci := 0; stack_last := 20; stack := 0;
     slots := objvalue LUA_TSTRING 80 :: replicate 24 nilvalue;
     base_ci := [mkCallInfo 1 0 10];
     stacksize := 25; size_ci := 1; gt := 32; openupval := NULL;
     th_gclist := NULL; namecall := NULL |}.

Definition stackheap : gmap Z GCObject :=
  <[64 := mkGCObject (black LUA_TTHREAD) (U_th blackthread)]>
  (<[80 := stringobj (white LUA_TSTRING) "s"]> baseheap).

(** The heap [badheap] with a gray table at 96 whose [gclist] is the table
    itself, in a state whose gray list starts at this table. *)
Definition selflinked : LuaTable :=
  {| lsizenode := 0; sizearray := 0; lastfree := 0; h_metatable := NULL;
     array := []; node := DummyNode; h_gclist := 96 |}.

Definition loopheap : gmap Z GCObject :=
  <[96 := mkGCObject (gray_ LUA_TTABLE) (U_h selflinked)]> badheap.

Definition loopstate : global_State :=
  {| currentwhite := 1; gcstate := 1; gray := 96; grayagain := NULL;
     weak := NULL; mainthread := 16; uvhead := uvsentinel; uvhead_addr := 8;
     mt := replicate 11 NULL; ttname := typenames; registry := objvalue LUA_TTABLE 48;
     getmemorysize := None; allgcopages := [32; 48; 64; 80; 96] |}.

(** * The rest of the JSON dump

    [dumpclosure], [dumpudata], [dumpthread], [dumpbuffer], [dumpproto],
    [dumpupval], [dumpobj], [dumpgco] and [luaC_dump]. *)

(** What these functions read beyond the [Headers]: two macros of lstate.h
    and ldebug.h, the lookup of a local variable of lfunc.cpp, and two
    fields that the records of the object model above do not carry, given
    by the address of the object that holds them. *)
Class DebugHeaders := {
  (* lstate.h: [isLua(ci)] for a frame of the thread *)
  isLua : gmap Z GCObject → lua_State → CallInfo → result bool;
  (* ldebug.h: [pcRel(ci->savedpc, p)] for the frame [base_ci[i]] of the
     thread at the given address *)
  pcRel_savedpc : ptr → Z → Proto → Z;
  (* lfunc.cpp: [luaF_findlocal(p, local_number, pc)], [None] for null *)
  luaF_findlocal : Proto → Z → Z → option LocVar;
  (* [p->abslineinfo ? p->abslineinfo[0] : 0] for the prototype at the
     given address *)
  abslineinfo0 : ptr → Z;
  (* luaconf.h *)
  LUA_MEMORY_CATEGORIES : Z
}.

(** The accounting fields of [global_State] that [luaC_dump] prints. *)
Record Accounting := mkAccounting { totalbytes : Z; memcatbytes : list Z }.

(** A line feed. *)
Definition newline : list Token := [Byte "010"%char].

(** Items separated by commas. *)
Fixpoint commajoin (items : list (list Token)) : list Token :=
  match items with
  | [] => []
  | [item] => item
  | item :: rest => item ++ Byte ","%char :: commajoin rest
  end.

Section DumpObjects.
Context `{Headers} `{DebugHeaders}.
Variable heap : gmap Z GCObject.
Variable g : global_State.

Definition dumpclosure (o : GCObject) (cl : Closure) : result (list Token) :=
  rest ← (if isC cl then
            ups ← (if negb (nupvalues cl =? 0)
                   then rs ← dumprefs (c_upvals cl) (nupvalues cl);
                        Ok (fprintf ",'upvalues':[" [] ++ rs ++ fprintf "]" [])
                   else Ok []);
            Ok (match c_debugname cl with
                | Some name => fprintf ",'name':'%s'" [A_str name]
                | None => []
                end ++ ups)
          else
            po ← deref heap (l_p cl);
            f ← gco2p po;
            name ← (if negb (debugname f =? NULL)
                    then s ← getstr heap (debugname f);
                         Ok (fprintf ",'name':'%s'" [A_str s])
                    else Ok []);
            ups ← (if negb (nupvalues cl =? 0)
                   then rs ← dumprefs (l_uprefs cl) (nupvalues cl);
                        Ok (fprintf ",'upvalues':[" [] ++ rs ++ fprintf "]" [])
                   else Ok []);
            Ok (name ++ fprintf ",'proto':" [] ++ dumpref (l_p cl) ++ ups));
  Ok (fprintf "{'type':'function','cat':%d,'size':%d"
        [A_int (memcat (gch o));
         A_int (if isC cl then int (sizeCclosure (nupvalues cl))
                else int (sizeLclosure (nupvalues cl)))]
      ++ fprintf ",'env':" [] ++ dumpref (env cl)
      ++ rest ++ fprintf "}" []).

Definition dumpudata (o : GCObject) (u : Udata) : list Token :=
  fprintf "{'type':'userdata','cat':%d,'size':%d,'tag':%d"
    [A_int (memcat (gch o)); A_int (int (sizeudata (u_len u))); A_int (u_tag u)]
  ++ (if negb (u_metatable u =? NULL)
      then fprintf ",'metatable':" [] ++ dumpref (u_metatable u)
      else [])
  ++ fprintf "}" [].

(** [dumpstringdata(f, ts->data, ts->len)] for the string object at [ts]. *)
Definition dumpstringobj (ts : ptr) : result (list Token) :=
  so ← deref heap ts;
  s ← gco2ts so;
  dumpstringdata (ts_data s) (ts_len s).

(** The name written for a stack slot that is the function slot of its
    frame; [fn] is the content of the slot. *)
Definition dumpframename (fn : TValue) : result (list Token) :=
  gc ← gcvalue fn;
  co ← deref heap gc;
  cl ← gco2cl co;
  if isC cl then
    Ok (fprintf "'frame:%s'"
          [A_str (match c_debugname cl with Some name => name | None => "[C]" end)])
  else
    po ← deref heap (l_p cl);
    f ← gco2p po;
    src ← (if negb (source f =? NULL) then dumpstringobj (source f) else Ok []);
    dn ← (if negb (debugname f =? NULL) then getstr heap (debugname f) else Ok "");
    Ok (fprintf "'frame:" [] ++ src
        ++ fprintf ":%d:%s'" [A_int (linedefined f); A_str dn]).

(** The name written for a slot [v] of a Lua frame that is not its function
    slot: the name of the local variable that [luaF_findlocal] finds. *)
Definition dumplocalname (o : ptr) (th : lua_State) (j : Z) (c : CallInfo) (v : StkId)
    : result (list Token) :=
  fn ← index (slots th) (ci_func c - stack th);
  gc ← gcvalue fn;
  co ← deref heap gc;
  cl ← gco2cl co;
  po ← deref heap (l_p cl);
  f ← gco2p po;
  match luaF_findlocal f (int (v - ci_base c)) (pcRel_savedpc o j f) with
  | Some var =>
      if negb (varname var =? NULL)
      then s ← getstr heap (varname var); Ok (fprintf "'%s'" [A_str s])
      else Ok (fprintf "null" [])
  | None => Ok (fprintf "null" [])
  end.

(** [while (ci < th->ci && v >= (ci + 1)->func) ci++], on the index [j] of
    [ci] in [base_ci]; the loop makes at most [th->ci - j] steps. *)
Fixpoint advanceframe (n : nat) (th : lua_State) (v : StkId) (j : Z) : result Z :=
  match n with
  | O => Ok j
  | S n' =>
      if j <? ci th then
        c ← index (base_ci th) (j + 1);
        if ci_func c <=? v then advanceframe n' th v (j + 1) else Ok j
      else Ok j
  end.

(** The name of one collectable slot, of which [ci] is the frame. *)
Definition dumpslotname (o : ptr) (th : lua_State) (j : Z) (v : StkId) (slot : TValue)
    : result (list Token) :=
  c ← index (base_ci th) j;
  if v =? ci_func c then dumpframename slot
  else
    lua ← isLua heap th c;
    if (lua : bool) then dumplocalname o th j c v
    else Ok (fprintf "null" []).

(** The loop that writes ["stacknames"], from the slot [v] on, with the
    index [j] of [ci] and the flag [first]. *)
Fixpoint dumpstacknames (n : nat) (o : ptr) (th : lua_State) (v : StkId) (j : Z)
    (first : bool) : result (list Token) :=
  match n with
  | O => Ok []
  | S n' =>
      slot ← index (slots th) (v - stack th);
      if negb (iscollectable slot) then dumpstacknames n' o th (v + 1) j first
      else
        j' ← advanceframe (Z.to_nat (ci th - j)) th v j;
        name ← dumpslotname o th j' v slot;
        rest ← dumpstacknames n' o th (v + 1) j' false;
        Ok ((if negb first then fputc ","%char else []) ++ name ++ rest)
  end.

Definition dumpthread (o : ptr) (obj : GCObject) (th : lua_State) : result (list Token) :=
  let size := size_t (sizeof_lua_State + sizeof_TValue * stacksize th
                      + sizeof_CallInfo * size_ci th) in
  tcl ← findclosure (Z.to_nat (ci th + 1)) 0 th;
  src ← match tcl with
        | Some c =>
            co ← deref heap c;
            cl ← gco2cl co;
            if isC cl then Ok []
            else
              po ← deref heap (l_p cl);
              f ← gco2p po;
              if negb (source f =? NULL) then
                data ← dumpstringobj (source f);
                Ok (fprintf ",'source':'" [] ++ data
                    ++ fprintf "','line':%d" [A_int (linedefined f)])
              else Ok []
        | None => Ok []
        end;
  st ← (if stack th <? top th then
          rs ← dumprefs (slots th) (top th - stack th);
          names ← dumpstacknames (Z.to_nat (top th - stack th)) o th (stack th) 0 true;
          Ok (fprintf ",'stack':[" [] ++ rs ++ fprintf "]" []
              ++ fprintf ",'stacknames':[" [] ++ names ++ fprintf "]" [])
        else Ok []);
  Ok (fprintf "{'type':'thread','cat':%d,'size':%d" [A_int (memcat (gch obj)); A_int (int size)]
      ++ fprintf ",'env':" [] ++ dumpref (gt th)
      ++ src ++ st ++ fprintf "}" []).

Definition dumpbuffer (o : GCObject) (b : Buffer) : list Token :=
  fprintf "{'type':'buffer','cat':%d,'size':%d}"
    [A_int (memcat (gch o)); A_int (int (sizebuffer (b_len b)))].

(** The loop that writes ["protos"]: a comma before every element but the
    first. *)
Definition dumpprotos (f : Proto) : result (list Token) :=
  emit_range 0 (sizep f) (fun i =>
    q ← index (p f) i;
    Ok ((if negb (i =? 0) then fputc ","%char else []) ++ dumpref q)).

Definition dumpproto (o : ptr) (obj : GCObject) (f : Proto) : result (list Token) :=
  let size := size_t (sizeof_Proto + sizeof_Instruction * sizecode f
                      + sizeof_pointer * sizep f + sizeof_TValue * sizek f
                      + sizelineinfo f + sizeof_LocVar * sizelocvars f
                      + sizeof_pointer * sizeupvalues f) in
  src ← (if negb (source f =? NULL) then
           data ← dumpstringobj (source f);
           Ok (fprintf ",'source':'" [] ++ data
               ++ fprintf "','line':%d" [A_int (abslineinfo0 o)])
         else Ok []);
  ks ← (if negb (sizek f =? 0) then
          rs ← dumprefs (k f) (sizek f);
          Ok (fprintf ",'constants':[" [] ++ rs ++ fprintf "]" [])
        else Ok []);
  ps ← (if negb (sizep f =? 0) then
          rs ← dumpprotos f;
          Ok (fprintf ",'protos':[" [] ++ rs ++ fprintf "]" [])
        else Ok []);
  Ok (fprintf "{'type':'proto','cat':%d,'size':%d" [A_int (memcat (gch obj)); A_int (int size)]
      ++ src ++ ks ++ ps ++ fprintf "}" []).

Definition dumpupval (o : GCObject) (uv : UpVal) : result (list Token) :=
  obj ← (if iscollectable (uv_v uv)
         then gc ← gcvalue (uv_v uv); Ok (fprintf ",'object':" [] ++ dumpref gc)
         else Ok []);
  Ok (fprintf "{'type':'upvalue','cat':%d,'size':%d,'open':%s"
        [A_int (memcat (gch o)); A_int (int sizeof_UpVal);
         A_str (if upisopen uv then "true" else "false")]
      ++ obj ++ fprintf "}" []).

Definition dumpobj (o : ptr) : result (list Token) :=
  obj ← deref heap o;
  match gch_tt (gch obj) with
  | LUA_TSTRING => ts ← gco2ts obj; dumpstring obj ts
  | LUA_TTABLE => h ← gco2h obj; dumptable obj h
  | LUA_TFUNCTION => cl ← gco2cl obj; dumpclosure obj cl
  | LUA_TUSERDATA => u ← gco2u obj; Ok (dumpudata obj u)
  | LUA_TTHREAD => th ← gco2th obj; dumpthread o obj th
  | LUA_TBUFFER => b ← gco2buf obj; Ok (dumpbuffer obj b)
  | LUA_TPROTO => f ← gco2p obj; dumpproto o obj f
  | LUA_TUPVAL => uv ← gco2uv obj; dumpupval obj uv
  | _ => AssertFailed "0"
  end.

(** What [dumpgco] writes around the descriptor of the object at [gco]. *)
Definition dumpentry (gco : ptr) (descriptor : list Token) : list Token :=
  dumpref gco ++ fputc ":"%char ++ descriptor ++ fputc ","%char ++ newline.

(** The context of the visitor is what has been written to the file. *)
Definition dumpgco (context : list Token) (gco : ptr) : result (list Token) :=
  descriptor ← dumpobj gco;
  Ok (context ++ dumpentry gco descriptor).

(** One iteration of the loop over the memory categories; [categoryName] is
    the optional callback of the caller. *)
Definition dumpcategory (acct : Accounting) (categoryName : option (Z → string))
    (i : Z) : result (list Token) :=
  bytes ← index (memcatbytes acct) i;
  if negb (bytes =? 0) then
    match categoryName with
    | Some name =>
        Ok (fprintf "'%d':{'name':'%s', 'size':%d}," [A_int i; A_str (name i); A_int (int bytes)]
            ++ newline)
    | None =>
        Ok (fprintf "'%d':{'size':%d}," [A_int i; A_int (int bytes)] ++ newline)
    end
  else Ok [].

(** What [luaC_dump] writes after the objects. *)
Definition dumptrailer (acct : Accounting) (categoryName : option (Z → string))
    : result (list Token) :=
  reg ← gcvalue (registry g);
  cats ← emit_range 0 LUA_MEMORY_CATEGORIES (dumpcategory acct categoryName);
  Ok (fprintf "'0':{'type':'userdata','cat':0,'size':0}" [] ++ newline
      ++ fprintf "},'roots':{" [] ++ newline
      ++ fprintf "'mainthread':" [] ++ dumpref (mainthread g)
      ++ fprintf ",'registry':" [] ++ dumpref reg
      ++ fprintf "},'stats':{" [] ++ newline
      ++ fprintf "'size':%d," [A_int (int (totalbytes acct))] ++ newline
      ++ fprintf "'categories':{" [] ++ newline
      ++ cats
      ++ fprintf "'none':{}" [] ++ newline
      ++ fprintf "}" [] ++ newline
      ++ fprintf "}}" [] ++ newline).

Definition luaC_dump (acct : Accounting) (categoryName : option (Z → string))
    : result (list Token) :=
  first ← dumpgco (fprintf "{'objects':{" [] ++ newline) (mainthread g);
  objects ← luaM_visitgco g first dumpgco;
  trailer ← dumptrailer acct categoryName;
  Ok (objects ++ trailer).

End DumpObjects.

(** * Vocabulary for further properties of the validator *)

(** The link by which a member of a gray list points at the next one. *)
Definition gclistof (obj : GCObject) : option ptr :=
  match gch_tt (gch obj), body obj with
  | LUA_TTABLE, U_h h => Some (h_gclist h)
  | LUA_TFUNCTION, U_cl cl => Some (cl_gclist cl)
  | LUA_TTHREAD, U_th th => Some (th_gclist th)
  | LUA_TPROTO, U_p f => Some (p_gclist f)
  | _, _ => None
  end.

(** [onlist heap o x]: the object at [x] is on the list that starts at [o]
    and follows the [gclist] links. *)
Inductive onlist (heap : gmap Z GCObject) : ptr → ptr → Prop :=
  | onlist_head (o : ptr) : o ≠ NULL → onlist heap o o
  | onlist_next (o : ptr) (obj : GCObject) (next x : ptr) :
      o ≠ NULL → heap !! o = Some obj → gclistof obj = Some next →
      onlist heap next x → onlist heap o x.

(** The upvalue stored at an address. *)
Definition upvalat (heap : gmap Z GCObject) (uv : ptr) : option UpVal :=
  match heap !! uv with
  | Some (mkGCObject _ (U_uv u)) => Some u
  | _ => None
  end.

(** [onthreadlist heap o x]: the upvalue at [x] is on the list that starts at
    [o] and follows the [u.open.threadnext] links. *)
Inductive onthreadlist (heap : gmap Z GCObject) : ptr → ptr → Prop :=
  | onthreadlist_head (o : ptr) : o ≠ NULL → onthreadlist heap o o
  | onthreadlist_next (o : ptr) (u : UpVal) (x : ptr) :
      o ≠ NULL → upvalat heap o = Some u →
      onthreadlist heap (open_threadnext u) x → onthreadlist heap o x.

(** [onring heap head o x]: the upvalue at [x] is met when the
    [u.open.next] links are followed from [o] up to the sentinel at
    [head]. *)
Inductive onring (heap : gmap Z GCObject) (head : ptr) : ptr → ptr → Prop :=
  | onring_head (o : ptr) : o ≠ head → onring heap head o o
  | onring_next (o : ptr) (u : UpVal) (x : ptr) :
      o ≠ head → upvalat heap o = Some u →
      onring heap head (open_next u) x → onring heap head o x.

Section ValidatorVocabulary.
Context `{Headers}.
Variable heap : gmap Z GCObject.
Variable g : global_State.

(** What the validator requires of an open upvalue: it is an upvalue object,
    open, not black, and the upvalues before and after it in the ring point
    back at it. *)
Definition openupvalok (uv : ptr) : Prop :=
  ∃ obj u nx pv,
    heap !! uv = Some obj ∧ gch_tt (gch obj) = LUA_TUPVAL ∧ body obj = U_uv u
    ∧ upisopen u = true
    ∧ deref_uv heap g (open_next u) = Ok nx ∧ open_prev nx = uv
    ∧ deref_uv heap g (open_prev u) = Ok pv ∧ open_next pv = uv
    ∧ isblack obj = false.

(** The values that the validator reads in an object: the array part and
    the keys and values of the entries of a table, the upvalues of a
    closure, the constants of a prototype, the value of an upvalue. *)
Definition pairvalues (n : LuaNode) : list TValue :=
  if ttisnil (gval n) then [] else [gkey n; gval n].

Definition valuesof (obj : GCObject) : list TValue :=
  match gch_tt (gch obj), body obj with
  | LUA_TTABLE, U_h h =>
      take (Z.to_nat (sizearray h)) (array h) ++ flat_map pairvalues (hashnodes h)
  | LUA_TFUNCTION, U_cl cl =>
      take (Z.to_nat (nupvalues cl)) (if isC cl then c_upvals cl else l_uprefs cl)
  | LUA_TPROTO, U_p f => take (Z.to_nat (sizek f)) (k f)
  | LUA_TUPVAL, U_uv uv => [uv_v uv]
  | _, _ => []
  end.

End ValidatorVocabulary.

(** * Vocabulary for further properties of the dump *)

(** A token that may stand between the quotes of a JSON string: a byte that
    [verbatim] accepts. *)
Definition jsonsafe (t : Token) : bool :=
  match t with
  | Byte c => verbatim c
  | _ => false
  end.

(** Items each preceded by a comma, the first one only if [first] is
    unset; this is what a loop with a flag [first] writes. *)
Fixpoint joinfrom (first : bool) (items : list (list Token)) : list Token :=
  match items with
  | [] => []
  | item :: rest => (if first then [] else [Byte ","%char]) ++ item ++ joinfrom false rest
  end.

(** The flag [first] after the items have been written. *)
Definition stillfirst (first : bool) (items : list (list Token)) : bool :=
  match items with
  | [] => first
  | _ => false
  end.

(** The nodes of the hash part as an array: the shared [luaH_dummynode] for
    a table without hash part. *)
Definition nodearray (h : LuaTable) : list LuaNode :=
  match node h with
  | DummyNode => [luaH_dummynode]
  | Nodes ns => ns
  end.

Section DumpVocabulary.
Context `{Headers}.

(** What the dump writes for one side of an entry of a table. *)
Definition pairside (v : TValue) : list Token :=
  match gcref v with
  | t :: _ => dumpref t
  | [] => fprintf "null" []
  end.

(** The items that the dump writes for the entry [n] of a table: its key
    and its value, when the value is not nil and one of the two is
    collectable. *)
Definition pairitems (n : LuaNode) : list (list Token) :=
  if negb (ttisnil (gval n)) && (iscollectable (gkey n) || iscollectable (gval n))
  then [pairside (gkey n); pairside (gval n)]
  else [].

End DumpVocabulary.

(** The name of a kind of object in the dump. *)
Definition kindname (t : lua_Type) : string :=
  match t with
  | LUA_TSTRING => "string"
  | LUA_TTABLE => "table"
  | LUA_TFUNCTION => "function"
  | LUA_TUSERDATA => "userdata"
  | LUA_TTHREAD => "thread"
  | LUA_TBUFFER => "buffer"
  | LUA_TPROTO => "proto"
  | LUA_TUPVAL => "upvalue"
  | _ => ""
  end.

(** The opening of a descriptor of the dump. *)
Definition descriptorhead (kind : string) (cat size : Z) : list Token :=
  fprintf "{'type':'%s','cat':%d,'size':%d" [A_str kind; A_int cat; A_int size].

(** The size in bytes that both exporters compute for an object. *)
Definition objsize `{Headers} (obj : GCObject) : Z :=
  match body obj with
  | U_ts ts => sizestring (ts_len ts)
  | U_h h =>
      size_t (sizeof_LuaTable
              + (if has_nodes h then sizenode h * sizeof_LuaNode else 0)
              + sizearray h * sizeof_TValue)
  | U_cl cl =>
      if isC cl then sizeCclosure (nupvalues cl) else sizeLclosure (nupvalues cl)
  | U_u u => sizeudata (u_len u)
  | U_th th =>
      size_t (sizeof_lua_State + sizeof_TValue * stacksize th
              + sizeof_CallInfo * size_ci th)
  | U_buf b => sizebuffer (b_len b)
  | U_p f =>
      size_t (sizeof_Proto + sizeof_Instruction * sizecode f
              + sizeof_pointer * sizep f + sizeof_TValue * sizek f
              + sizelineinfo f + sizeof_LocVar * sizelocvars f
              + sizeof_pointer * sizeupvalues f)
  | U_uv _ => sizeof_UpVal
  end.

(** The entries of the objects [objs], whose descriptors are [descs]. *)
Definition dumpentries (objs : list ptr) (descs : list (list Token)) : list Token :=
  concat (zip_with dumpentry objs descs).

(** ** The stack of a thread in the dump *)

(** The collectable values among [data], the slots of a stack from the
    address [v] on, each with its address. *)
Fixpoint collectablefrom `{Headers} (v : StkId) (data : list TValue)
    : list (StkId * TValue) :=
  match data with
  | [] => []
  | slot :: rest =>
      (if iscollectable slot then [(v, slot)] else []) ++ collectablefrom (v + 1) rest
  end.

(** The collectable slots of a thread below its top. *)
Definition collectableslots `{Headers} (th : lua_State) : list (StkId * TValue) :=
  collectablefrom (stack th) (take (Z.to_nat (top th - stack th)) (slots th)).

(** [base_ci[j]] is the frame in which the dump names the slot [v]: the
    function slots of the frames from the second one up to [j] are not above
    [v], and [j] is the current frame or the function slot of the next frame
    is above [v]. *)
Definition frameof (th : lua_State) (v : StkId) (j : Z) : Prop :=
  0 ≤ j
  ∧ (∀ k, 0 < k ≤ j → k ≤ ci th ∧ ∃ c, base_ci th !! Z.to_nat k = Some c ∧ ci_func c ≤ v)
  ∧ (j < ci th → ∃ c, base_ci th !! Z.to_nat (j + 1) = Some c ∧ v < ci_func c).

(** What holds of the index [j] of [ci] before the slot [v] is named. *)
Definition frameinv (th : lua_State) (v : StkId) (j : Z) : Prop :=
  0 ≤ j
  ∧ ∀ k, 0 < k ≤ j → k ≤ ci th ∧ ∃ c, base_ci th !! Z.to_nat k = Some c ∧ ci_func c ≤ v.

(** ** A store that bypasses the write barrier *)

(** The table after a raw store of [v] into the slot [i] of its array part,
    as [setobj] does it without [luaC_barriert]. *)
Definition setarray (h : LuaTable) (i : Z) (v : TValue) : LuaTable :=
  {| lsizenode := lsizenode h; sizearray := sizearray h; lastfree := lastfree h;
     h_metatable := h_metatable h; array := <[Z.to_nat i := v]> (array h);
     node := node h; h_gclist := h_gclist h |}.

(** What lgc.h says of the macros that the validator uses: [isdead],
    [isblack], [iswhite] and [isgray] look at the header of the object, and
    [checkliveness] at the header of the object that the value refers
    to. *)
Definition headermacros `{Headers} (g : global_State) : Prop :=
  (∀ a b, gch a = gch b →
     isdead g a = isdead g b ∧ isblack a = isblack b
     ∧ iswhite a = iswhite b ∧ isgray a = isgray b)
  ∧ (∀ (heap : gmap Z GCObject) (o : ptr) a b v, heap !! o = Some a → gch b = gch a →
       checkliveness (<[o := b]> heap) g v = checkliveness heap g v).

(** ** Further small heaps *)

(** A gray list made of the table at 64 and of the thread at 16. *)
Definition graytable : LuaTable :=
  {| lsizenode := 0; sizearray := 0; lastfree := 0; h_metatable := NULL;
     array := []; node := DummyNode; h_gclist := 16 |}.

Definition grayheap : gmap Z GCObject :=
  <[64 := mkGCObject (gray_ LUA_TTABLE) (U_h graytable)]> baseheap.

Definition graystate : global_State :=
  {| currentwhite := 1; gcstate := 1; gray := 64; grayagain := NULL;
     weak := NULL; mainthread := 16; uvhead := uvsentinel; uvhead_addr := 8;
     mt := replicate 11 NULL; ttname := typenames; registry := objvalue LUA_TTABLE 48;
     getmemorysize := None; allgcopages := [32; 48; 64] |}.

(** A thread at 64 with one open upvalue, at 96, which is also the only
    member of the ring of open upvalues whose sentinel is at 8. *)
Definition upvalthread : lua_State :=
  {| top := 1; ci := 0; stack_last := 20; stack := 0;
     slots := replicate 25 nilvalue;
     base_ci := [mkCallInfo 1 0 10];
     stacksize := 25; size_ci := 1; gt := 32; openupval := 96;
     th_gclist := NULL; namecall := NULL |}.

Definition openupvalue : UpVal :=
  {| uv_v := nilvalue; upisopen := true; open_prev := 8; open_next := 8;
     open_threadnext := NULL |}.

Definition upvalheap : gmap Z GCObject :=
  <[64 := mkGCObject (gray_ LUA_TTHREAD) (U_th upvalthread)]>
  (<[96 := mkGCObject (gray_ LUA_TUPVAL) (U_uv openupvalue)]> baseheap).

Definition ringstate : global_State :=
  {| currentwhite := 1; gcstate := 1; gray := NULL; grayagain := NULL;
     weak := NULL; mainthread := 16;
     uvhead := {| uv_v := nilvalue; upisopen := true; open_prev := 96; open_next := 96;
                  open_threadnext := NULL |};
     uvhead_addr := 8;
     mt := replicate 11 NULL; ttname := typenames; registry := objvalue LUA_TTABLE 48;
     getmemorysize := None; allgcopages := [32; 48; 64; 96] |}.

(** A Lua closure at 64 with one upvalue, the string at 80; its prototype,
    at 112, is named by the string at 120 and has the constant [true]. *)
Definition luaproto : Proto :=
  {| nups := 1; k := [truevalue]; p := []; execdata := NULL; locvars := []; upvalues := [];
     source := NULL; debugname := 120; p_gclist := NULL; sizecode := 2; sizep := 0;
     sizelocvars := 0; sizeupvalues := 0; sizek := 1; sizelineinfo := 0;
     linedefined := 3 |}.

Definition luaclosure : Closure :=
  {| isC := false; nupvalues := 1; cl_gclist := NULL; env := 32; c_debugname := None;
     c_upvals := []; l_p := 112; l_uprefs := [objvalue LUA_TSTRING 80] |}.

Definition closureheap : gmap Z GCObject :=
  <[64 := mkGCObject (gray_ LUA_TFUNCTION) (U_cl luaclosure)]>
  (<[80 := stringobj (white LUA_TSTRING) "s"]>
  (<[112 := mkGCObject (gray_ LUA_TPROTO) (U_p luaproto)]>
  (<[120 := stringobj (gray_ LUA_TSTRING) "main"]> baseheap))).

(** A state in which the strings have the table at 32 as their metatable. *)
Definition mtstate : global_State :=
  {| currentwhite := 1; gcstate := 1; gray := NULL; grayagain := NULL;
     weak := NULL; mainthread := 16; uvhead := uvsentinel; uvhead_addr := 8;
     mt := <[5%nat := 32]> (replicate 11 NULL); ttname := typenames;
     registry := objvalue LUA_TTABLE 48;
     getmemorysize := None; allgcopages := [32; 48] |}.

(** ** What the examples take for the macros of the second group

    [isLua(ci)] is [ttisfunction(ci->func) && !clvalue(ci->func)->isC];
    the examples have no line information, their frames are at the first
    instruction, and the local variable [locvars[i]] is live from there on
    in the register [i]. *)
Definition luau_isLua (heap : gmap Z GCObject) (th : lua_State) (c : CallInfo)
    : result bool :=
  fn ← index (slots th) (ci_func c - stack th);
  if ttisfunction fn then
    gc ← gcvalue fn;
    co ← deref heap gc;
    cl ← gco2cl co;
    Ok (negb (isC cl))
  else Ok false.

Definition luau64debug : DebugHeaders := {|
  isLua := luau_isLua;
  pcRel_savedpc := fun _ _ _ => 0;
  luaF_findlocal := fun f n _ => if n <? 0 then None else locvars f !! Z.to_nat n;
  abslineinfo0 := fun _ => 0;
  LUA_MEMORY_CATEGORIES := 256
|}.

(** A thread at 136 that runs the closure at 64: the function is in the
    first slot, its first register holds the string at 80 and its second
    one a number. *)
Definition runningthread : lua_State :=
  {| top := 3; ci := 0; stack_last := 20; stack := 0;
     slots := objvalue LUA_TFUNCTION 64 :: objvalue LUA_TSTRING 80
              :: mkTValue (Vn 0) LUA_TNUMBER :: replicate 22 nilvalue;
     base_ci := [mkCallInfo 1 0 10];
     stacksize := 25; size_ci := 1; gt := 32; openupval := NULL;
     th_gclist := NULL; namecall := NULL |}.

Definition runningheap : gmap Z GCObject :=
  <[136 := mkGCObject (gray_ LUA_TTHREAD) (U_th runningthread)]> closureheap.

(** A C closure at 64 whose only upvalue is the userdata at 80. *)
Definition cclosure : Closure :=
  {| isC := true; nupvalues := 1; cl_gclist := NULL; env := 32;
     c_debugname := Some "print"; c_upvals := [objvalue LUA_TUSERDATA 80];
     l_p := NULL; l_uprefs := [] |}.

Definition cclosureheap : gmap Z GCObject :=
  <[64 := mkGCObject (gray_ LUA_TFUNCTION) (U_cl cclosure)]>
  (<[80 := mkGCObject (white LUA_TUSERDATA) (U_u (mkUdata 0 8 NULL))]> baseheap).

(** A heap that the validator accepts: the black table at 64 holds the gray
    string at 80 in its array; the string at 88 is white. *)
Definition barrierheap : gmap Z GCObject :=
  <[64 := tablewith (black LUA_TTABLE) (objvalue LUA_TSTRING 80)]>
  (<[80 := stringobj (gray_ LUA_TSTRING) "s"]>
  (<[88 := stringobj (white LUA_TSTRING) "w"]> baseheap)).

(** * Properties *)

(** ** The [result] monad and the loops *)

Lemma bind_Ok {A B : Type} (m : result A) (f : A → result B) (b : B) :
  m ≫= f = Ok b ↔ ∃ a, m = Ok a ∧ f a = Ok b.
Proof.
  split.
  - destruct m; simpl; try discriminate. eauto.
  - intros (a & -> & Hf). exact Hf.
Qed.

Lemma Ok_inj {A : Type} (a b : A) : Ok a = Ok b → a = b.
Proof. congruence. Qed.

Lemma LUAU_ASSERT_Ok (c : bool) (w : string) (u : unit) :
  LUAU_ASSERT c w = Ok u ↔ c = true.
Proof. destruct c, u; simpl; split; congruence. Qed.

Lemma of_option_Ok {A : Type} (o : option A) (a : A) :
  of_option o = Ok a ↔ o = Some a.
Proof. destruct o; simpl; split; congruence. Qed.

Lemma index_Ok {A : Type} (data : list A) (i : Z) (a : A) :
  index data i = Ok a ↔ 0 ≤ i ∧ data !! Z.to_nat i = Some a.
Proof.
  unfold index. destruct (Z.ltb_spec i 0).
  - split; [discriminate | lia].
  - rewrite of_option_Ok. intuition.
Qed.

Lemma deref_Ok (heap : gmap Z GCObject) (o : ptr) (obj : GCObject) :
  deref heap o = Ok obj ↔ o ≠ NULL ∧ heap !! o = Some obj.
Proof.
  unfold deref. destruct (Z.eqb_spec o NULL).
  - split; [discriminate | tauto].
  - rewrite of_option_Ok. tauto.
Qed.

(** Inversion of the successful computations among the hypotheses. *)
Ltac ok_inv :=
  repeat match goal with
  | H : _ ≫= _ = Ok _ |- _ =>
      let a := fresh "a" in let Ha := fresh "Ha" in
      apply bind_Ok in H as (a & Ha & H); cbv beta in H
  | H : LUAU_ASSERT _ _ = Ok _ |- _ => apply LUAU_ASSERT_Ok in H
  | H : deref _ _ = Ok _ |- _ =>
      let Hn := fresh "Hnull" in apply deref_Ok in H as [Hn H]
  | H : index _ _ = Ok _ |- _ =>
      let Hn := fresh "Hpos" in apply index_Ok in H as [Hn H]
  | H : Ok _ = Ok _ |- _ => injection H as H
  | u : unit |- _ => destruct u
  end.

Lemma for_loop_Ok (n : nat) (i : Z) (body : Z → result unit) :
  for_loop n i body = Ok tt ↔ ∀ j, i ≤ j < i + Z.of_nat n → body j = Ok tt.
Proof.
  revert i. induction n as [|n IH]; intros i.
  - simpl. split; [intros _ j Hj; lia | reflexivity].
  - cbn [for_loop]. rewrite bind_Ok. split.
    + intros ([] & Hb & Hrest) j Hj.
      destruct (Z.eq_dec j i) as [->|Hne]; [exact Hb|].
      apply (proj1 (IH (i + 1)) Hrest). lia.
    + intros Hall. exists tt. split.
      * apply Hall. lia.
      * apply IH. intros j Hj. apply Hall. lia.
Qed.

Lemma for_range_Ok (lo hi : Z) (body : Z → result unit) :
  for_range lo hi body = Ok tt ↔ ∀ j, lo ≤ j < hi → body j = Ok tt.
Proof.
  unfold for_range. rewrite for_loop_Ok. split; intros Hall j Hj; apply Hall; lia.
Qed.

Lemma take_elem_index {A : Type} (data : list A) (size : Z) (v : A) :
  v ∈ take (Z.to_nat size) data →
  ∃ i, 0 ≤ i < size ∧ index data i = Ok v.
Proof.
  intros Hin. apply list_elem_of_lookup in Hin as [n Hn].
  apply lookup_take_Some in Hn as [Hn Hlt].
  exists (Z.of_nat n). split; [lia|].
  apply index_Ok. rewrite Nat2Z.id. split; [lia | exact Hn].
Qed.

Lemma for_range_index {A : Type} (data : list A) (size : Z) (F : A → result unit) :
  for_range 0 size (fun i => v ← index data i; F v) = Ok tt →
  ∀ v, v ∈ take (Z.to_nat size) data → F v = Ok tt.
Proof.
  intros Hloop v Hin.
  destruct (take_elem_index _ _ _ Hin) as (i & Hi & Hidx).
  pose proof (proj1 (for_range_Ok _ _ _) Hloop i Hi) as Hb. simpl in Hb.
  rewrite Hidx in Hb. exact Hb.
Qed.

Lemma hashnodes_node_at (h : LuaTable) (n : LuaNode) :
  n ∈ hashnodes h → ∃ i, 0 ≤ i < sizenode h ∧ node_at h i = Ok n.
Proof.
  unfold hashnodes, node_at. destruct (node h) as [|ns]; intros Hin.
  - apply list_elem_of_lookup in Hin as [j Hj].
    apply lookup_take_Some in Hj as [Hj Hlt].
    destruct j as [|j]; [|destruct j; discriminate].
    simpl in Hj. injection Hj as <-. exists 0. split; [lia | reflexivity].
  - apply take_elem_index in Hin. exact Hin.
Qed.

(** ** The validator *)

Section ValidatorFacts.
Context `{Headers}.
Variable heap : gmap Z GCObject.
Variable g : global_State.

Lemma validateobjref_Ok (f t : ptr) :
  validateobjref heap g f t = Ok tt ↔
  ∃ to, t ≠ NULL ∧ heap !! t = Some to ∧ isdead g to = false
        ∧ (keepinvariant g = true →
           ∃ fo, f ≠ NULL ∧ heap !! f = Some fo ∧ isblack fo && iswhite to = false).
Proof.
  unfold validateobjref. split.
  - intros Hv. ok_inv. apply negb_true_iff in Ha0.
    exists a. repeat split; try assumption.
    intros Hk. rewrite Hk in Hv. ok_inv. apply negb_true_iff in Hv. eauto.
  - intros (to & Ht & Hto & Hdead & Hk).
    apply bind_Ok. exists to. split; [apply deref_Ok; auto|].
    apply bind_Ok. exists tt. split; [apply LUAU_ASSERT_Ok; rewrite Hdead; reflexivity|].
    destruct (keepinvariant g); [|reflexivity].
    destruct (Hk eq_refl) as (fo & Hf & Hfo & Hc).
    apply bind_Ok. exists fo. split; [apply deref_Ok; auto|].
    apply LUAU_ASSERT_Ok. rewrite Hc. reflexivity.
Qed.

Lemma validateref_gcref (f : ptr) (v : TValue) :
  validateref heap g f v = Ok tt →
  ∀ t, t ∈ gcref v → validateobjref heap g f t = Ok tt.
Proof.
  unfold validateref, gcref, gcvalue. intros Hv t Ht.
  destruct (iscollectable v); [|inversion Ht].
  destruct (value v); try (inversion Ht; fail).
  apply list_elem_of_singleton in Ht as ->.
  ok_inv. subst. exact Hv.
Qed.

Lemma validaterefs_gcrefs (f : ptr) (data : list TValue) (size : Z) :
  for_range 0 size (fun i => v ← index data i; validateref heap g f v) = Ok tt →
  ∀ t, t ∈ gcrefs data size → validateobjref heap g f t = Ok tt.
Proof.
  intros Hloop t Ht. unfold gcrefs in Ht.
  apply list_elem_of_In, in_flat_map in Ht as (v & Hv & Ht).
  apply list_elem_of_In in Hv, Ht.
  eapply validateref_gcref; [|exact Ht].
  exact (for_range_index _ _ _ Hloop v Hv).
Qed.

Lemma validatenonnull (f x : ptr) :
  (if negb (x =? NULL) then validateobjref heap g f x else Ok tt) = Ok tt →
  ∀ t, t ∈ nonnull x → validateobjref heap g f t = Ok tt.
Proof.
  unfold nonnull. intros Hv t Ht. destruct (x =? NULL); simpl in *.
  - inversion Ht.
  - apply list_elem_of_singleton in Ht as ->. exact Hv.
Qed.

Lemma validatenonnulls {A : Type} (f : ptr) (data : list A) (size : Z) (get : A → ptr) :
  for_range 0 size (fun i =>
    x ← index data i;
    if negb (get x =? NULL) then validateobjref heap g f (get x) else Ok tt) = Ok tt →
  ∀ t, t ∈ flat_map (fun x => nonnull (get x)) (take (Z.to_nat size) data) →
       validateobjref heap g f t = Ok tt.
Proof.
  intros Hloop t Ht.
  apply list_elem_of_In, in_flat_map in Ht as (x & Hx & Ht).
  apply list_elem_of_In in Hx, Ht.
  eapply validatenonnull; [|exact Ht].
  exact (for_range_index _ _ (fun x =>
           if negb (get x =? NULL) then validateobjref heap g f (get x) else Ok tt)
           Hloop x Hx).
Qed.

Lemma validatenode_pairref (o : ptr) (h : LuaTable) (i : Z) (n : LuaNode) :
  node_at h i = Ok n →
  validatenode heap g o h i = Ok tt →
  ∀ t, t ∈ pairref false false n → validateobjref heap g o t = Ok tt.
Proof.
  unfold validatenode, pairref. intros Hn Hv t Ht.
  rewrite Hn in Hv. simpl in Hv. ok_inv.
  destruct (ttisnil (gval n)); simpl in *; [inversion Ht|].
  ok_inv. apply elem_of_app in Ht as [Ht|Ht];
    (eapply validateref_gcref; [|exact Ht]; assumption).
Qed.

Lemma validatetable_fields (o : ptr) (h : LuaTable) :
  validatetable heap g o h = Ok tt →
  ∀ t, t ∈ nonnull (h_metatable h) ++ gcrefs (array h) (sizearray h)
           ++ flat_map (pairref false false) (hashnodes h) →
       validateobjref heap g o t = Ok tt.
Proof.
  unfold validatetable. intros Hv t Ht. ok_inv.
  rewrite !elem_of_app in Ht. destruct Ht as [Ht|[Ht|Ht]].
  - eapply validatenonnull; eauto.
  - eapply validaterefs_gcrefs; eauto.
  - apply list_elem_of_In, in_flat_map in Ht as (n & Hn & Ht).
    apply list_elem_of_In in Hn, Ht.
    destruct (hashnodes_node_at _ _ Hn) as (i & Hi & Hnode).
    eapply validatenode_pairref; eauto.
    exact (proj1 (for_range_Ok _ _ _) Hv i Hi).
Qed.

Lemma validateclosure_fields (o : ptr) (cl : Closure) :
  validateclosure heap g o cl = Ok tt →
  ∀ t, t ∈ env cl :: (if isC cl then gcrefs (c_upvals cl) (nupvalues cl)
                      else l_p cl :: gcrefs (l_uprefs cl) (nupvalues cl)) →
       validateobjref heap g o t = Ok tt.
Proof.
  unfold validateclosure. intros Hv t Ht. ok_inv.
  apply elem_of_cons in Ht as [->|Ht]; [assumption|].
  destruct (isC cl).
  - eapply validaterefs_gcrefs; eauto.
  - ok_inv. apply elem_of_cons in Ht as [->|Ht]; [assumption|].
    eapply validaterefs_gcrefs; eauto.
Qed.

Lemma validatestack_fields (o : ptr) (l : lua_State) :
  validatestack heap g o l = Ok tt →
  ∀ t, t ∈ gt l :: nonnull (namecall l) → validateobjref heap g o t = Ok tt.
Proof.
  unfold validatestack. intros Hv t Ht. ok_inv.
  apply elem_of_cons in Ht as [->|Ht]; [assumption|].
  eapply validatenonnull; eauto.
Qed.

Lemma validateproto_fields (o : ptr) (f : Proto) :
  validateproto heap g o f = Ok tt →
  ∀ t, t ∈ nonnull (source f) ++ nonnull (debugname f) ++ gcrefs (k f) (sizek f)
           ++ flat_map nonnull (take (Z.to_nat (sizeupvalues f)) (upvalues f))
           ++ flat_map nonnull (take (Z.to_nat (sizep f)) (p f))
           ++ flat_map (fun lv => nonnull (varname lv))
                (take (Z.to_nat (sizelocvars f)) (locvars f)) →
       validateobjref heap g o t = Ok tt.
Proof.
  unfold validateproto. intros Hv t Ht. ok_inv.
  rewrite !elem_of_app in Ht. destruct Ht as [Ht|[Ht|[Ht|[Ht|[Ht|Ht]]]]].
  - eapply validatenonnull; [|exact Ht]; assumption.
  - eapply validatenonnull; [|exact Ht]; assumption.
  - eapply validaterefs_gcrefs; eauto.
  - eapply (validatenonnulls o (upvalues f) (sizeupvalues f) (fun x => x)); eauto.
  - eapply (validatenonnulls o (p f) (sizep f) (fun x => x)); eauto.
  - eapply (validatenonnulls o (locvars f) (sizelocvars f) varname); eauto.
Qed.

(** A successful visit of a live object has validated each of its strong
    fields. *)
Lemma validateobj_fields (o : ptr) (obj : GCObject) :
  heap !! o = Some obj →
  isdead g obj = false →
  validateobj heap g o = Ok tt →
  ∀ t, t ∈ strongfields obj → validateobjref heap g o t = Ok tt.
Proof.
  unfold validateobj, strongfields. intros Hobj Hlive Hv t Ht.
  ok_inv. rewrite Hobj in Ha. injection Ha as <-. rewrite Hlive in Hv.
  destruct (gch_tt (gch obj)); try (inversion Ht; fail);
    destruct (body obj) eqn:Hbody; try (inversion Ht; fail);
    unfold gco2h, gco2cl, gco2u, gco2th, gco2p, gco2uv in Hv;
    rewrite Hbody in Hv; simpl in Hv.
  - eapply validatetable_fields; eauto.
  - eapply validateclosure_fields; eauto.
  - eapply validatenonnull; eauto.
  - eapply validatestack_fields; eauto.
  - eapply validateproto_fields; eauto.
  - eapply validateref_gcref; eauto.
Qed.

End ValidatorFacts.

(** *** The walks along pointer chains

    The walks of the validator stop with [Diverges] when they have made more
    steps than the heap has objects.  Any other result is the result for
    every larger bound as well. *)

Section Walks.
Context `{Headers}.
Variable heap : gmap Z GCObject.
Variable g : global_State.

Lemma validatethreadupvals_fuel (n m : nat) (uv : ptr) (r : result unit) :
  validatethreadupvals heap g n uv = r → r ≠ Diverges → (n ≤ m)%nat →
  validatethreadupvals heap g m uv = r.
Proof.
  revert m uv. induction n as [|n IH]; intros m uv Hr Hd Hle.
  - destruct m; simpl in *; destruct (uv =? NULL); congruence.
  - destruct m as [|m]; [lia|]. simpl in *.
    destruct (uv =? NULL); [exact Hr|].
    destruct (validateopenupval heap g uv) as [u| | |]; simpl in *; try exact Hr.
    apply IH; [exact Hr | exact Hd | lia].
Qed.

Lemma validateuvring_fuel (n m : nat) (uv : ptr) (r : result unit) :
  validateuvring heap g n uv = r → r ≠ Diverges → (n ≤ m)%nat →
  validateuvring heap g m uv = r.
Proof.
  revert m uv. induction n as [|n IH]; intros m uv Hr Hd Hle.
  - destruct m; simpl in *; destruct (uv =? uvhead_addr g); congruence.
  - destruct m as [|m]; [lia|]. simpl in *.
    destruct (uv =? uvhead_addr g); [exact Hr|].
    destruct (validateopenupval heap g uv) as [u| | |]; simpl in *; try exact Hr.
    apply IH; [exact Hr | exact Hd | lia].
Qed.

Lemma validategraylist_walk_fuel (n m : nat) (o : ptr) (r : result unit) :
  validategraylist_walk heap n o = r → r ≠ Diverges → (n ≤ m)%nat →
  validategraylist_walk heap m o = r.
Proof.
  revert m o. induction n as [|n IH]; intros m o Hr Hd Hle.
  - destruct m; simpl in *; destruct (o =? NULL); congruence.
  - destruct m as [|m]; [lia|]. simpl in *.
    destruct (o =? NULL); [exact Hr|].
    destruct (deref heap o) as [obj| | |]; simpl in *; try exact Hr.
    destruct (LUAU_ASSERT (isgray obj) "isgray(o)") as [[]| | |]; simpl in *;
      try exact Hr.
    destruct (gch_tt (gch obj)); try exact Hr.
    + destruct (gco2h obj) as [h| | |]; simpl in *; try exact Hr.
      apply IH; [exact Hr | exact Hd | lia].
    + destruct (gco2cl obj) as [cl| | |]; simpl in *; try exact Hr.
      apply IH; [exact Hr | exact Hd | lia].
    + destruct (gco2th obj) as [th| | |]; simpl in *; try exact Hr.
      apply IH; [exact Hr | exact Hd | lia].
    + destruct (gco2p obj) as [f| | |]; simpl in *; try exact Hr.
      apply IH; [exact Hr | exact Hd | lia].
Qed.

End Walks.

(** The objects that a pass visits: the main thread, then every object of
    the pages. *)
Lemma visit_stuck {C : Type} (visitor : C → ptr → result C) (pages : list ptr)
    (acc : result C) (c : C) :
  foldl (fun acc gco => c ← acc; visitor c gco) acc pages = Ok c →
  ∃ c0, acc = Ok c0.
Proof.
  revert acc. induction pages as [|o pages IH]; intros acc Hf; simpl in Hf.
  - eauto.
  - apply IH in Hf as [c1 Hc1]. destruct acc; try discriminate. eauto.
Qed.

Lemma luaM_visitgco_cons {C : Type} (g : global_State) (visitor : C → ptr → result C)
    (o : ptr) (pages : list ptr) (c0 c : C) :
  foldl (fun acc gco => c ← acc; visitor c gco) (Ok c0) (o :: pages) = Ok c ↔
  ∃ c1, visitor c0 o = Ok c1
        ∧ foldl (fun acc gco => c ← acc; visitor c gco) (Ok c1) pages = Ok c.
Proof.
  simpl. split.
  - intros Hf. destruct (visit_stuck _ _ _ _ Hf) as [c1 Hc1].
    exists c1. split; [exact Hc1 | rewrite <- Hc1; exact Hf].
  - intros (c1 & Hv & Hf). rewrite Hv. exact Hf.
Qed.

Section PassFacts.
Context `{Headers}.
Variable heap : gmap Z GCObject.
Variable g : global_State.

Lemma validate_pages (pages : list ptr) :
  foldl (fun acc gco => c ← acc; validategco heap g c gco) (Ok tt) pages = Ok tt →
  ∀ o, o ∈ pages → validateobj heap g o = Ok tt.
Proof.
  induction pages as [|o' pages IH]; intros Hf o Ho.
  - inversion Ho.
  - apply (luaM_visitgco_cons g) in Hf as ([] & Hv & Hf).
    apply elem_of_cons in Ho as [->|Ho]; [exact Hv | exact (IH Hf o Ho)].
Qed.

Lemma luaC_validate_visits (o : ptr) :
  luaC_validate heap g = Ok tt →
  o ∈ mainthread g :: allgcopages g →
  validateobj heap g o = Ok tt.
Proof.
  unfold luaC_validate, luaM_visitgco. intros Hv Ho. ok_inv.
  apply elem_of_cons in Ho as [->|Ho]; [assumption|].
  eapply validate_pages; eauto.
Qed.

End PassFacts.

(** C1, as the validator has it.  In a pass made while the collector keeps
    its invariant, every reference that the validator checks with
    [validateobjref] from an object [f] to an object [t] satisfies "not ([f]
    black and [t] white)": this holds of each single call of [validateobjref]
    that returns, and of every strong field, the slots of the stacks of
    threads apart, of every live object visited by a pass of [luaC_validate]
    that returns.  Conversely the check of a reference from a black object to
    a white one is a failed assertion, the one on the colours unless the
    target is dead; so the visit of a live black object with such a strong
    field does not return, and neither does a pass that visits it: the pass
    stops at a failed assertion, unless it reads outside of the heap or walks
    round a cyclic list before.  When the collector does not keep the
    invariant, [validateobjref] only asserts that the target is not dead. *)
Theorem validator_tricolor `{Headers} (heap : gmap Z GCObject) (g : global_State) :
  (∀ f t, keepinvariant g = true → validateobjref heap g f t = Ok tt →
     ∃ fo to, heap !! f = Some fo ∧ heap !! t = Some to
              ∧ ¬ (isblack fo = true ∧ iswhite to = true))
  ∧ (keepinvariant g = true → luaC_validate heap g = Ok tt →
     ∀ o obj t, o ∈ mainthread g :: allgcopages g → heap !! o = Some obj →
       isdead g obj = false → t ∈ strongfields obj →
       ∃ to, heap !! t = Some to ∧ isdead g to = false
             ∧ ¬ (isblack obj = true ∧ iswhite to = true))
  ∧ (∀ f t fo to, keepinvariant g = true → f ≠ NULL → t ≠ NULL →
       heap !! f = Some fo → heap !! t = Some to →
       isblack fo = true → iswhite to = true →
       validateobjref heap g f t
       = AssertFailed (if isdead g to then "!isdead(g, t)"
                       else "!(isblack(f) && iswhite(t))"))
  ∧ (∀ o obj t to, keepinvariant g = true →
       o ∈ mainthread g :: allgcopages g → heap !! o = Some obj →
       isdead g obj = false → t ∈ strongfields obj → heap !! t = Some to →
       isblack obj = true → iswhite to = true →
       validateobj heap g o ≠ Ok tt
       ∧ luaC_validate heap g ≠ Ok tt
       ∧ ((∃ what, luaC_validate heap g = AssertFailed what)
          ∨ luaC_validate heap g = Fault ∨ luaC_validate heap g = Diverges))
  ∧ (∀ f t, keepinvariant g = false →
       validateobjref heap g f t
       = (to ← deref heap t; LUAU_ASSERT (negb (isdead g to)) "!isdead(g, t)")).
Proof.
  assert (Hpass : keepinvariant g = true → luaC_validate heap g = Ok tt →
     ∀ o obj t, o ∈ mainthread g :: allgcopages g → heap !! o = Some obj →
       isdead g obj = false → t ∈ strongfields obj →
       ∃ to, heap !! t = Some to ∧ isdead g to = false
             ∧ ¬ (isblack obj = true ∧ iswhite to = true)).
  { intros Hk Hv o obj t Ho Hobj Hlive Ht.
    pose proof (luaC_validate_visits heap g o Hv Ho) as Hvo.
    pose proof (validateobj_fields heap g o obj Hobj Hlive Hvo t Ht) as Hr.
    apply validateobjref_Ok in Hr as (to & _ & Hto & Hd & Hc).
    destruct (Hc Hk) as (fo & _ & Hfo & Hbw).
    rewrite Hobj in Hfo. injection Hfo as <-.
    exists to. repeat split; try assumption.
    intros [Hb Hw]. rewrite Hb, Hw in Hbw. discriminate. }
  split; [|split; [exact Hpass|split; [|split]]].
  - intros f t Hk Hv. apply validateobjref_Ok in Hv as (to & _ & Hto & _ & Hc).
    destruct (Hc Hk) as (fo & _ & Hfo & Hbw).
    exists fo, to. repeat split; try assumption.
    intros [Hb Hw]. rewrite Hb, Hw in Hbw. discriminate.
  - intros f t fo to Hk Hf Ht Hfo Hto Hb Hw.
    unfold validateobjref, deref.
    destruct (Z.eqb_spec t NULL) as [|_]; [contradiction|].
    destruct (Z.eqb_spec f NULL) as [|_]; [contradiction|].
    rewrite Hto, Hk. simpl. destruct (isdead g to); simpl; [reflexivity|].
    rewrite Hfo. simpl. rewrite Hb, Hw. reflexivity.
  - intros o obj t to Hk Ho Hobj Hlive Ht Hto Hb Hw.
    assert (Hpassno : luaC_validate heap g ≠ Ok tt).
    { intros Hv.
      destruct (Hpass Hk Hv o obj t Ho Hobj Hlive Ht) as (to' & Hto' & _ & Hn).
      rewrite Hto in Hto'. injection Hto' as <-. apply Hn. split; assumption. }
    split; [|split; [exact Hpassno|]].
    + intros Hvo.
      pose proof (validateobj_fields heap g o obj Hobj Hlive Hvo t Ht) as Hr.
      apply validateobjref_Ok in Hr as (to' & _ & Hto' & _ & Hc).
      destruct (Hc Hk) as (fo & _ & Hfo & Hbw).
      assert (to' = to) as -> by congruence. assert (fo = obj) as -> by congruence.
      rewrite Hb, Hw in Hbw. discriminate.
    + destruct (luaC_validate heap g) as [[]|what| |]; [contradiction Hpassno; reflexivity|..].
      * left. eauto.
      * right. left. reflexivity.
      * right. right. reflexivity.
  - intros f t Hk. unfold validateobjref. rewrite Hk.
    destruct (deref heap t) as [to| | |]; try reflexivity. simpl.
    destruct (LUAU_ASSERT (negb (isdead g to)) "!isdead(g, t)") as [[]| | |]; reflexivity.
Qed.

(** On the heap with a black table whose array holds a white string the pass
    stops at the colour assertion; after the barrier has made the table gray
    the pass returns, and the reference is one that it has checked. *)
Lemma validator_tricolor_witness :
  luaC_validate (H := luau64) badheap (state 1 [16; 32; 48; 64; 80])
    = AssertFailed "!(isblack(f) && iswhite(t))"
  ∧ luaC_validate (H := luau64) badheap (state 1 [16; 32; 48; 64; 80]) ≠ Ok tt
  ∧ validateobjref (H := luau64) badheap (state 1 []) 64 80
    = AssertFailed "!(isblack(f) && iswhite(t))"
  ∧ (∃ to, goodheap !! 80 = Some to ∧ isdead (Headers := luau64) (state 1 []) to = false
           ∧ ¬ (isblack (Headers := luau64)
                  (tablewith (gray_ LUA_TTABLE) (objvalue LUA_TSTRING 80)) = true
                ∧ iswhite (Headers := luau64) to = true)).
Proof.
  pose proof (validator_tricolor (H := luau64) badheap (state 1 [16; 32; 48; 64; 80]))
    as (_ & _ & Hdetect & Hbad & _).
  pose proof (validator_tricolor (H := luau64) goodheap (state 1 [16; 32; 48; 64; 80]))
    as (_ & Hgood & _).
  split; [vm_compute; reflexivity|]. split; [|split].
  - refine (proj1 (proj2 (Hbad 64 (tablewith (black LUA_TTABLE) (objvalue LUA_TSTRING 80))
                            80 (stringobj (white LUA_TSTRING) "s") _ _ _ _ _ _ _ _)));
      [reflexivity | apply list_elem_of_In; simpl; tauto | reflexivity | reflexivity
      | apply list_elem_of_In; vm_compute; tauto | reflexivity | reflexivity | reflexivity].
  - exact (Hdetect 64 80 (tablewith (black LUA_TTABLE) (objvalue LUA_TSTRING 80))
             (stringobj (white LUA_TSTRING) "s") eq_refl ltac:(discriminate)
             ltac:(discriminate) eq_refl eq_refl eq_refl eq_refl).
  - apply (Hgood eq_refl) with (o := 64);
      [vm_compute; reflexivity | apply list_elem_of_In; simpl; tauto | reflexivity
      | reflexivity | apply list_elem_of_In; vm_compute; tauto].
Defined.

(** While the collector keeps its invariant, a pass accepts the heap in
    which a slot of the stack of the black thread at 64 holds the white string
    at 80: the slots of a stack are checked for liveness only. *)
Lemma validator_accepts_white_stack_slot :
  keepinvariant (Headers := luau64) (state 1 [32; 48; 64; 80]) = true
  ∧ stackheap !! 64 = Some (mkGCObject (black LUA_TTHREAD) (U_th blackthread))
  ∧ isblack (Headers := luau64) (mkGCObject (black LUA_TTHREAD) (U_th blackthread)) = true
  ∧ slots blackthread !! 0%nat = Some (objvalue LUA_TSTRING 80)
  ∧ stackheap !! 80 = Some (stringobj (white LUA_TSTRING) "s")
  ∧ iswhite (Headers := luau64) (stringobj (white LUA_TSTRING) "s") = true
  ∧ luaC_validate (H := luau64) stackheap (state 1 [32; 48; 64; 80]) = Ok tt.
Proof. repeat split; vm_compute; reflexivity. Qed.

(** A pass need not reach the assertion: on the heap in which the black
    table at 64 holds the white string at 80 and the gray list is the table
    at 96, whose [gclist] is the table itself, [validategraylist] never
    leaves its loop. *)
Example validator_loops_before_assertion :
  keepinvariant (Headers := luau64) loopstate = true
  ∧ loopheap !! 64 = Some (tablewith (black LUA_TTABLE) (objvalue LUA_TSTRING 80))
  ∧ 80 ∈ strongfields (H := luau64) (tablewith (black LUA_TTABLE) (objvalue LUA_TSTRING 80))
  ∧ loopheap !! 80 = Some (stringobj (white LUA_TSTRING) "s")
  ∧ gray loopstate = 96 ∧ gclistof (mkGCObject (gray_ LUA_TTABLE) (U_h selflinked)) = Some 96
  ∧ luaC_validate (H := luau64) loopheap loopstate = Diverges.
Proof.
  repeat split; try (vm_compute; reflexivity).
  apply list_elem_of_In. vm_compute. tauto.
Qed.

(** C7.  A dead object is legal only while the collector is in its sweep
    phase: the visit of a dead object returns when [g->gcstate] is
    [GCSsweep] and ends in a failed assertion otherwise, and in both cases
    nothing of the object beyond its header is looked at.  The visit of a
    live object is the check of its kind, chosen by its tag, and a tag that is
    none of the eight kinds is a failed assertion. *)
Theorem validateobj_dead_or_live `{Headers} (heap : gmap Z GCObject) (g : global_State)
    (o : ptr) (obj : GCObject) :
  o ≠ NULL → heap !! o = Some obj →
  (isdead g obj = true →
     (gcstate g = GCSsweep → validateobj heap g o = Ok tt)
     ∧ (gcstate g ≠ GCSsweep →
        validateobj heap g o = AssertFailed "g->gcstate == GCSsweep"))
  ∧ (isdead g obj = false →
     validateobj heap g o =
       match gch_tt (gch obj) with
       | LUA_TSTRING | LUA_TBUFFER => Ok tt
       | LUA_TTABLE => h ← gco2h obj; validatetable heap g o h
       | LUA_TFUNCTION => cl ← gco2cl obj; validateclosure heap g o cl
       | LUA_TUSERDATA =>
           u ← gco2u obj;
           if negb (u_metatable u =? NULL) then validateobjref heap g o (u_metatable u)
           else Ok tt
       | LUA_TTHREAD => th ← gco2th obj; validatestack heap g o th
       | LUA_TPROTO => f ← gco2p obj; validateproto heap g o f
       | LUA_TUPVAL => uv ← gco2uv obj; validateref heap g o (uv_v uv)
       | _ => AssertFailed "unexpected object type"
       end)
  ∧ (isdead g obj = false →
     gch_tt (gch obj) ∉ [LUA_TSTRING; LUA_TTABLE; LUA_TFUNCTION; LUA_TUSERDATA;
                         LUA_TTHREAD; LUA_TBUFFER; LUA_TPROTO; LUA_TUPVAL] →
     validateobj heap g o = AssertFailed "unexpected object type").
Proof.
  intros Hnull Hobj.
  assert (Hd : deref heap o = Ok obj) by (apply deref_Ok; auto).
  unfold validateobj. rewrite Hd. simpl. split; [|split].
  - intros ->. split.
    + intros ->. unfold LUAU_ASSERT. rewrite Z.eqb_refl. reflexivity.
    + intros Hne. unfold LUAU_ASSERT.
      destruct (Z.eqb_spec (gcstate g) GCSsweep); [contradiction | reflexivity].
  - intros ->. destruct (gch_tt (gch obj)); reflexivity.
  - intros -> Htag. destruct (gch_tt (gch obj)); try reflexivity;
      exfalso; apply Htag; apply list_elem_of_In; simpl; tauto.
Qed.

(** The dead table with a dangling array slot is passed over during the
    sweep and is an error in the propagate phase; a live object tagged as a
    number is an error. *)
Lemma validateobj_dead_or_live_witness :
  validateobj (H := luau64) deadheap (state 4 []) 64 = Ok tt
  ∧ validateobj (H := luau64) deadheap (state 1 []) 64
    = AssertFailed "g->gcstate == GCSsweep"
  ∧ validateobj (H := luau64) oddheap (state 1 []) 64
    = AssertFailed "unexpected object type".
Proof.
  pose proof (validateobj_dead_or_live (H := luau64) deadheap (state 4 []) 64
                (tablewith (mkGCheader LUA_TTABLE 4 0) (objvalue LUA_TSTRING 999))
                ltac:(discriminate) eq_refl) as (Hsweep & _ & _).
  pose proof (validateobj_dead_or_live (H := luau64) deadheap (state 1 []) 64
                (tablewith (mkGCheader LUA_TTABLE 4 0) (objvalue LUA_TSTRING 999))
                ltac:(discriminate) eq_refl) as (Hprop & _ & _).
  pose proof (validateobj_dead_or_live (H := luau64) oddheap (state 1 []) 64
                (mkGCObject (gray_ LUA_TNUMBER) (U_buf (mkBuffer 0)))
                ltac:(discriminate) eq_refl) as (_ & _ & Hodd).
  split; [|split].
  - apply (Hsweep eq_refl). reflexivity.
  - apply (Hprop eq_refl). discriminate.
  - apply (Hodd eq_refl). intros Hin. apply list_elem_of_In in Hin. simpl in Hin.
    intuition discriminate.
Defined.

(** ** Call frames *)

Lemma validateframe_Ok (l : lua_State) (i : Z) :
  validateframe l i = Ok tt ↔
  0 ≤ i ∧ ∃ c, base_ci l !! Z.to_nat i = Some c ∧ frameok l c.
Proof.
  unfold validateframe, frameok. split.
  - intros Hv. ok_inv. apply andb_true_iff in Ha1 as [Hf Hb].
    split; [assumption|]. exists a. repeat split; try assumption; lia.
  - intros (Hi & c & Hc & Hs & Hf & Hb & Ht).
    apply bind_Ok. exists c. split; [apply index_Ok; auto|].
    apply bind_Ok. exists tt. split; [apply LUAU_ASSERT_Ok; lia|].
    apply bind_Ok. exists tt. split; [apply LUAU_ASSERT_Ok|apply LUAU_ASSERT_Ok; lia].
    apply andb_true_iff. split; lia.
Qed.

(** C6, as the validator has it.  When the check of a thread returns, every
    frame from [base_ci] to [ci] lies in the stack ([l->stack <= base]), has
    its function slot, base and top in this order, and ends at or before
    [stack_last]; and the loop over the frames requires exactly this of each
    frame by itself, nothing relating a frame to the one before it. *)
Theorem validatestack_frames `{Headers} (heap : gmap Z GCObject) (g : global_State)
    (o : ptr) (l : lua_State) :
  (validatestack heap g o l = Ok tt →
     ∀ i, 0 ≤ i ≤ ci l → ∃ c, base_ci l !! Z.to_nat i = Some c ∧ frameok l c)
  ∧ (for_range 0 (ci l + 1) (validateframe l) = Ok tt ↔
     ∀ i, 0 ≤ i ≤ ci l → ∃ c, base_ci l !! Z.to_nat i = Some c ∧ frameok l c).
Proof.
  assert (Hloop : for_range 0 (ci l + 1) (validateframe l) = Ok tt ↔
     ∀ i, 0 ≤ i ≤ ci l → ∃ c, base_ci l !! Z.to_nat i = Some c ∧ frameok l c).
  { rewrite for_range_Ok. split.
    - intros Hall i Hi. apply validateframe_Ok. apply Hall. lia.
    - intros Hall i Hi. apply validateframe_Ok. split; [lia|]. apply Hall. lia. }
  split; [|exact Hloop].
  unfold validatestack. intros Hv. ok_inv. apply Hloop. assumption.
Qed.

Lemma validatestack_frames_witness :
  (∃ c, base_ci twoframes !! 0%nat = Some c ∧ frameok twoframes c)
  ∧ (∃ c, base_ci twoframes !! 1%nat = Some c ∧ frameok twoframes c).
Proof.
  pose proof (proj1 (validatestack_frames (H := luau64) baseheap (state 1 []) 16
                       twoframes) eq_refl) as Hframes.
  split; [apply (Hframes 0) | apply (Hframes 1)]; simpl; lia.
Defined.

(** The thread [twoframes] passes the validator although its second frame
    begins below the top of its first frame. *)
Lemma validatestack_overlapping_frames :
  validateobj (H := luau64) baseheap (state 1 []) 16 = Ok tt
  ∧ validatestack (H := luau64) baseheap (state 1 []) 16 twoframes = Ok tt
  ∧ ¬ framesnested twoframes.
Proof.
  split; [vm_compute; reflexivity|]. split; [vm_compute; reflexivity|].
  intros Hn.
  specialize (Hn 0 (mkCallInfo 1 0 10) (mkCallInfo 4 3 12)).
  simpl in Hn. specialize (Hn ltac:(lia) ltac:(lia) eq_refl eq_refl). lia.
Qed.

(** ** Loops with output *)

Lemma emit_loop_index {A E : Type} (data extra : list A) (F : A → list E)
    (n i : nat) :
  (i + n ≤ length data)%nat →
  emit_loop n (Z.of_nat i) (fun j => x ← index (data ++ extra) j; Ok (F x))
  = Ok (flat_map F (take n (drop i data))).
Proof.
  revert i. induction n as [|n IH]; intros i Hlen.
  - reflexivity.
  - cbn [emit_loop].
    destruct (lookup_lt_is_Some_2 data i ltac:(lia)) as [x Hx].
    assert (Hidx : index (data ++ extra) (Z.of_nat i) = Ok x).
    { apply index_Ok. rewrite Nat2Z.id. split; [lia|].
      rewrite lookup_app_l by lia. exact Hx. }
    rewrite Hidx. simpl.
    replace (Z.of_nat i + 1) with (Z.of_nat (S i)) by lia.
    rewrite IH by lia. simpl.
    rewrite (drop_S data x i Hx). reflexivity.
Qed.

Lemma length_list_ascii_of_string (s : string) :
  length (list_ascii_of_string s) = String.length s.
Proof. induction s as [|a s IH]; simpl; congruence. Qed.

(** ** Escaping of string payloads *)

Section DumpFacts.
Context `{Headers}.

(** [safejson] accepts the bytes from 32 to 127 except the backslash and the
    double quote, whether [char] is signed or not. *)
Lemma safejson_verbatim (c : ascii) : safejson c = verbatim c.
Proof.
  unfold safejson, verbatim, char_value, unsigned.
  destruct char_is_signed;
    destruct c as [[] [] [] [] [] [] [] []]; vm_compute; reflexivity.
Qed.

Lemma dumpstringdata_whole (data : string) :
  dumpstringdata data (Z.of_nat (String.length data))
  = Ok (map (escaped verbatim) (list_ascii_of_string data)).
Proof.
  unfold dumpstringdata, emit_range, char_at.
  rewrite Z.sub_0_r, Nat2Z.id.
  rewrite (emit_loop_index (list_ascii_of_string data) [NUL]
             (fun ch => fputc (if safejson ch then ch else "?"%char))
             (String.length data) 0)
    by (rewrite length_list_ascii_of_string; lia).
  rewrite drop_0, firstn_all2 by (rewrite length_list_ascii_of_string; lia).
  induction (list_ascii_of_string data) as [|c l IH]; [reflexivity|].
  simpl. rewrite safejson_verbatim. unfold escaped at 1.
  f_equal. injection IH as IH. rewrite IH. reflexivity.
Qed.

End DumpFacts.

(** C2, as the exporter has it.  Every byte of the payload of a string
    object that is below 32 or above 127, and every backslash and double
    quote, is written as a question mark; every other byte, that is the
    printable ASCII characters other than these two and the byte 127, is
    written as it is.  [dumpstring] writes this between the opening of the
    descriptor and its closing. *)
Theorem dumpstring_escapes `{Headers} (o : GCObject) (ts : TString) :
  ts_len ts = Z.of_nat (String.length (ts_data ts)) →
  dumpstringdata (ts_data ts) (ts_len ts)
    = Ok (map (escaped verbatim) (list_ascii_of_string (ts_data ts)))
  ∧ dumpstring o ts
    = Ok (fprintf "{'type':'string','cat':%d,'size':%d,'data':'"
            [A_int (memcat (gch o)); A_int (int (sizestring (ts_len ts)))]
          ++ map (escaped verbatim) (list_ascii_of_string (ts_data ts))
          ++ fprintf "'}" [])
  ∧ (∀ c, c ∈ list_ascii_of_string (ts_data ts) →
       (Z.of_N (N_of_ascii c) < 32 ∨ 127 < Z.of_N (N_of_ascii c)
        ∨ Z.of_N (N_of_ascii c) = 92 ∨ Z.of_N (N_of_ascii c) = 34 →
        escaped verbatim c = Byte "?"%char)
       ∧ (printable c = true → Z.of_N (N_of_ascii c) ≠ 92 →
          Z.of_N (N_of_ascii c) ≠ 34 → escaped verbatim c = Byte c)).
Proof.
  intros Hlen.
  assert (Hdata : dumpstringdata (ts_data ts) (ts_len ts)
    = Ok (map (escaped verbatim) (list_ascii_of_string (ts_data ts)))).
  { rewrite Hlen. apply dumpstringdata_whole. }
  split; [exact Hdata|]. split.
  - unfold dumpstring. rewrite Hdata. reflexivity.
  - intros c _. unfold escaped, verbatim, printable. split.
    + intros Hc.
      destruct (Z.leb_spec 32 (Z.of_N (N_of_ascii c)));
        destruct (Z.leb_spec (Z.of_N (N_of_ascii c)) 127);
        destruct (Z.eqb_spec (Z.of_N (N_of_ascii c)) 92);
        destruct (Z.eqb_spec (Z.of_N (N_of_ascii c)) 34);
        simpl; try reflexivity; lia.
    + intros Hp H92 H34. apply andb_true_iff in Hp as [Hlo Hhi].
      apply Z.leb_le in Hlo, Hhi.
      destruct (Z.leb_spec 32 (Z.of_N (N_of_ascii c))); [|lia].
      destruct (Z.leb_spec (Z.of_N (N_of_ascii c)) 127); [|lia].
      destruct (Z.eqb_spec (Z.of_N (N_of_ascii c)) 92); [contradiction|].
      destruct (Z.eqb_spec (Z.of_N (N_of_ascii c)) 34); [contradiction|].
      reflexivity.
Qed.

(** A backslash, a double quote and the byte 200 are replaced, the letters
    around them are kept. *)
Lemma dumpstring_escapes_witness :
  dumpstringdata (H := luau64) payload 7 = Ok (bytes_of "a?b?c?d").
Proof.
  pose proof (dumpstring_escapes (H := luau64)
                (stringobj (white LUA_TSTRING) payload) (mkTString 7 payload) eq_refl)
    as (Hdata & _ & _).
  exact Hdata.
Defined.

(** The byte 127 is not a printable ASCII character, and it is written as it
    is. *)
Lemma dumpstringdata_keeps_del :
  printable "127"%char = false
  ∧ dumpstringdata (H := luau64) delpayload 1 = Ok [Byte "127"%char]
  ∧ dumpstringdata (H := luau64) delpayload 1 ≠ Ok [Byte "?"%char].
Proof.
  split; [reflexivity|]. split; [vm_compute; reflexivity|].
  vm_compute. discriminate.
Qed.

(** ** The enumeration *)

Lemma emit_loop_Forall {E : Type} (P : E → Prop) (n : nat) (i : Z)
    (body : Z → result (list E)) (out : list E) :
  (∀ j o, body j = Ok o → Forall P o) →
  emit_loop n i body = Ok out → Forall P out.
Proof.
  intros Hbody. revert i out. induction n as [|n IH]; intros i out Hl; simpl in Hl.
  - injection Hl as <-. constructor.
  - ok_inv. subst. apply Forall_app. split; [eapply Hbody | eapply IH]; eauto.
Qed.

Section EnumFacts.
Context `{Headers}.
Variable FFlag : FastFlags.
Variable heap : gmap Z GCObject.
Variable g : global_State.

Lemma enumtopointer_Ok (o pointer : ptr) :
  enumtopointer heap o = Ok pointer ↔
  o ≠ NULL ∧ ∃ obj, denotes heap pointer o obj.
Proof.
  unfold enumtopointer, denotes. split.
  - intros He. ok_inv. split; [assumption|]. exists a. split; [assumption|].
    subst. case_bool_decide; split; intros; congruence.
  - intros (Hn & obj & Hobj & Hu & Hnu).
    apply bind_Ok. exists obj. split; [apply deref_Ok; auto|].
    f_equal. case_bool_decide; symmetry; auto.
Qed.

Lemma enumnode_Ok (o size : Z) (name : option string) (out : list Callback) :
  enumnode heap o size name = Ok out →
  ∃ obj pointer, denotes heap pointer o obj
    ∧ out = [CbNode pointer (gch_tt (gch obj)) (memcat (gch obj)) size name].
Proof.
  unfold enumnode. intros He. ok_inv.
  apply enumtopointer_Ok in Ha as (_ & obj & Hd).
  assert (obj = a0) as -> by (destruct Hd as [Hd _]; congruence).
  subst. eauto.
Qed.

Lemma enumnode_nodeof (o size : Z) (name : option string) (out : list Callback) :
  enumnode heap o size name = Ok out → ∃ nd, out = [nd] ∧ nodeof heap o nd.
Proof.
  intros He. apply enumnode_Ok in He as (obj & pointer & Hd & ->).
  eexists. split; [reflexivity|]. unfold nodeof. eauto 10.
Qed.

Lemma enumedge_edgefrom (o t : ptr) (name : string) (out : list Callback) :
  enumedge heap o t name = Ok out → Forall (edgefrom heap o) out.
Proof.
  unfold enumedge. intros He. ok_inv. subst.
  apply enumtopointer_Ok in Ha as (_ & obj & Hd).
  apply enumtopointer_Ok in Ha0 as (_ & tobj & Htd).
  repeat constructor. unfold edgefrom. eauto 10.
Qed.

Lemma enumedges_edgefrom (o : ptr) (data : list TValue) (size : Z) (name : string)
    (out : list Callback) :
  enumedges heap o data size name = Ok out → Forall (edgefrom heap o) out.
Proof.
  unfold enumedges, emit_range. apply emit_loop_Forall.
  intros j out' Hb. ok_inv. destruct (iscollectable a).
  - ok_inv. eapply enumedge_edgefrom; eauto.
  - injection Hb as <-. constructor.
Qed.

Lemma when_Forall {E : Type} (P : E → Prop) (c : bool) (m : result (list E))
    (out : list E) :
  (m = Ok out → Forall P out) →
  (if c then m else Ok []) = Ok out → Forall P out.
Proof.
  intros Hm Hc. destruct c; [auto|]. injection Hc as <-. constructor.
Qed.

Lemma enumkey_edgefrom (o : ptr) (weakkey : bool) (n : LuaNode) (out : list Callback) :
  enumkey heap o weakkey n = Ok out → Forall (edgefrom heap o) out.
Proof.
  unfold enumkey. apply when_Forall. intros He. ok_inv.
  eapply enumedge_edgefrom; eauto.
Qed.

Lemma enumvalue_edgefrom (o : ptr) (weakvalue : bool) (n : LuaNode)
    (out : list Callback) :
  enumvalue heap g o weakvalue n = Ok out → Forall (edgefrom heap o) out.
Proof.
  unfold enumvalue. apply when_Forall. intros He.
  destruct (ttisstring (gkey n)); [|destruct (ttisnumber (gkey n))];
    ok_inv; eapply enumedge_edgefrom; eauto.
Qed.

Lemma enumpair_edgefrom (o : ptr) (weakkey weakvalue : bool) (n : LuaNode)
    (out : list Callback) :
  enumpair heap g o weakkey weakvalue n = Ok out → Forall (edgefrom heap o) out.
Proof.
  unfold enumpair. apply when_Forall. intros He. ok_inv. subst.
  apply Forall_app. split; [eapply enumkey_edgefrom | eapply enumvalue_edgefrom]; eauto.
Qed.

Lemma enumpairs_edgefrom (o : ptr) (h : LuaTable) (out : list Callback) :
  enumpairs heap g o h = Ok out → Forall (edgefrom heap o) out.
Proof.
  unfold enumpairs. apply when_Forall. intros He. ok_inv.
  revert He. unfold emit_range. apply emit_loop_Forall.
  intros j out' Hb. ok_inv. eapply enumpair_edgefrom; eauto.
Qed.

(** A node followed by edges from the same object is a group. *)
Lemma group_intro (o : ptr) (nd edges : list Callback) :
  (∃ n, nd = [n] ∧ nodeof heap o n) → Forall (edgefrom heap o) edges →
  groupof heap g o (nd ++ edges).
Proof.
  intros (n & -> & Hn) He. exists [], n, edges.
  repeat split; try assumption. left. reflexivity.
Qed.

Lemma enumstring_group (o : ptr) (ts : TString) (out : list Callback) :
  enumstring FFlag heap o ts = Ok out → groupof heap g o out.
Proof.
  unfold enumstring. intros He. rewrite <- (app_nil_r out).
  apply group_intro; [|constructor].
  destruct (LuauHeapDumpStringSizeOverhead FFlag); eapply enumnode_nodeof; eauto.
Qed.

Lemma enumtable_group (o : ptr) (h : LuaTable) (out : list Callback) :
  enumtable heap g o h = Ok out → groupof heap g o out.
Proof.
  unfold enumtable. intros He. ok_inv. subst.
  apply group_intro; [eapply enumnode_nodeof; eauto|].
  rewrite !Forall_app. split; [|split].
  - eapply enumpairs_edgefrom; eauto.
  - eapply when_Forall; [|eassumption]. apply enumedges_edgefrom.
  - eapply when_Forall; [|eassumption]. apply enumedge_edgefrom.
Qed.

Lemma enumclosure_group (o : ptr) (cl : Closure) (out : list Callback) :
  enumclosure heap o cl = Ok out → groupof heap g o out.
Proof.
  unfold enumclosure. intros He. ok_inv. subst.
  apply group_intro.
  - destruct (isC cl); ok_inv; eapply enumnode_nodeof; eauto.
  - apply Forall_app. split; [eapply enumedge_edgefrom; eauto|].
    destruct (isC cl).
    + eapply when_Forall; [|eassumption]. apply enumedges_edgefrom.
    + ok_inv. subst. apply Forall_app. split; [eapply enumedge_edgefrom; eauto|].
      eapply when_Forall; [|eassumption]. apply enumedges_edgefrom.
Qed.

Lemma enumudata_group (o : ptr) (u : Udata) (out : list Callback) :
  enumudata heap o u = Ok out → groupof heap g o out.
Proof.
  unfold enumudata. intros He. ok_inv. subst.
  apply group_intro; [eapply enumnode_nodeof; eauto|].
  eapply when_Forall; [|eassumption]. apply enumedge_edgefrom.
Qed.

Lemma enumthread_group (o : ptr) (th : lua_State) (out : list Callback) :
  enumthread heap o th = Ok out → groupof heap g o out.
Proof.
  unfold enumthread. intros He. ok_inv. subst.
  apply group_intro; [eapply enumnode_nodeof; eauto|].
  apply Forall_app. split; [eapply enumedge_edgefrom; eauto|].
  eapply when_Forall; [|eassumption]. apply enumedges_edgefrom.
Qed.

Lemma enumbuffer_group (o : ptr) (b : Buffer) (out : list Callback) :
  enumbuffer heap o b = Ok out → groupof heap g o out.
Proof.
  unfold enumbuffer. intros He. rewrite <- (app_nil_r out).
  apply group_intro; [eapply enumnode_nodeof; eauto|constructor].
Qed.

Lemma enumupval_group (o : ptr) (uv : UpVal) (out : list Callback) :
  enumupval heap o uv = Ok out → groupof heap g o out.
Proof.
  unfold enumupval. intros He. ok_inv. subst.
  apply group_intro; [eapply enumnode_nodeof; eauto|].
  eapply when_Forall; [|eassumption]. intros Hv. ok_inv.
  eapply enumedge_edgefrom; eauto.
Qed.

Lemma enumproto_group (o : ptr) (obj : GCObject) (f : Proto) (out : list Callback) :
  heap !! o = Some obj → gch_tt (gch obj) = LUA_TPROTO → body obj = U_p f →
  enumproto heap g o f = Ok out → groupof heap g o out.
Proof.
  unfold enumproto. intros Hobj Htag Hbody He. ok_inv. subst.
  apply enumnode_nodeof in Ha1 as (nd & -> & Hnd).
  exists a, nd, (a2 ++ a3). split; [reflexivity|]. split; [|split].
  - destruct (negb (execdata f =? NULL)) eqn:Hx; [|left; congruence].
    destruct (getmemorysize g) as [cb|] eqn:Hcb; [|left; congruence].
    right. ok_inv. subst.
    match goal with
    | Hp : enumtopointer heap o = Ok ?from |- _ =>
        apply enumtopointer_Ok in Hp as (_ & obj' & Hd); exists obj, f, cb, from
    end.
    assert (obj' = obj) as -> by (destruct Hd as [Hd _]; congruence).
    assert (Hsame : ∀ x, heap !! o = Some x → x = obj) by (intros; congruence).
    repeat match goal with
           | Hh : heap !! o = Some ?x |- _ =>
               lazymatch x with
               | obj => fail
               | _ => pose proof (Hsame x Hh); subst x
               end
           end.
    repeat split; try assumption; try apply Hd.
    apply negb_true_iff, Z.eqb_neq in Hx. exact Hx.
  - exact Hnd.
  - apply Forall_app. split.
    + eapply when_Forall; [|eassumption]. apply enumedges_edgefrom.
    + revert Ha3. unfold emit_range. apply emit_loop_Forall.
      intros j out' Hb. ok_inv. eapply enumedge_edgefrom; eauto.
Qed.

(** The callbacks of one visit form the group of the visited object. *)
Lemma enumobj_group (o : ptr) (out : list Callback) :
  enumobj FFlag heap g o = Ok out → groupof heap g o out.
Proof.
  unfold enumobj. intros He. ok_inv.
  destruct (gch_tt (gch a)) eqn:Htag; try discriminate; ok_inv.
  - eapply enumstring_group; eauto.
  - eapply enumtable_group; eauto.
  - eapply enumclosure_group; eauto.
  - eapply enumudata_group; eauto.
  - eapply enumthread_group; eauto.
  - eapply enumbuffer_group; eauto.
  - eapply enumproto_group; eauto.
    unfold gco2p in Ha0. destruct (body a); try discriminate. congruence.
  - eapply enumupval_group; eauto.
Qed.

(** The callbacks of a pass are those of the visits, in visiting order. *)
Lemma enum_pages (pages : list ptr) (c out : list Callback) :
  foldl (fun acc gco => c ← acc; enumgco FFlag heap g c gco) (Ok c) pages = Ok out →
  ∃ groups, Forall2 (fun o grp => enumobj FFlag heap g o = Ok grp) pages groups
            ∧ out = c ++ concat groups.
Proof.
  revert c. induction pages as [|o pages IH]; intros c Hf.
  - simpl in Hf. injection Hf as <-. exists []. split; [constructor|].
    simpl. rewrite app_nil_r. reflexivity.
  - apply (luaM_visitgco_cons g) in Hf as (c1 & Hv & Hf).
    unfold enumgco in Hv. apply bind_Ok in Hv as (grp & Hgrp & Hv).
    injection Hv as <-.
    destruct (IH _ Hf) as (groups & Hg & ->).
    exists (grp :: groups). split; [constructor; assumption|].
    simpl. rewrite app_assoc. reflexivity.
Qed.

Lemma luaC_enumheap_groups (out : list Callback) :
  luaC_enumheap FFlag heap g = Ok out →
  ∃ groups,
    Forall2 (fun o grp => enumobj FFlag heap g o = Ok grp)
            (mainthread g :: allgcopages g) groups
    ∧ out = concat groups.
Proof.
  unfold luaC_enumheap, luaM_visitgco. intros He.
  apply bind_Ok in He as (c & Hc & He).
  unfold enumgco in Hc. apply bind_Ok in Hc as (grp & Hgrp & Hc).
  injection Hc as <-.
  destruct (enum_pages _ _ _ He) as (groups & Hg & ->).
  exists (grp :: groups). split; [constructor; assumption|]. reflexivity.
Qed.

End EnumFacts.




(** C5, as the enumeration has it.  The callbacks of a pass are those of
    the visits of the main thread and of the objects of the pages, in this
    order.  Each visit makes the node callback of the visited object and then
    edge callbacks whose source is that object, so that the node of an object
    comes before the edges that start from it; only what [enumproto] emits for
    native code comes before the node.  Nothing places the node of the target
    of an edge before the edge. *)
Theorem enumheap_groups `{Headers} (FFlag : FastFlags) (heap : gmap Z GCObject)
    (g : global_State) (out : list Callback) :
  luaC_enumheap FFlag heap g = Ok out →
  ∃ groups,
    out = concat groups
    ∧ Forall2 (fun o grp => enumobj FFlag heap g o = Ok grp ∧ groupof heap g o grp)
              (mainthread g :: allgcopages g) groups.
Proof.
  intros He. apply luaC_enumheap_groups in He as (groups & Hg & ->).
  exists groups. split; [reflexivity|].
  eapply Forall2_impl; [exact Hg|]. intros o grp Ho. cbv beta in Ho.
  split; [exact Ho|]. exact (enumobj_group FFlag heap g o grp Ho).
Qed.

Lemma enumheap_groups_witness :
  ∃ groups,
    [CbNode 16 LUA_TTHREAD 0 600 None; CbEdge 16 32 "globals";
     CbNode 32 LUA_TTABLE 0 48 None; CbNode 48 LUA_TTABLE 0 48 (Some "registry")]
    = concat groups
    ∧ Forall2 (fun o grp =>
         enumobj (H := luau64) (mkFastFlags true) baseheap (state 0 [32; 48]) o = Ok grp
         ∧ groupof (H := luau64) baseheap (state 0 [32; 48]) o grp)
        [16; 32; 48] groups.
Proof.
  apply (enumheap_groups (H := luau64) (mkFastFlags true) baseheap (state 0 [32; 48])).
  vm_compute. reflexivity.
Defined.

(** The edge from the main thread to its globals is reported before the node
    of the globals table, which is visited later. *)
Lemma enumheap_edge_before_target :
  luaC_enumheap (H := luau64) (mkFastFlags true) baseheap (state 0 [32; 48])
  = Ok [CbNode 16 LUA_TTHREAD 0 600 None; CbEdge 16 32 "globals";
        CbNode 32 LUA_TTABLE 0 48 None; CbNode 48 LUA_TTABLE 0 48 (Some "registry")]
  ∧ nodesfirst [] [CbNode 16 LUA_TTHREAD 0 600 None; CbEdge 16 32 "globals";
                   CbNode 32 LUA_TTABLE 0 48 None;
                   CbNode 48 LUA_TTABLE 0 48 (Some "registry")] = false.
Proof. split; vm_compute; reflexivity. Qed.

(** The edge to the native code of a prototype is reported before the node of
    the prototype. *)
Example enumproto_native_first :
  enumobj (H := luau64) (mkFastFlags true) protoheap (nativestate []) 64
  = Ok [CbNode 4096 LUA_TNONE 0 512 None; CbEdge 64 4096 "[native]";
        CbNode 64 LUA_TPROTO 0 168 (Some "proto unnamed:3")].
Proof. vm_compute. reflexivity. Qed.

(** C8, as the enumeration has it.  The size reported for a string object
    is [sizestring(len)] when the flag [LuauHeapDumpStringSizeOverhead] is
    set and the length of the payload when it is not; the dump writes
    [sizestring(len)] whatever the flag. *)
Theorem enumstring_size `{Headers} (FFlag : FastFlags) (heap : gmap Z GCObject)
    (g : global_State) (o : ptr) (obj : GCObject) (ts : TString) :
  o ≠ NULL → heap !! o = Some obj →
  gch_tt (gch obj) = LUA_TSTRING → body obj = U_ts ts →
  enumobj FFlag heap g o
    = Ok [CbNode o LUA_TSTRING (memcat (gch obj))
            (if LuauHeapDumpStringSizeOverhead FFlag
             then sizestring (ts_len ts) else ts_len ts) None]
  ∧ ∀ out, dumpstring obj ts = Ok out →
      ∃ data, out = fprintf "{'type':'string','cat':%d,'size':%d,'data':'"
                      [A_int (memcat (gch obj)); A_int (int (sizestring (ts_len ts)))]
                    ++ data ++ fprintf "'}" [].
Proof.
  intros Hnull Hobj Htag Hbody.
  assert (Hd : deref heap o = Ok obj) by (apply deref_Ok; auto).
  split.
  - unfold enumobj. rewrite Hd. simpl. rewrite Htag.
    unfold gco2ts. rewrite Hbody. simpl.
    unfold enumstring, enumnode, enumtopointer.
    destruct (LuauHeapDumpStringSizeOverhead FFlag);
      rewrite Hd; simpl; rewrite Htag; reflexivity.
  - intros out Hout. unfold dumpstring in Hout.
    apply bind_Ok in Hout as (data & _ & Hout). injection Hout as <-. eauto.
Qed.

Lemma enumstring_size_witness :
  enumobj (H := luau64) (mkFastFlags true) stringheap (state 0 [80]) 80
  = Ok [CbNode 80 LUA_TSTRING 0 26 None].
Proof.
  exact (proj1 (enumstring_size (H := luau64) (mkFastFlags true) stringheap
                  (state 0 [80]) 80 (stringobj (white LUA_TSTRING) "s")
                  (mkTString 1 "s") ltac:(discriminate) eq_refl eq_refl eq_refl)).
Defined.

(** With the flag clear the size reported for the string ["s"] is 1, its
    length, and not [sizestring(1)], which is 26. *)
Lemma enumstring_reports_length :
  luaC_enumheap (H := luau64) (mkFastFlags false) stringheap (state 0 [80])
  = Ok [CbNode 16 LUA_TTHREAD 0 600 None; CbEdge 16 32 "globals";
        CbNode 80 LUA_TSTRING 0 1 None]
  ∧ sizestring (Headers := luau64) 1 = 26.
Proof. split; vm_compute; reflexivity. Qed.

(** ** The hash part of a table, in the dump and in the enumeration *)

Lemma emit_loop_ext {E : Type} (n : nat) (i : Z) (b1 b2 : Z → result (list E)) :
  (∀ j, b1 j = b2 j) → emit_loop n i b1 = emit_loop n i b2.
Proof.
  intros Hext. revert i. induction n as [|n IH]; intros i; [reflexivity|].
  simpl. rewrite Hext, IH. reflexivity.
Qed.

Lemma emit_loop_index_inv {A E : Type} (data : list A) (F : A → result (list E))
    (n i : nat) (out : list E) :
  emit_loop n (Z.of_nat i) (fun j => x ← index data j; F x) = Ok out →
  ∃ outs, Forall2 (fun x o => F x = Ok o) (take n (drop i data)) outs
          ∧ out = concat outs.
Proof.
  revert i out. induction n as [|n IH]; intros i out Hl.
  - simpl in Hl. injection Hl as <-. exists []. split; [constructor | reflexivity].
  - cbn [emit_loop] in Hl.
    apply bind_Ok in Hl as (o1 & Hb & Hl). apply bind_Ok in Hl as (rest & Hrest & Hl).
    injection Hl as <-.
    apply bind_Ok in Hb as (x & Hx & Hb). apply index_Ok in Hx as [_ Hx].
    rewrite Nat2Z.id in Hx.
    replace (Z.of_nat i + 1) with (Z.of_nat (S i)) in Hrest by lia.
    destruct (IH _ _ Hrest) as (outs & Hall & ->).
    exists (o1 :: outs). split; [|reflexivity].
    rewrite (drop_S data x i Hx). simpl. constructor; assumption.
Qed.

Lemma dump_loop_ext (n : nat) (i : Z) (b1 b2 : Z → bool → result (list Token * bool))
    (first : bool) :
  (∀ j f, b1 j f = b2 j f) → dump_loop n i b1 first = dump_loop n i b2 first.
Proof.
  intros Hext. revert i first. induction n as [|n IH]; intros i first; [reflexivity|].
  simpl. rewrite Hext. destruct (b2 i first) as [r| | |]; simpl; try reflexivity.
  rewrite IH. reflexivity.
Qed.

Lemma pointers_app (a b : list Token) : pointers (a ++ b) = pointers a ++ pointers b.
Proof. apply omap_app. Qed.

Lemma dump_loop_pointers {A : Type} (data : list A)
    (F : A → bool → result (list Token * bool)) (R : A → list ptr)
    (n i : nat) (first : bool) (r : list Token * bool) :
  (∀ x f r', F x f = Ok r' → pointers r'.1 = R x) →
  dump_loop n (Z.of_nat i) (fun j f => x ← index data j; F x f) first = Ok r →
  pointers r.1 = flat_map R (take n (drop i data)).
Proof.
  intros HF. revert i first r. induction n as [|n IH]; intros i first r Hl.
  - simpl in Hl. injection Hl as <-. reflexivity.
  - cbn [dump_loop] in Hl.
    apply bind_Ok in Hl as (r1 & Hb & Hl). apply bind_Ok in Hl as (r2 & Hrest & Hl).
    injection Hl as <-.
    apply bind_Ok in Hb as (x & Hx & Hb). apply index_Ok in Hx as [_ Hx].
    rewrite Nat2Z.id in Hx.
    replace (Z.of_nat i + 1) with (Z.of_nat (S i)) in Hrest by lia.
    simpl. rewrite pointers_app, (HF _ _ _ Hb), (IH _ _ _ Hrest).
    rewrite (drop_S data x i Hx). reflexivity.
Qed.

Lemma Forall2_concat2 {A B : Type} (P : A → B → Prop) (xss : list (list A))
    (yss : list (list B)) :
  Forall2 (Forall2 P) xss yss → Forall2 P (concat xss) (concat yss).
Proof.
  induction 1 as [|xs ys xss yss Hxy _ IH]; simpl; [constructor|].
  apply Forall2_app; assumption.
Qed.

Lemma hashnodes_nodes (h : LuaTable) (ns : list LuaNode) :
  node h = Nodes ns → hashnodes h = take (Z.to_nat (sizenode h)) (drop 0 ns).
Proof. intros Hn. unfold hashnodes. rewrite Hn, drop_0. reflexivity. Qed.

Lemma has_nodes_Nodes (h : LuaTable) :
  has_nodes h = true → ∃ ns, node h = Nodes ns.
Proof. unfold has_nodes. destruct (node h); [discriminate | eauto]. Qed.

Section PairFacts.
Context `{Headers}.
Variable heap : gmap Z GCObject.
Variable g : global_State.

Lemma gcvalue_gcref (v : TValue) (gc : ptr) :
  iscollectable v = true → gcvalue v = Ok gc → gcref v = [gc].
Proof.
  unfold gcvalue, gcref. intros -> Hv. destruct (value v); try discriminate.
  injection Hv as <-. reflexivity.
Qed.

Lemma gcref_not_collectable (v : TValue) : iscollectable v = false → gcref v = [].
Proof. unfold gcref. intros ->. reflexivity. Qed.

Ltac use_gcref :=
  repeat match goal with
         | Hc : iscollectable ?v = true, Hg : gcvalue ?v = Ok _ |- _ =>
             rewrite (gcvalue_gcref v _ Hc Hg); clear Hc
         | Hc : iscollectable ?v = false |- _ =>
             rewrite (gcref_not_collectable v Hc); clear Hc
         end.

(** *** The dump *)

Lemma dumppair_pointers (h : LuaTable) (ns : list LuaNode) :
  ∀ n first r,
    (if negb (ttisnil (gval n)) && (iscollectable (gkey n) || iscollectable (gval n)) then
       kout ← (if iscollectable (gkey n)
               then gc ← gcvalue (gkey n); Ok (dumpref gc)
               else Ok (fprintf "null" []));
       vout ← (if iscollectable (gval n)
               then gc ← gcvalue (gval n); Ok (dumpref gc)
               else Ok (fprintf "null" []));
       Ok ((if negb first then fputc ","%char else []) ++ kout ++ fputc ","%char ++ vout,
           false)
     else Ok ([], first)) = Ok r →
    pointers r.1 = pairref false false n.
Proof.
  intros n first r Hr. unfold pairref.
  destruct (ttisnil (gval n)); simpl in Hr; [injection Hr as <-; reflexivity|].
  destruct (iscollectable (gkey n)) eqn:Hk, (iscollectable (gval n)) eqn:Hv;
    simpl in Hr; ok_inv; subst; cbn [fst];
    repeat match goal with
           | Hc : iscollectable ?v = true, Hg : gcvalue ?v = Ok _ |- _ =>
               rewrite (gcvalue_gcref v _ Hc Hg); clear Hg
           | Hc : iscollectable ?v = false |- _ =>
               rewrite (gcref_not_collectable v Hc); clear Hc
           end;
    rewrite ?pointers_app; destruct first; reflexivity.
Qed.

Lemma dumppairs_pointers (h : LuaTable) (ps : list Token) :
  has_nodes h = true → dumppairs h = Ok ps → pointers ps = pairrefs false false h.
Proof.
  intros Hn Hd. unfold pairrefs. rewrite Hn.
  destruct (has_nodes_Nodes h Hn) as [ns Hns].
  rewrite (hashnodes_nodes h ns Hns).
  unfold dumppairs in Hd. apply bind_Ok in Hd as (r & Hr & Hd). injection Hd as <-.
  eapply (dump_loop_pointers ns _ (pairref false false) _ 0 true r
            (dumppair_pointers h ns)).
  rewrite <- Hr. apply dump_loop_ext. intros j f.
  unfold dumppair, node_at. rewrite Hns. reflexivity.
Qed.

(** *** The enumeration *)

Lemma enumedge_edgeof (o t : ptr) (name : string) (out : list Callback) :
  enumedge heap o t name = Ok out → ∃ cb, out = [cb] ∧ edgeof heap o t name cb.
Proof.
  unfold enumedge. intros He. ok_inv. subst.
  apply enumtopointer_Ok in Ha as (_ & obj & Hd).
  apply enumtopointer_Ok in Ha0 as (_ & tobj & Htd).
  eexists. split; [reflexivity|]. unfold edgeof. eauto 10.
Qed.

Lemma enumedge_denotes (o t : ptr) (name : string) (obj tobj : GCObject)
    (from to : ptr) :
  o ≠ NULL → t ≠ NULL → denotes heap from o obj → denotes heap to t tobj →
  enumedge heap o t name = Ok [CbEdge from to name].
Proof.
  intros Ho Ht Hf Hto. unfold enumedge.
  rewrite (proj2 (enumtopointer_Ok heap o from) (conj Ho (ex_intro _ obj Hf))).
  simpl.
  rewrite (proj2 (enumtopointer_Ok heap t to) (conj Ht (ex_intro _ tobj Hto))).
  reflexivity.
Qed.

Lemma enumkey_edges (o : ptr) (weakkey : bool) (n : LuaNode) (out : list Callback) :
  enumkey heap o weakkey n = Ok out →
  Forall2 (fun t cb => edgeof heap o t "[key]" cb)
          (if weakkey then [] else gcref (gkey n)) out.
Proof.
  unfold enumkey. destruct weakkey; simpl.
  - intros Ho. injection Ho as <-. constructor.
  - destruct (iscollectable (gkey n)) eqn:Hc.
    + intros Ho. ok_inv. rewrite (gcvalue_gcref _ _ Hc Ha).
      apply enumedge_edgeof in Ho as (cb & -> & Hcb). repeat constructor. exact Hcb.
    + intros Ho. injection Ho as <-. rewrite (gcref_not_collectable _ Hc). constructor.
Qed.

Lemma enumvalue_edges (o : ptr) (weakvalue : bool) (n : LuaNode) (out : list Callback) :
  enumvalue heap g o weakvalue n = Ok out →
  Forall2 (fun t cb => ∃ name, edgeof heap o t name cb)
          (if weakvalue then [] else gcref (gval n)) out.
Proof.
  unfold enumvalue. destruct weakvalue; simpl.
  - intros Ho. injection Ho as <-. constructor.
  - destruct (iscollectable (gval n)) eqn:Hc.
    + intros Ho.
      destruct (ttisstring (gkey n)); [|destruct (ttisnumber (gkey n))]; ok_inv;
        match goal with
        | Hg : gcvalue (gval n) = Ok _ |- _ => rewrite (gcvalue_gcref _ _ Hc Hg)
        end;
        apply enumedge_edgeof in Ho as (cb & -> & Hcb); repeat constructor; eauto.
    + intros Ho. injection Ho as <-. rewrite (gcref_not_collectable _ Hc). constructor.
Qed.

(** What [enumpair] makes for a node: nothing, or the edge to the key
    followed by the edge to the value. *)
Lemma enumpair_parts (o : ptr) (weakkey weakvalue : bool) (n : LuaNode)
    (out : list Callback) :
  enumpair heap g o weakkey weakvalue n = Ok out →
  (out = [] ∧ pairref weakkey weakvalue n = [])
  ∨ (ttisnil (gval n) = false
     ∧ ∃ ks vs, out = ks ++ vs ∧ enumkey heap o weakkey n = Ok ks
                ∧ enumvalue heap g o weakvalue n = Ok vs).
Proof.
  unfold enumpair, pairref. intros He.
  destruct (ttisnil (gval n)); simpl in He.
  - left. injection He as <-. split; reflexivity.
  - destruct (iscollectable (gkey n)) eqn:Hk; simpl in He.
    + right. split; [reflexivity|]. ok_inv. subst.
      match goal with
      | Hke : enumkey _ _ _ _ = Ok ?ks, Hve : enumvalue _ _ _ _ _ = Ok ?vs |- _ =>
          exists ks, vs; split; [reflexivity|]; split; assumption
      end.
    + destruct (iscollectable (gval n)) eqn:Hv; simpl in He.
      * right. split; [reflexivity|]. ok_inv. subst.
        match goal with
      | Hke : enumkey _ _ _ _ = Ok ?ks, Hve : enumvalue _ _ _ _ _ = Ok ?vs |- _ =>
          exists ks, vs; split; [reflexivity|]; split; assumption
      end.
      * left. injection He as <-.
        rewrite !(gcref_not_collectable _ Hk), !(gcref_not_collectable _ Hv).
        split; [reflexivity|]. destruct weakkey, weakvalue; reflexivity.
Qed.

Lemma enumpair_edges (o : ptr) (weakkey weakvalue : bool) (n : LuaNode)
    (out : list Callback) :
  enumpair heap g o weakkey weakvalue n = Ok out →
  Forall2 (fun t cb => ∃ name, edgeof heap o t name cb)
          (pairref weakkey weakvalue n) out.
Proof.
  intros He. destruct (enumpair_parts _ _ _ _ _ He) as [[-> ->]|(Hl & ks & vs & -> & Hk & Hv)].
  - constructor.
  - unfold pairref. rewrite Hl. apply Forall2_app.
    + eapply Forall2_impl; [apply enumkey_edges; exact Hk|].
      intros t cb Hcb. exists "[key]". exact Hcb.
    + apply enumvalue_edges. exact Hv.
Qed.

(** The callbacks of the hash part are those of its nodes, in order. *)
Lemma enumpairs_nodes (o : ptr) (h : LuaTable) (wk wv : bool) (es : list Callback) :
  has_nodes h = true → weakmode heap g h = Ok (wk, wv) →
  enumpairs heap g o h = Ok es →
  ∃ outs, Forall2 (fun n out => enumpair heap g o wk wv n = Ok out) (hashnodes h) outs
          ∧ es = concat outs.
Proof.
  intros Hn Hw He. unfold enumpairs in He. rewrite Hn, Hw in He. simpl in He.
  destruct (has_nodes_Nodes h Hn) as [ns Hns].
  rewrite (hashnodes_nodes h ns Hns).
  apply (emit_loop_index_inv ns (enumpair heap g o wk wv) _ 0).
  rewrite <- He. unfold emit_range. rewrite Z.sub_0_r.
  apply emit_loop_ext. intros j. unfold node_at. rewrite Hns. reflexivity.
Qed.

Lemma enumpairs_edges (o : ptr) (h : LuaTable) (wk wv : bool) (es : list Callback) :
  has_nodes h = true → weakmode heap g h = Ok (wk, wv) →
  enumpairs heap g o h = Ok es →
  Forall2 (fun t cb => ∃ name, edgeof heap o t name cb) (pairrefs wk wv h) es.
Proof.
  intros Hn Hw He. unfold pairrefs. rewrite Hn.
  destruct (enumpairs_nodes _ _ _ _ _ Hn Hw He) as (outs & Hall & ->).
  rewrite flat_map_concat_map. apply Forall2_concat2.
  apply Forall2_fmap_l. eapply Forall2_impl; [exact Hall|].
  intros n out. apply enumpair_edges.
Qed.

Lemma pairref_sublist (wk wv : bool) (n : LuaNode) :
  pairref wk wv n `sublist_of` pairref false false n.
Proof.
  unfold pairref. destruct (ttisnil (gval n)); [constructor|].
  apply sublist_app; [destruct wk | destruct wv]; try reflexivity; apply sublist_nil_l.
Qed.

Lemma pairrefs_sublist (wk wv : bool) (h : LuaTable) :
  pairrefs wk wv h `sublist_of` pairrefs false false h.
Proof.
  unfold pairrefs. destruct (has_nodes h); [|constructor].
  induction (hashnodes h) as [|n ns IH]; simpl; [constructor|].
  apply sublist_app; [apply pairref_sublist | exact IH].
Qed.

(** *** Whole tables *)

Lemma dumprefs_pointers (data : list TValue) (size : Z) (out : list Token) :
  dumprefs data size = Ok out → pointers out = gcrefs data size.
Proof.
  unfold dumprefs, gcrefs. intros Hd.
  apply bind_Ok in Hd as (r & Hr & Hd). injection Hd as <-.
  rewrite <- (drop_0 data) at 1.
  eapply (dump_loop_pointers data _ gcref _ 0 true r); [|exact Hr].
  intros v first r' Hv. cbv beta in Hv.
  destruct (iscollectable v) eqn:Hc.
  - ok_inv. subst. cbn [fst]. use_gcref.
    rewrite pointers_app. destruct first; reflexivity.
  - injection Hv as <-. rewrite (gcref_not_collectable _ Hc). reflexivity.
Qed.

Lemma enumedges_edges (o : ptr) (data : list TValue) (size : Z) (name : string)
    (out : list Callback) :
  enumedges heap o data size name = Ok out →
  Forall2 (fun t cb => edgeof heap o t name cb) (gcrefs data size) out.
Proof.
  unfold enumedges, emit_range, gcrefs. rewrite Z.sub_0_r. intros He.
  apply (emit_loop_index_inv data _ _ 0) in He as (outs & Hall & ->).
  rewrite drop_0 in Hall. rewrite flat_map_concat_map.
  apply Forall2_concat2, Forall2_fmap_l.
  eapply Forall2_impl; [exact Hall|]. intros v out Hv. cbv beta in Hv.
  unfold compose. destruct (iscollectable v) eqn:Hc.
  - ok_inv. use_gcref.
    apply enumedge_edgeof in Hv as (cb & -> & Hcb). repeat constructor. exact Hcb.
  - injection Hv as <-. rewrite (gcref_not_collectable _ Hc). constructor.
Qed.

Lemma dumptable_pointers (obj : GCObject) (h : LuaTable) (out : list Token) :
  dumptable obj h = Ok out →
  pointers out
  = pairrefs false false h ++ gcrefs (array h) (sizearray h) ++ nonnull (h_metatable h).
Proof.
  unfold dumptable. intros Hd.
  apply bind_Ok in Hd as (ps & Hps & Hd). apply bind_Ok in Hd as (arr & Harr & Hd).
  cbv beta zeta in Hd. apply Ok_inj in Hd as <-. rewrite !pointers_app.
  assert (Hp : pointers ps = pairrefs false false h).
  { destruct (has_nodes h) eqn:Hn.
    - apply bind_Ok in Hps as (ps' & Hps' & Hps). cbv beta in Hps.
      apply Ok_inj in Hps as <-.
      rewrite !pointers_app, (dumppairs_pointers h ps' Hn Hps').
      change (pointers (fprintf ",'pairs':[" [])) with (@nil ptr).
      change (pointers (fprintf "]" [])) with (@nil ptr).
      rewrite app_nil_r. reflexivity.
    - injection Hps as <-. unfold pairrefs. rewrite Hn. reflexivity. }
  assert (Ha : pointers arr = gcrefs (array h) (sizearray h)).
  { destruct (sizearray h =? 0) eqn:Hz; cbn [negb] in Harr.
    - apply Ok_inj in Harr as <-. apply Z.eqb_eq in Hz. rewrite Hz. reflexivity.
    - apply bind_Ok in Harr as (rs & Hrs & Harr). cbv beta in Harr.
      apply Ok_inj in Harr as <-.
      rewrite !pointers_app, (dumprefs_pointers _ _ _ Hrs).
      change (pointers (fprintf ",'array':[" [])) with (@nil ptr).
      change (pointers (fprintf "]" [])) with (@nil ptr).
      rewrite app_nil_r. reflexivity. }
  rewrite Hp, Ha. unfold nonnull.
  change (pointers (fprintf "}" [])) with (@nil ptr).
  change (pointers (fprintf "{'type':'table','cat':%d,'size':%d" _)) with (@nil ptr).
  destruct (h_metatable h =? NULL); cbn [negb]; rewrite ?pointers_app, ?app_nil_r;
    reflexivity.
Qed.

Lemma enumtable_edges (o : ptr) (h : LuaTable) (wk wv : bool) (out : list Callback) :
  (has_nodes h = true → weakmode heap g h = Ok (wk, wv)) →
  enumtable heap g o h = Ok out →
  ∃ nd edges,
    out = nd :: edges ∧ nodeof heap o nd
    ∧ Forall2 (fun t cb => ∃ name, edgeof heap o t name cb)
        (pairrefs wk wv h ++ gcrefs (array h) (sizearray h) ++ nonnull (h_metatable h))
        edges.
Proof.
  unfold enumtable. intros Hw He.
  apply bind_Ok in He as (reg & _ & He). apply bind_Ok in He as (nd & Hnd & He).
  apply bind_Ok in He as (ps & Hps & He). apply bind_Ok in He as (arr & Harr & He).
  apply bind_Ok in He as (mt & Hmt & He). cbv beta zeta in He. injection He as <-.
  apply enumnode_nodeof in Hnd as (n & -> & Hn).
  exists n, (ps ++ arr ++ mt). split; [reflexivity|]. split; [exact Hn|].
  apply Forall2_app; [|apply Forall2_app].
  - destruct (has_nodes h) eqn:Hhn.
    + eapply enumpairs_edges; eauto.
    + unfold enumpairs in Hps. rewrite Hhn in Hps. injection Hps as <-.
      unfold pairrefs. rewrite Hhn. constructor.
  - destruct (Z.eqb_spec (sizearray h) 0) as [Hz|Hz]; simpl in Harr.
    + injection Harr as <-. rewrite Hz. constructor.
    + eapply Forall2_impl; [apply enumedges_edges; exact Harr|].
      intros t cb Hcb. exists "array". exact Hcb.
  - unfold nonnull. destruct (h_metatable h =? NULL); simpl in Hmt.
    + injection Hmt as <-. constructor.
    + apply enumedge_edgeof in Hmt as (cb & -> & Hcb). repeat constructor.
      exists "metatable". exact Hcb.
Qed.

End PairFacts.

Lemma strchr_cstr (s : string) (c : ascii) :
  c ≠ NUL → (strchr s c = true ↔ c ∈ list_ascii_of_string (cstr s)).
Proof.
  intros Hc. induction s as [|a s IH]; simpl.
  - destruct (Ascii.eqb_spec c NUL); [contradiction|].
    split; [discriminate | intros Hin; inversion Hin].
  - destruct (Ascii.eqb_spec a c) as [->|Hac].
    + destruct (Ascii.eqb_spec c NUL); [contradiction|].
      split; [intros _; simpl; left | reflexivity].
    + destruct (Ascii.eqb_spec a NUL) as [->|Ha]; simpl.
      * split; [discriminate | intros Hin; inversion Hin].
      * rewrite IH. rewrite elem_of_cons. split; [tauto|].
        intros [Heq|Hin]; [congruence | exact Hin].
Qed.

Lemma node_at_hashnodes (h : LuaTable) (i : Z) (n : LuaNode) :
  has_nodes h = true → 0 ≤ i < sizenode h → node_at h i = Ok n →
  hashnodes h !! Z.to_nat i = Some n.
Proof.
  intros Hn Hi Hat. destruct (has_nodes_Nodes h Hn) as [ns Hns].
  unfold hashnodes, node_at in *. rewrite Hns in *.
  apply index_Ok in Hat as [_ Hat].
  rewrite lookup_take_lt by lia. exact Hat.
Qed.

Lemma pairrefs_shorter `{Headers} (wk wv : bool) (h : LuaTable) (n : LuaNode) :
  has_nodes h = true → n ∈ hashnodes h → ttisnil (gval n) = false →
  (wk = true ∧ gcref (gkey n) ≠ []) ∨ (wv = true ∧ gcref (gval n) ≠ []) →
  (length (pairrefs wk wv h) < length (pairrefs false false h))%nat.
Proof.
  intros Hn Hin Hlive Hweak. unfold pairrefs. rewrite Hn.
  induction (hashnodes h) as [|m ms IH]; [inversion Hin|].
  simpl. rewrite !length_app.
  pose proof (sublist_length _ _ (pairref_sublist wk wv m)) as Hm.
  assert (Hms : (length (flat_map (pairref wk wv) ms)
                 ≤ length (flat_map (pairref false false) ms))%nat).
  { clear. induction ms as [|x xs IHx]; simpl; [lia|]. rewrite !length_app.
    pose proof (sublist_length _ _ (pairref_sublist wk wv x)). lia. }
  apply elem_of_cons in Hin as [<-|Hin]; [|specialize (IH Hin); lia].
  assert ((length (pairref wk wv n) < length (pairref false false n))%nat); [|lia].
  unfold pairref. rewrite Hlive. rewrite !length_app.
  destruct Hweak as [[-> Hk]|[-> Hv]].
  - destruct (gcref (gkey n)); [contradiction|]. destruct wv; simpl; lia.
  - destruct (gcref (gval n)); [contradiction|]. destruct wk; simpl; lia.
Qed.

(** C9.  The dump of a table refers to the key and to the value of every
    entry of the hash part, to the elements of the array part and to the
    metatable; it is computed from the table alone, without a look at the
    metatable or at the collector, so a weak mode cannot change it.  The
    enumeration makes an edge for each of these references except those of a
    weak side of the entries: what it reports of the hash part is a sublist
    of what the dump reports, nothing when both sides are weak, the values
    alone under weak keys and the keys alone under weak values; it is a
    shorter list as soon as an entry has a collectable object on a weak
    side. *)
Theorem dump_and_enum_on_weak_tables `{Headers} (heap : gmap Z GCObject)
    (g : global_State) (o : ptr) (obj : GCObject) (h : LuaTable) (wk wv : bool) :
  (has_nodes h = true → weakmode heap g h = Ok (wk, wv)) →
  (∀ out, dumptable obj h = Ok out →
     pointers out
     = pairrefs false false h ++ gcrefs (array h) (sizearray h)
       ++ nonnull (h_metatable h))
  ∧ (∀ out, enumtable heap g o h = Ok out →
     ∃ nd edges,
       out = nd :: edges ∧ nodeof heap o nd
       ∧ Forall2 (fun t cb => ∃ name, edgeof heap o t name cb)
           (pairrefs wk wv h ++ gcrefs (array h) (sizearray h)
            ++ nonnull (h_metatable h))
           edges)
  ∧ pairrefs wk wv h `sublist_of` pairrefs false false h
  ∧ (∀ n, pairref true true n = [])
  ∧ (∀ n, ttisnil (gval n) = false →
       pairref true false n = gcref (gval n)
       ∧ pairref false true n = gcref (gkey n)
       ∧ pairref false false n = gcref (gkey n) ++ gcref (gval n))
  ∧ (∀ n, has_nodes h = true → n ∈ hashnodes h → ttisnil (gval n) = false →
       (wk = true ∧ gcref (gkey n) ≠ []) ∨ (wv = true ∧ gcref (gval n) ≠ []) →
       (length (pairrefs wk wv h) < length (pairrefs false false h))%nat).
Proof.
  intros Hw. split; [|split; [|split; [|split; [|split]]]];
    [| | | | |intros n; apply pairrefs_shorter].
  - intros out. apply dumptable_pointers.
  - intros out. apply enumtable_edges. exact Hw.
  - apply pairrefs_sublist.
  - intros n. unfold pairref. destruct (ttisnil (gval n)); reflexivity.
  - intros n Hn. unfold pairref. rewrite Hn. simpl. rewrite app_nil_r. auto.
Qed.

(** For the table with weak keys the dump refers to the key, to the value
    and to the metatable, the enumeration to the value and to the metatable
    only. *)
Lemma dump_and_enum_on_weak_tables_witness :
  (∃ out, dumptable (H := luau64) (mkGCObject (gray_ LUA_TTABLE) (U_h weaktable))
            weaktable = Ok out
          ∧ pointers out = [128; 144; 96])
  ∧ (∃ nd edges,
       enumtable (H := luau64) (weakheap "k") (state 0 []) 64 weaktable = Ok (nd :: edges)
       ∧ Forall2 (fun t cb => ∃ name, edgeof (H := luau64) (weakheap "k") 64 t name cb)
           [144; 96] edges).
Proof.
  pose proof (dump_and_enum_on_weak_tables (H := luau64) (weakheap "k") (state 0 []) 64
                (mkGCObject (gray_ LUA_TTABLE) (U_h weaktable)) weaktable true false
                (fun _ => eq_refl)) as (Hdump & Henum & _).
  split.
  - eexists. split; [vm_compute; reflexivity|]. apply Hdump. vm_compute. reflexivity.
  - destruct (Henum [CbNode 64 LUA_TTABLE 0 80 None; CbEdge 64 144 "[table]";
                     CbEdge 64 96 "metatable"] ltac:(vm_compute; reflexivity))
      as (nd & edges & Ho & _ & He).
    exists nd, edges. split; [|exact He]. rewrite <- Ho. vm_compute. reflexivity.
Defined.

(** *** The entries of a table in the enumeration *)

Lemma cstr_no_nul (s : string) : NUL ∉ list_ascii_of_string s → cstr s = s.
Proof.
  induction s as [|a s IH]; [reflexivity|]. simpl. intros Hn.
  destruct (Ascii.eqb_spec a NUL) as [->|_]; [contradiction Hn; left|].
  rewrite IH; [reflexivity|]. intros Hin. apply Hn. right. exact Hin.
Qed.

Lemma take_chars_all (n : nat) (s : string) :
  (String.length s ≤ n)%nat → take_chars n s = s.
Proof.
  revert n. induction s as [|a s IH]; intros n Hn; [destruct n; reflexivity|].
  simpl in Hn. destruct n as [|n]; [lia|]. simpl. rewrite IH by lia. reflexivity.
Qed.

Lemma length_append (a b : string) :
  String.length (a +:+ b) = (String.length a + String.length b)%nat.
Proof.
  induction a as [|c a IH]; [reflexivity|].
  change (S (String.length (a +:+ b)) = S (String.length a + String.length b)).
  rewrite IH. reflexivity.
Qed.

Lemma length_bracketed (s : string) :
  String.length ("[" +:+ s +:+ "]") = S (S (String.length s)).
Proof. rewrite !length_append. simpl. lia. Qed.

Section EntryFacts.
Context `{Headers}.
Variable heap : gmap Z GCObject.
Variable g : global_State.

Lemma weakmode_string (h : LuaTable) (mode : TValue) (s : string) :
  gfasttm_TM_MODE heap g (h_metatable h) = Some mode →
  ttisstring mode = true → svalue heap mode = Ok s →
  weakmode heap g h = Ok (strchr s "k", strchr s "v").
Proof. intros Hmode Hstr Hs. unfold weakmode. rewrite Hmode, Hstr, Hs. reflexivity. Qed.

Lemma weakmode_none (h : LuaTable) :
  gfasttm_TM_MODE heap g (h_metatable h) = None
  ∨ (∃ mode, gfasttm_TM_MODE heap g (h_metatable h) = Some mode
             ∧ ttisstring mode = false) →
  weakmode heap g h = Ok (false, false).
Proof.
  unfold weakmode. intros [->|(mode & -> & ->)]; reflexivity.
Qed.

Lemma enumvalue_labelled (o : ptr) (weakvalue : bool) (n : LuaNode)
    (out : list Callback) :
  enumvalue heap g o weakvalue n = Ok out →
  Forall2 (fun t cb => ∃ name, valuelabel heap g n name ∧ edgeof heap o t name cb)
          (if weakvalue then [] else gcref (gval n)) out.
Proof.
  unfold enumvalue, valuelabel. destruct weakvalue; simpl.
  - intros Ho. apply Ok_inj in Ho as <-. constructor.
  - destruct (iscollectable (gval n)) eqn:Hc.
    + intros Ho.
      destruct (ttisstring (gkey n)); [|destruct (ttisnumber (gkey n))].
      * apply bind_Ok in Ho as (v & Hv & Ho). apply bind_Ok in Ho as (ks & Hks & Ho).
        rewrite (gcvalue_gcref _ _ Hc Hv).
        apply enumedge_edgeof in Ho as (cb & -> & Hcb). repeat constructor.
        exists (cstr ks). split; [exists ks; split; [exact Hks | reflexivity] | exact Hcb].
      * apply bind_Ok in Ho as (d & Hd & Ho). apply bind_Ok in Ho as (v & Hv & Ho).
        rewrite (gcvalue_gcref _ _ Hc Hv).
        apply enumedge_edgeof in Ho as (cb & -> & Hcb). repeat constructor.
        exists (snprintf 32 (fmt_g14 d)).
        split; [exists d; split; [exact Hd | reflexivity] | exact Hcb].
      * apply bind_Ok in Ho as (tn & Htn & Ho). apply bind_Ok in Ho as (s & Hs & Ho).
        apply bind_Ok in Ho as (v & Hv & Ho).
        rewrite (gcvalue_gcref _ _ Hc Hv).
        apply enumedge_edgeof in Ho as (cb & -> & Hcb). repeat constructor.
        exists (snprintf 32 ("[" +:+ cstr s +:+ "]")).
        split; [exists tn, s; repeat split; assumption | exact Hcb].
    + intros Ho. apply Ok_inj in Ho as <-. rewrite (gcref_not_collectable _ Hc).
      constructor.
Qed.

Lemma enumpair_entry (o : ptr) (wk wv : bool) (n : LuaNode) (e : list Callback) :
  enumpair heap g o wk wv n = Ok e → entryedges heap g o wk wv n e.
Proof.
  intros He. unfold entryedges, keyrefs, valuerefs.
  destruct (enumpair_parts heap g _ _ _ _ _ He)
    as [[-> Hnone]|(Hl & ks & vs & -> & Hk & Hv)].
  - exists [], []. split; [reflexivity|]. unfold pairref in Hnone.
    destruct (ttisnil (gval n)); simpl; [split; constructor|].
    apply app_eq_nil in Hnone as [Hk Hv]. rewrite Hk, Hv.
    split; constructor.
  - exists ks, vs. rewrite Hl. simpl. split; [reflexivity|].
    split; [apply enumkey_edges; exact Hk | apply enumvalue_labelled; exact Hv].
Qed.

(** The callbacks of a table: its node, what its entries stand for, in the
    order of the hash part, the edges to the elements of the array part and
    the edge to the metatable. *)
Lemma enumtable_entries (o : ptr) (h : LuaTable) (out : list Callback) :
  enumtable heap g o h = Ok out →
  ∃ nd outs arr mt,
    out = nd :: concat outs ++ arr ++ mt
    ∧ nodeof heap o nd
    ∧ (has_nodes h = false → outs = [])
    ∧ (has_nodes h = true →
       ∃ wk wv, weakmode heap g h = Ok (wk, wv)
                ∧ Forall2 (entryedges heap g o wk wv) (hashnodes h) outs)
    ∧ Forall2 (fun t cb => edgeof heap o t "array" cb)
        (gcrefs (array h) (sizearray h)) arr
    ∧ Forall2 (fun t cb => edgeof heap o t "metatable" cb)
        (nonnull (h_metatable h)) mt.
Proof.
  unfold enumtable. intros He.
  apply bind_Ok in He as (reg & _ & He). apply bind_Ok in He as (nd & Hnd & He).
  apply bind_Ok in He as (ps & Hps & He). apply bind_Ok in He as (arr & Harr & He).
  apply bind_Ok in He as (mt & Hmt & He). cbv beta zeta in He. apply Ok_inj in He as <-.
  apply enumnode_nodeof in Hnd as (n & -> & Hn).
  assert (Harr' : Forall2 (fun t cb => edgeof heap o t "array" cb)
                    (gcrefs (array h) (sizearray h)) arr).
  { destruct (Z.eqb_spec (sizearray h) 0) as [Hz|Hz]; simpl in Harr.
    - apply Ok_inj in Harr as <-. rewrite Hz. constructor.
    - apply enumedges_edges. exact Harr. }
  assert (Hmt' : Forall2 (fun t cb => edgeof heap o t "metatable" cb)
                   (nonnull (h_metatable h)) mt).
  { unfold nonnull. destruct (h_metatable h =? NULL); simpl in Hmt.
    - apply Ok_inj in Hmt as <-. constructor.
    - apply enumedge_edgeof in Hmt as (cb & -> & Hcb). repeat constructor. exact Hcb. }
  destruct (has_nodes h) eqn:Hhn.
  - assert (Hw : ∃ wk wv, weakmode heap g h = Ok (wk, wv)).
    { unfold enumpairs in Hps. rewrite Hhn in Hps.
      apply bind_Ok in Hps as ([wk wv] & Hw & _). eauto. }
    destruct Hw as (wk & wv & Hw).
    destruct (enumpairs_nodes heap g o h wk wv ps Hhn Hw Hps) as (outs & Hall & ->).
    exists n, outs, arr, mt. split; [reflexivity|]. split; [exact Hn|].
    split; [discriminate|]. split; [|split; assumption].
    intros _. exists wk, wv. split; [exact Hw|].
    eapply Forall2_impl; [exact Hall|]. intros x e. apply enumpair_entry.
  - unfold enumpairs in Hps. rewrite Hhn in Hps. apply Ok_inj in Hps as <-.
    exists n, [], arr, mt. split; [reflexivity|]. split; [exact Hn|].
    split; [reflexivity|]. split; [discriminate | split; assumption].
Qed.

(** The edge to the value of an entry of a table that is not weak-valued is
    among the callbacks of the table, under the label of the entry. *)
Lemma enumtable_value_edge (o : ptr) (h : LuaTable) (out : list Callback) (wk : bool)
    (i : Z) (n : LuaNode) (v : ptr) :
  enumtable heap g o h = Ok out → has_nodes h = true →
  weakmode heap g h = Ok (wk, false) →
  0 ≤ i < sizenode h → node_at h i = Ok n → ttisnil (gval n) = false →
  iscollectable (gval n) = true → gcvalue (gval n) = Ok v →
  ∃ name cb, valuelabel heap g n name ∧ cb ∈ out ∧ edgeof heap o v name cb.
Proof.
  intros He Hhn Hw Hi Hnode Hlive Hc Hv.
  destruct (enumtable_entries o h out He)
    as (nd & outs & arr & mt & -> & _ & _ & Hentries & _ & _).
  destruct (Hentries Hhn) as (wk' & wv' & Hw' & Hall).
  rewrite Hw in Hw'. apply Ok_inj in Hw'. injection Hw' as <- <-.
  pose proof (node_at_hashnodes h i n Hhn Hi Hnode) as Hlook.
  destruct (Forall2_lookup_l _ _ _ _ _ Hall Hlook) as (e & He' & (ks & vs & -> & _ & Hvs)).
  unfold valuerefs in Hvs. rewrite Hlive, (gcvalue_gcref _ _ Hc Hv) in Hvs. simpl in Hvs.
  apply Forall2_cons_inv_l in Hvs as (cb & vs' & (name & Hname & Hcb) & Hrest & ->).
  exists name, cb. split; [exact Hname|]. split; [|exact Hcb].
  apply elem_of_cons. right. apply elem_of_app. left.
  apply list_elem_of_In, in_concat. exists (ks ++ cb :: vs'). split.
  - apply list_elem_of_In. eapply list_elem_of_lookup_2. exact He'.
  - apply in_or_app. right. left. reflexivity.
Qed.

End EntryFacts.

(** C3, as the enumeration has it.  The weak flags of a table are read off
    the mode string that [gfasttm] finds in its metatable, with [strchr]:
    the keys are weak when [k] occurs in the string before any NUL, the values
    are weak when [v] does, and neither is weak when there is no mode or
    when the mode is not a string.  The callbacks of a table are its node,
    then what its entries stand for, in the order of the hash part, then the
    edges of the array part and the edge to the metatable.  An entry whose
    value is nil stands for nothing; another entry stands for the edge to its
    key when the key is collectable and the keys are not weak, then for the
    edge to its value when the value is collectable and the values are not
    weak: a weak-keyed table has no edge to a key, a weak-valued table no edge
    to a value of an entry.  In a table that is not weak-valued the edge to
    the collectable value of an entry is among the callbacks of the table,
    labelled with the text of the key when the key is a string, with the
    [%.14g] form of the key when it is a number, and otherwise with the name
    of the type of the key between brackets, as far as it fits the buffer of
    32 bytes. *)
Theorem enumtable_weak_entries `{Headers} (heap : gmap Z GCObject) (g : global_State)
    (o : ptr) (h : LuaTable) :
  (∀ mode s, gfasttm_TM_MODE heap g (h_metatable h) = Some mode →
     ttisstring mode = true → svalue heap mode = Ok s →
     weakmode heap g h = Ok (strchr s "k", strchr s "v")
     ∧ (strchr s "k" = true ↔ "k"%char ∈ list_ascii_of_string (cstr s))
     ∧ (strchr s "v" = true ↔ "v"%char ∈ list_ascii_of_string (cstr s)))
  ∧ (gfasttm_TM_MODE heap g (h_metatable h) = None
     ∨ (∃ mode, gfasttm_TM_MODE heap g (h_metatable h) = Some mode
                ∧ ttisstring mode = false) →
     weakmode heap g h = Ok (false, false))
  ∧ (∀ out, enumtable heap g o h = Ok out →
       ∃ nd outs arr mt,
         out = nd :: concat outs ++ arr ++ mt
         ∧ nodeof heap o nd
         ∧ (has_nodes h = false → outs = [])
         ∧ (has_nodes h = true →
            ∃ wk wv,
              weakmode heap g h = Ok (wk, wv)
              ∧ Forall2 (entryedges heap g o wk wv) (hashnodes h) outs
              ∧ (wk = true →
                 Forall2 (fun n e =>
                            Forall2 (fun t cb => ∃ name, valuelabel heap g n name
                                                         ∧ edgeof heap o t name cb)
                              (valuerefs wv n) e)
                   (hashnodes h) outs)
              ∧ (wv = true →
                 Forall2 (fun n e =>
                            Forall2 (fun t cb => edgeof heap o t "[key]" cb)
                              (keyrefs wk n) e)
                   (hashnodes h) outs)
              ∧ (wk = true → wv = true → concat outs = []))
         ∧ Forall2 (fun t cb => edgeof heap o t "array" cb)
             (gcrefs (array h) (sizearray h)) arr
         ∧ Forall2 (fun t cb => edgeof heap o t "metatable" cb)
             (nonnull (h_metatable h)) mt)
  ∧ (∀ out wk i n v, enumtable heap g o h = Ok out → has_nodes h = true →
       weakmode heap g h = Ok (wk, false) →
       0 ≤ i < sizenode h → node_at h i = Ok n → ttisnil (gval n) = false →
       iscollectable (gval n) = true → gcvalue (gval n) = Ok v →
       (∀ ks, ttisstring (gkey n) = true → svalue heap (gkey n) = Ok ks →
          (∃ cb, cb ∈ out ∧ edgeof heap o v (cstr ks) cb)
          ∧ (NUL ∉ list_ascii_of_string ks → cstr ks = ks))
       ∧ (∀ d, ttisstring (gkey n) = false → ttisnumber (gkey n) = true →
          nvalue (gkey n) = Ok d →
          ∃ cb, cb ∈ out ∧ edgeof heap o v (snprintf 32 (fmt_g14 d)) cb)
       ∧ (∀ tn s, ttisstring (gkey n) = false → ttisnumber (gkey n) = false →
          index (ttname g) (lua_Type_value (ttype (gkey n))) = Ok tn →
          getstr heap tn = Ok s →
          (∃ cb, cb ∈ out
                 ∧ edgeof heap o v (snprintf 32 ("[" +:+ cstr s +:+ "]")) cb)
          ∧ ((String.length (cstr s) ≤ 29)%nat →
             snprintf 32 ("[" +:+ cstr s +:+ "]") = "[" +:+ cstr s +:+ "]"))).
Proof.
  split; [|split; [apply weakmode_none|split]].
  - intros mode s Hmode Hstr Hs. split; [eapply weakmode_string; eassumption|].
    split; apply strchr_cstr; discriminate.
  - intros out He.
    destruct (enumtable_entries heap g o h out He)
      as (nd & outs & arr & mt & -> & Hnd & Hnone & Hentries & Harr & Hmt).
    exists nd, outs, arr, mt. split; [reflexivity|]. split; [exact Hnd|].
    split; [exact Hnone|]. split; [|split; assumption].
    intros Hhn. destruct (Hentries Hhn) as (wk & wv & Hw & Hall).
    exists wk, wv. split; [exact Hw|]. split; [exact Hall|].
    assert (Hkeys : wk = true →
              Forall2 (fun n e =>
                         Forall2 (fun t cb => ∃ name, valuelabel heap g n name
                                                      ∧ edgeof heap o t name cb)
                           (valuerefs wv n) e)
                (hashnodes h) outs).
    { intros ->. eapply Forall2_impl; [exact Hall|].
      intros n e (ks & vs & -> & Hks & Hvs). unfold keyrefs in Hks.
      rewrite orb_true_r in Hks. apply Forall2_nil_inv_l in Hks as ->. exact Hvs. }
    assert (Hvalues : wv = true →
              Forall2 (fun n e =>
                         Forall2 (fun t cb => edgeof heap o t "[key]" cb) (keyrefs wk n) e)
                (hashnodes h) outs).
    { intros ->. eapply Forall2_impl; [exact Hall|].
      intros n e (ks & vs & -> & Hks & Hvs). unfold valuerefs in Hvs.
      rewrite orb_true_r in Hvs. apply Forall2_nil_inv_l in Hvs as ->.
      rewrite app_nil_r. exact Hks. }
    split; [exact Hkeys|]. split; [exact Hvalues|].
    intros -> ->. revert Hall. generalize (hashnodes h) outs. clear.
    induction 1 as [|n e ns es (ks & vs & -> & Hks & Hvs) _ IH]; [reflexivity|].
    unfold keyrefs in Hks. unfold valuerefs in Hvs. rewrite orb_true_r in Hks, Hvs.
    apply Forall2_nil_inv_l in Hks as ->. apply Forall2_nil_inv_l in Hvs as ->.
    exact IH.
  - intros out wk i n v He Hhn Hw Hi Hnode Hlive Hc Hv.
    destruct (enumtable_value_edge heap g o h out wk i n v He Hhn Hw Hi Hnode Hlive Hc Hv)
      as (name & cb & Hname & Hin & Hcb).
    unfold valuelabel in Hname. split; [|split].
    + intros ks Hstr Hks. rewrite Hstr in Hname. destruct Hname as (ks' & Hks' & ->).
      assert (ks' = ks) as -> by congruence.
      split; [eauto | apply cstr_no_nul].
    + intros d Hstr Hnum Hd. rewrite Hstr, Hnum in Hname.
      destruct Hname as (d' & Hd' & ->). assert (d' = d) as -> by congruence. eauto.
    + intros tn s Hstr Hnum Htn Hs. rewrite Hstr, Hnum in Hname.
      destruct Hname as (tn' & s' & Htn' & Hs' & ->).
      assert (tn' = tn) as -> by congruence. assert (s' = s) as -> by congruence.
      split; [eauto|]. intros Hlen. unfold snprintf. apply take_chars_all.
      rewrite length_bracketed. simpl. lia.
Qed.

(** The table whose mode is ["k"] is weak-keyed and gives the edge to the
    value and none to the key; the table whose mode is ["v"] gives the edge to
    the key alone; the entry of a table without metatable that has the key
    ["x"] gives an edge to its value labelled ["x"], the entry with the key
    [true] an edge labelled ["[boolean]"]. *)
Lemma enumtable_weak_entries_witness :
  weakmode (H := luau64) (weakheap "k") (state 0 []) weaktable = Ok (true, false)
  ∧ (∃ cb, cb ∈ [CbNode 64 LUA_TTABLE 0 112 None; CbEdge 64 104 "[key]";
                 CbEdge 64 144 "x"; CbEdge 64 144 "[boolean]"]
           ∧ edgeof (H := luau64) labelheap 64 144 "x" cb)
  ∧ enumobj (H := luau64) (mkFastFlags true) (weakheap "k") (state 0 []) 64
    = Ok [CbNode 64 LUA_TTABLE 0 80 None; CbEdge 64 144 "[table]";
          CbEdge 64 96 "metatable"]
  ∧ enumobj (H := luau64) (mkFastFlags true) (weakheap "v") (state 0 []) 64
    = Ok [CbNode 64 LUA_TTABLE 0 80 None; CbEdge 64 128 "[key]";
          CbEdge 64 96 "metatable"]
  ∧ enumobj (H := luau64) (mkFastFlags true) labelheap (state 0 []) 64
    = Ok [CbNode 64 LUA_TTABLE 0 112 None; CbEdge 64 104 "[key]";
          CbEdge 64 144 "x"; CbEdge 64 144 "[boolean]"].
Proof.
  split; [|split]; [| |repeat split; vm_compute; reflexivity].
  - exact (proj1 (proj1 (enumtable_weak_entries (H := luau64) (weakheap "k") (state 0 [])
                           64 weaktable)
                    (objvalue LUA_TSTRING 112) "k" eq_refl eq_refl eq_refl)).
  - pose proof (enumtable_weak_entries (H := luau64) labelheap (state 0 []) 64 labeltable)
      as (_ & _ & _ & Hlabel).
    assert (He : enumtable (H := luau64) labelheap (state 0 []) 64 labeltable
                 = Ok [CbNode 64 LUA_TTABLE 0 112 None; CbEdge 64 104 "[key]";
                       CbEdge 64 144 "x"; CbEdge 64 144 "[boolean]"])
      by (vm_compute; reflexivity).
    assert (Hw : weakmode (H := luau64) labelheap (state 0 []) labeltable
                 = Ok (false, false)) by (vm_compute; reflexivity).
    assert (Hi : 0 ≤ 0 < sizenode labeltable) by (vm_compute; split; congruence).
    destruct (Hlabel _ false 0 (entry (objvalue LUA_TSTRING 104) (objvalue LUA_TTABLE 144))
                144 He eq_refl Hw Hi eq_refl eq_refl eq_refl eq_refl)
      as (Hstring & _ & _).
    exact (proj1 (Hstring "x" eq_refl ltac:(vm_compute; reflexivity))).
Defined.

(** The mode string made of a NUL and of [k] contains [k], and the key edge of
    the table is reported all the same. *)
Lemma enumtable_key_edge_despite_k :
  gfasttm_TM_MODE (Headers := luau64) (weakheap nulk) (state 0 []) 96
  = Some (objvalue LUA_TSTRING 112)
  ∧ svalue (weakheap nulk) (objvalue LUA_TSTRING 112) = Ok nulk
  ∧ "k"%char ∈ list_ascii_of_string nulk
  ∧ enumobj (H := luau64) (mkFastFlags true) (weakheap nulk) (state 0 []) 64
    = Ok [CbNode 64 LUA_TTABLE 0 80 None; CbEdge 64 128 "[key]";
          CbEdge 64 144 "[table]"; CbEdge 64 96 "metatable"].
Proof.
  split; [vm_compute; reflexivity|]. split; [vm_compute; reflexivity|].
  split; [|vm_compute; reflexivity].
  apply list_elem_of_In. simpl. tauto.
Qed.

(** C10.  In a table that is not weak-keyed, an entry with a non-nil value
    and a collectable key gives an edge from the table to the key whose label
    is ["[key]"], whatever the type of the key; it is the first callback of
    the entry, before the edge to the value, and it is among the callbacks of
    the table.  No edge made for a key has another label, and the edge is made
    as soon as the table and the key are objects of the heap. *)
Theorem enumtable_key_label `{Headers} (heap : gmap Z GCObject) (g : global_State)
    (o : ptr) (h : LuaTable) (wv : bool) (i : Z) (n : LuaNode) :
  weakmode heap g h = Ok (false, wv) →
  0 ≤ i < sizenode h → node_at h i = Ok n →
  ttisnil (gval n) = false → iscollectable (gkey n) = true →
  (∀ pair, enumpair heap g o false wv n = Ok pair →
     ∃ kp cb vs, gcvalue (gkey n) = Ok kp ∧ pair = cb :: vs
       ∧ edgeof heap o kp "[key]" cb ∧ enumvalue heap g o wv n = Ok vs)
  ∧ (∀ out, enumtable heap g o h = Ok out →
     ∃ kp cb, gcvalue (gkey n) = Ok kp ∧ cb ∈ out ∧ edgeof heap o kp "[key]" cb)
  ∧ (∀ wk n' ks, enumkey heap o wk n' = Ok ks →
       Forall (fun cb => ∃ from to, cb = CbEdge from to "[key]") ks)
  ∧ (∀ kp obj kobj from to, gcvalue (gkey n) = Ok kp → o ≠ NULL → kp ≠ NULL →
       denotes heap from o obj → denotes heap to kp kobj →
       enumkey heap o false n = Ok [CbEdge from to "[key]"]).
Proof.
  intros Hw Hi Hat Hlive Hc.
  assert (Hn : has_nodes h = true).
  { unfold has_nodes, node_at in *. destruct (node h); [|reflexivity].
    destruct (i =? 0); [|discriminate]. apply Ok_inj in Hat as <-. discriminate. }
  assert (Hpair : ∀ pair, enumpair heap g o false wv n = Ok pair →
     ∃ kp cb vs, gcvalue (gkey n) = Ok kp ∧ pair = cb :: vs
       ∧ edgeof heap o kp "[key]" cb ∧ enumvalue heap g o wv n = Ok vs).
  { intros pair Hp. unfold enumpair in Hp. rewrite Hlive, Hc in Hp. simpl in Hp.
    apply bind_Ok in Hp as (ks & Hk & Hp). apply bind_Ok in Hp as (vs & Hv & Hp).
    apply Ok_inj in Hp as <-.
    unfold enumkey in Hk. rewrite Hc in Hk. simpl in Hk.
    apply bind_Ok in Hk as (kp & Hkp & Hk).
    apply enumedge_edgeof in Hk as (cb & -> & Hcb).
    exists kp, cb, vs. auto. }
  split; [exact Hpair|]. split; [|split].
  - intros out Hout. unfold enumtable in Hout.
    apply bind_Ok in Hout as (reg & _ & Hout). apply bind_Ok in Hout as (nd & _ & Hout).
    apply bind_Ok in Hout as (ps & Hps & Hout). apply bind_Ok in Hout as (arr & _ & Hout).
    apply bind_Ok in Hout as (mt & _ & Hout). cbv beta zeta in Hout.
    apply Ok_inj in Hout as <-.
    destruct (enumpairs_nodes heap g o h _ _ ps Hn Hw Hps) as (outs & Hall & ->).
    pose proof (node_at_hashnodes h i n Hn Hi Hat) as Hlook.
    destruct (Forall2_lookup_l _ _ _ _ _ Hall Hlook) as (pair & Hpl & Hp).
    destruct (Hpair pair Hp) as (kp & cb & vs & Hkp & -> & Hcb & _).
    exists kp, cb. split; [exact Hkp|]. split; [|exact Hcb].
    rewrite !elem_of_app. right. left.
    apply list_elem_of_In, in_concat. exists (cb :: vs). split.
    + apply list_elem_of_In. eapply list_elem_of_lookup_2. exact Hpl.
    + left. reflexivity.
  - intros wk n' ks Hk. apply enumkey_edges in Hk.
    induction Hk as [|t cb ts cbs (obj & from & tobj & to & -> & _) _ IH];
      constructor; eauto.
  - intros kp obj kobj from to Hkp Ho Hk Hfrom Hto.
    unfold enumkey. rewrite Hc, Hkp. simpl.
    eapply enumedge_denotes; eauto.
Qed.

(** The entries of the table of the example have a string and a boolean as
    keys; only the string is collectable, and its edge is labelled
    ["[key]"]. *)
Lemma enumtable_key_label_witness :
  ∃ out, enumtable (H := luau64) labelheap (state 0 []) 64 labeltable = Ok out
    ∧ ∃ kp cb, gcvalue (objvalue LUA_TSTRING 104) = Ok kp ∧ cb ∈ out
               ∧ edgeof (H := luau64) labelheap 64 kp "[key]" cb.
Proof.
  eexists. split; [vm_compute; reflexivity|].
  apply (proj1 (proj2 (enumtable_key_label (H := luau64) labelheap (state 0 []) 64
                         labeltable false 0
                         (entry (objvalue LUA_TSTRING 104) (objvalue LUA_TTABLE 144))
                         eq_refl ltac:(split; [lia | reflexivity])
                         eq_refl eq_refl eq_refl))).
  vm_compute. reflexivity.
Defined.

(** * Further properties *)

(** ** The validator: gray lists, upvalues, tables, closures, roots *)

Section MoreValidatorFacts.
Context `{Headers}.
Variable heap : gmap Z GCObject.
Variable g : global_State.

Lemma validategraylist_walk_members (n : nat) (o x : ptr) :
  validategraylist_walk heap n o = Ok tt → onlist heap o x →
  ∃ obj, heap !! x = Some obj ∧ isgray obj = true
         ∧ gch_tt (gch obj) ∈ [LUA_TTABLE; LUA_TFUNCTION; LUA_TTHREAD; LUA_TPROTO].
Proof.
  intros Hw Hon. revert n Hw.
  induction Hon as [o Ho|o obj next x Ho Hobj Hnext Hon IH]; intros n Hw.
  - destruct n as [|n]; simpl in Hw;
      (destruct (Z.eqb_spec o NULL); [contradiction|]); [discriminate|].
    ok_inv. exists a. split; [assumption|]. split; [assumption|].
    destruct (gch_tt (gch a)); try discriminate; rewrite !elem_of_cons; auto 10.
  - destruct n as [|n]; simpl in Hw;
      (destruct (Z.eqb_spec o NULL); [contradiction|]); [discriminate|].
    ok_inv. assert (a = obj) as -> by congruence.
    unfold gclistof in Hnext.
    destruct (gch_tt (gch obj)); try discriminate;
      destruct (body obj) eqn:Hbody; try discriminate;
      unfold gco2h, gco2cl, gco2th, gco2p in Hw; rewrite Hbody in Hw; simpl in Hw;
      injection Hnext as <-; exact (IH n Hw).
Qed.

Lemma validateopenupval_Ok (uv : ptr) (u : UpVal) :
  validateopenupval heap g uv = Ok u → upvalat heap uv = Some u ∧ openupvalok heap g uv.
Proof.
  unfold validateopenupval. intros Hv. ok_inv. subst.
  match goal with
  | E : (if ?b then _ else _) = Ok _ |- _ => destruct b eqn:Hprev; [|discriminate]
  end.
  ok_inv.
  repeat match goal with
  | E : (_ =? _) = true |- _ => apply Z.eqb_eq in E
  | E : negb _ = true |- _ => apply negb_true_iff in E
  | E : bool_decide _ = true |- _ => apply bool_decide_eq_true_1 in E
  end.
  match goal with
  | E : gco2uv ?a = Ok _ |- _ =>
      unfold gco2uv in E; destruct a as [hdr [| | | | | | |u']]; try discriminate;
      apply Ok_inj in E as ->
  end.
  split; [unfold upvalat; match goal with E : heap !! _ = _ |- _ => rewrite E end;
          reflexivity|].
  eexists _, _, _, _. repeat split; eauto.
Qed.

Lemma validatethreadupvals_members (n : nat) (o x : ptr) :
  validatethreadupvals heap g n o = Ok tt → onthreadlist heap o x →
  openupvalok heap g x.
Proof.
  intros Hw Hon. revert n Hw.
  induction Hon as [o Ho|o u x Ho Hu Hon IH]; intros n Hw;
    (destruct n as [|n]; simpl in Hw;
      (destruct (Z.eqb_spec o NULL); [contradiction|]); [discriminate|]);
    destruct (validateopenupval heap g o) as [u'| | |] eqn:Hv; try discriminate;
    apply validateopenupval_Ok in Hv as [Hat Hok]; [exact Hok|].
  assert (u' = u) as -> by congruence. exact (IH n Hw).
Qed.

Lemma validateuvring_members (n : nat) (o x : ptr) :
  validateuvring heap g n o = Ok tt → onring heap (uvhead_addr g) o x →
  openupvalok heap g x.
Proof.
  intros Hw Hon. revert n Hw.
  induction Hon as [o Ho|o u x Ho Hu Hon IH]; intros n Hw;
    (destruct n as [|n]; simpl in Hw;
      (destruct (Z.eqb_spec o (uvhead_addr g)); [contradiction|]); [discriminate|]);
    destruct (validateopenupval heap g o) as [u'| | |] eqn:Hv; try discriminate;
    apply validateopenupval_Ok in Hv as [Hat Hok]; [exact Hok|].
  assert (u' = u) as -> by congruence. exact (IH n Hw).
Qed.

Lemma validateref_tag (f : ptr) (v : TValue) :
  validateref heap g f v = Ok tt → iscollectable v = true →
  ∃ t tobj, value v = Vgc t ∧ heap !! t = Some tobj
            ∧ ttype v = gch_tt (gch tobj) ∧ isdead g tobj = false.
Proof.
  unfold validateref. intros Hv Hc. rewrite Hc in Hv. ok_inv.
  match goal with E : gcvalue v = Ok ?t |- _ =>
    unfold gcvalue in E; destruct (value v) eqn:Hval; try discriminate;
    apply Ok_inj in E; subst
  end.
  match goal with E : bool_decide _ = true |- _ => apply bool_decide_eq_true_1 in E end.
  apply validateobjref_Ok in Hv as (to & _ & Hto & Hlive & _).
  eexists _, _. repeat split; eauto. congruence.
Qed.

Lemma validatenode_Ok (o : ptr) (h : LuaTable) (i : Z) :
  validatenode heap g o h i = Ok tt →
  ∃ n, node_at h i = Ok n
       ∧ (ttype (gkey n) = LUA_TDEADKEY → ttisnil (gval n) = true)
       ∧ 0 ≤ i + gnext n < sizenode h
       ∧ (ttisnil (gval n) = false →
          validateref heap g o (gkey n) = Ok tt ∧ validateref heap g o (gval n) = Ok tt).
Proof.
  unfold validatenode. intros Hv. ok_inv.
  match goal with E : node_at h i = Ok ?n |- _ => exists n; split; [exact E|] end.
  repeat match goal with
  | E : _ || _ = true |- _ => apply orb_true_iff in E
  | E : _ && _ = true |- _ => apply andb_true_iff in E as [? ?]
  end.
  split; [|split; [lia|]].
  - intros Hdead.
    match goal with E : _ ∨ _ |- _ => destruct E as [E|E]; [|exact E];
      apply negb_true_iff, bool_decide_eq_false_1 in E; contradiction end.
  - intros Hnil. rewrite Hnil in Hv. simpl in Hv. ok_inv. auto.
Qed.

Lemma validateobj_live (o : ptr) (obj : GCObject) :
  heap !! o = Some obj → isdead g obj = false → validateobj heap g o = Ok tt →
  match gch_tt (gch obj), body obj with
  | LUA_TTABLE, U_h h => validatetable heap g o h = Ok tt
  | LUA_TFUNCTION, U_cl cl => validateclosure heap g o cl = Ok tt
  | LUA_TTHREAD, U_th th => validatestack heap g o th = Ok tt
  | LUA_TPROTO, U_p f => validateproto heap g o f = Ok tt
  | LUA_TUPVAL, U_uv uv => validateref heap g o (uv_v uv) = Ok tt
  | LUA_TUSERDATA, U_u _ | LUA_TSTRING, _ | LUA_TBUFFER, _ => True
  | _, _ => False
  end.
Proof.
  unfold validateobj. intros Hobj Hlive Hv.
  ok_inv. rewrite Hobj in Ha. injection Ha as <-. rewrite Hlive in Hv.
  destruct (gch_tt (gch obj)); try discriminate; try exact I;
    destruct (body obj) eqn:Hbody;
    unfold gco2h, gco2cl, gco2u, gco2th, gco2p, gco2uv in Hv;
    rewrite Hbody in Hv; simpl in Hv; try discriminate; try exact I; exact Hv.
Qed.

Lemma validateobj_values (o : ptr) (obj : GCObject) :
  heap !! o = Some obj → isdead g obj = false → validateobj heap g o = Ok tt →
  ∀ v, v ∈ valuesof obj → validateref heap g o v = Ok tt.
Proof.
  intros Hobj Hlive Hv v Hin.
  pose proof (validateobj_live o obj Hobj Hlive Hv) as Hk.
  unfold valuesof in Hin.
  destruct (gch_tt (gch obj)); try (inversion Hin; fail);
    destruct (body obj); try (inversion Hin; fail).
  - unfold validatetable in Hk. ok_inv.
    apply elem_of_app in Hin as [Hin|Hin].
    + match goal with
      | E : for_range 0 (sizearray _) _ = Ok _ |- _ =>
          exact (for_range_index _ _ _ E v Hin)
      end.
    + apply list_elem_of_In, in_flat_map in Hin as (n & Hn & Hin).
      apply list_elem_of_In in Hn, Hin.
      destruct (hashnodes_node_at _ _ Hn) as (i & Hi & Hnode).
      pose proof (proj1 (for_range_Ok _ _ _) Hk i Hi) as Hnv.
      apply validatenode_Ok in Hnv as (n' & Hn' & _ & _ & Hrefs).
      assert (n' = n) as -> by congruence.
      unfold pairvalues in Hin. destruct (ttisnil (gval n)); [inversion Hin|].
      destruct (Hrefs eq_refl) as [Hkey Hval].
      rewrite !elem_of_cons in Hin. destruct Hin as [->|[->|Hin]]; [assumption..|].
      inversion Hin.
  - unfold validateclosure in Hk. ok_inv. destruct (isC _).
    + exact (for_range_index _ _ _ Hk v Hin).
    + ok_inv. exact (for_range_index _ _ _ Hk v Hin).
  - unfold validateproto in Hk. ok_inv.
    match goal with
    | E : for_range 0 (sizek _) _ = Ok _ |- _ => exact (for_range_index _ _ _ E v Hin)
    end.
  - apply list_elem_of_singleton in Hin as ->. exact Hk.
Qed.

End MoreValidatorFacts.

(** X1.  After a pass of the validator made while the collector keeps its
    invariant, every object on the lists [weak], [gray] and [grayagain] is
    gray and is a table, a function, a thread or a prototype.  When the
    collector does not keep its invariant the lists are not walked at all. *)
Theorem graylists_are_gray `{Headers} (heap : gmap Z GCObject) (g : global_State) :
  (keepinvariant g = true → luaC_validate heap g = Ok tt →
     ∀ l x, l ∈ [weak g; gray g; grayagain g] → onlist heap l x →
       ∃ obj, heap !! x = Some obj ∧ isgray obj = true
              ∧ gch_tt (gch obj) ∈ [LUA_TTABLE; LUA_TFUNCTION; LUA_TTHREAD; LUA_TPROTO])
  ∧ (keepinvariant g = false → ∀ o, validategraylist heap g o = Ok tt).
Proof.
  split.
  - intros Hk Hv l x Hl Hon. unfold luaC_validate in Hv. ok_inv.
    unfold validategraylist in *. rewrite Hk in *. cbn [negb] in *.
    rewrite !elem_of_cons in Hl.
    destruct Hl as [->|[->|[->|Hl]]]; [..|inversion Hl];
      (eapply validategraylist_walk_members; [|exact Hon]; eassumption).
  - intros Hk o. unfold validategraylist. rewrite Hk. reflexivity.
Qed.

Lemma graylists_are_gray_witness :
  ∃ obj, grayheap !! 16 = Some obj ∧ isgray (Headers := luau64) obj = true
         ∧ gch_tt (gch obj) ∈ [LUA_TTABLE; LUA_TFUNCTION; LUA_TTHREAD; LUA_TPROTO].
Proof.
  apply (proj1 (graylists_are_gray (H := luau64) grayheap graystate) eq_refl
           ltac:(vm_compute; reflexivity) 64 16).
  - apply list_elem_of_In. simpl. tauto.
  - eapply onlist_next; [discriminate | reflexivity | reflexivity |].
    apply onlist_head. discriminate.
Defined.

(** X2.  In a thread that the validator accepts, every upvalue on the
    thread's list of open upvalues is an upvalue object that is open and
    not black, and its two neighbours in the ring of open upvalues point
    back at it. *)
Theorem validatestack_openupvalues `{Headers} (heap : gmap Z GCObject) (g : global_State)
    (o : ptr) (l : lua_State) (uv : ptr) :
  validatestack heap g o l = Ok tt → onthreadlist heap (openupval l) uv →
  openupvalok heap g uv.
Proof.
  unfold validatestack. intros Hv Hon. ok_inv.
  eapply validatethreadupvals_members; [|exact Hon]. eassumption.
Qed.

Lemma validatestack_openupvalues_witness :
  openupvalok (H := luau64) upvalheap ringstate 96.
Proof.
  apply (validatestack_openupvalues (H := luau64) upvalheap ringstate 64 upvalthread 96).
  - vm_compute. reflexivity.
  - apply onthreadlist_head. discriminate.
Defined.

(** X3.  After a pass of the validator, every upvalue met on the way from
    [uvhead.u.open.next] round to the sentinel [uvhead] is an upvalue object
    that is open and not black, and its two neighbours point back at it. *)
Theorem luaC_validate_uvring `{Headers} (heap : gmap Z GCObject) (g : global_State)
    (uv : ptr) :
  luaC_validate heap g = Ok tt →
  onring heap (uvhead_addr g) (open_next (uvhead g)) uv →
  openupvalok heap g uv.
Proof.
  unfold luaC_validate. intros Hv Hon. ok_inv.
  eapply validateuvring_members; [|exact Hon]. eassumption.
Qed.

Lemma luaC_validate_uvring_witness :
  openupvalok (H := luau64) upvalheap ringstate 96.
Proof.
  apply (luaC_validate_uvring (H := luau64) upvalheap ringstate 96).
  - vm_compute. reflexivity.
  - apply onring_head. discriminate.
Defined.

(** X4.  After a pass of the validator, every value stored in a live object
    that was visited (in the array or in an entry of a table, in the upvalues
    of a closure, in the constants of a prototype, in an upvalue) and that is
    collectable refers to an object of the heap that is not dead and whose
    tag is the tag of the value. *)
Theorem luaC_validate_value_tags `{Headers} (heap : gmap Z GCObject) (g : global_State)
    (o : ptr) (obj : GCObject) (v : TValue) :
  luaC_validate heap g = Ok tt →
  o ∈ mainthread g :: allgcopages g → heap !! o = Some obj → isdead g obj = false →
  v ∈ valuesof obj → iscollectable v = true →
  ∃ t tobj, value v = Vgc t ∧ heap !! t = Some tobj
            ∧ ttype v = gch_tt (gch tobj) ∧ isdead g tobj = false.
Proof.
  intros Hpass Ho Hobj Hlive Hv Hc.
  eapply validateref_tag; [|exact Hc].
  eapply validateobj_values; eauto using luaC_validate_visits.
Qed.

Lemma luaC_validate_value_tags_witness :
  ∃ t tobj, value (objvalue LUA_TSTRING 80) = Vgc t ∧ goodheap !! t = Some tobj
            ∧ ttype (objvalue LUA_TSTRING 80) = gch_tt (gch tobj)
            ∧ isdead (Headers := luau64) (state 1 [32; 48; 64; 80]) tobj = false.
Proof.
  apply (luaC_validate_value_tags (H := luau64) goodheap (state 1 [32; 48; 64; 80]) 64
           (tablewith (gray_ LUA_TTABLE) (objvalue LUA_TSTRING 80))).
  - vm_compute. reflexivity.
  - apply list_elem_of_In. simpl. tauto.
  - reflexivity.
  - reflexivity.
  - apply list_elem_of_In. simpl. tauto.
  - reflexivity.
Defined.

(** X5.  After a pass of the validator, every live table that was visited
    has [lastfree] within the hash part, and every node of the hash part
    has its [gnext] link within the hash part and holds a dead key only
    together with a nil value. *)
Theorem luaC_validate_table_shape `{Headers} (heap : gmap Z GCObject) (g : global_State)
    (o : ptr) (hdr : GCheader) (h : LuaTable) :
  luaC_validate heap g = Ok tt →
  o ∈ mainthread g :: allgcopages g → heap !! o = Some (mkGCObject hdr (U_h h)) →
  isdead g (mkGCObject hdr (U_h h)) = false → gch_tt hdr = LUA_TTABLE →
  lastfree h ≤ sizenode h
  ∧ ∀ i, 0 ≤ i < sizenode h →
      ∃ n, node_at h i = Ok n
           ∧ (ttype (gkey n) = LUA_TDEADKEY → ttisnil (gval n) = true)
           ∧ 0 ≤ i + gnext n < sizenode h.
Proof.
  intros Hpass Ho Hobj Hlive Htag.
  pose proof (validateobj_live heap g o _ Hobj Hlive
                (luaC_validate_visits heap g o Hpass Ho)) as Hk.
  simpl in Hk. rewrite Htag in Hk. unfold validatetable in Hk. ok_inv.
  split.
  - match goal with E : (lastfree h <=? _) = true |- _ => apply Z.leb_le in E; exact E end.
  - intros i Hi. pose proof (proj1 (for_range_Ok _ _ _) Hk i Hi) as Hnv.
    apply validatenode_Ok in Hnv as (n & Hn & Hdead & Hnext & _). eauto.
Qed.

Lemma luaC_validate_table_shape_witness :
  lastfree labeltable ≤ sizenode labeltable
  ∧ ∀ i, 0 ≤ i < sizenode labeltable →
      ∃ n, node_at labeltable i = Ok n
           ∧ (ttype (gkey n) = LUA_TDEADKEY → ttisnil (gval n) = true)
           ∧ 0 ≤ i + gnext n < sizenode labeltable.
Proof.
  apply (luaC_validate_table_shape (H := luau64) labelheap (state 1 [32; 48; 64; 104; 144])
           64 (gray_ LUA_TTABLE) labeltable).
  - vm_compute. reflexivity.
  - apply list_elem_of_In. simpl. tauto.
  - reflexivity.
  - reflexivity.
  - reflexivity.
Defined.

(** X6.  After a pass of the validator, every live Lua closure that was
    visited has a prototype in the heap, and as many upvalues as the
    prototype declares. *)
Theorem luaC_validate_closure_nups `{Headers} (heap : gmap Z GCObject) (g : global_State)
    (o : ptr) (hdr : GCheader) (cl : Closure) :
  luaC_validate heap g = Ok tt →
  o ∈ mainthread g :: allgcopages g → heap !! o = Some (mkGCObject hdr (U_cl cl)) →
  isdead g (mkGCObject hdr (U_cl cl)) = false → gch_tt hdr = LUA_TFUNCTION →
  isC cl = false →
  ∃ phdr f, heap !! l_p cl = Some (mkGCObject phdr (U_p f)) ∧ nupvalues cl = nups f.
Proof.
  intros Hpass Ho Hobj Hlive Htag HC.
  pose proof (validateobj_live heap g o _ Hobj Hlive
                (luaC_validate_visits heap g o Hpass Ho)) as Hk.
  simpl in Hk. rewrite Htag in Hk. unfold validateclosure in Hk.
  rewrite HC in Hk. ok_inv.
  match goal with
  | E : gco2p ?po = Ok ?f |- _ =>
      unfold gco2p in E; destruct po as [phdr [| | | | | |f'|]]; try discriminate;
      apply Ok_inj in E as ->; exists phdr, f
  end.
  split; [assumption|].
  match goal with E : (nupvalues cl =? _) = true |- _ => apply Z.eqb_eq in E; exact E end.
Qed.

Lemma luaC_validate_closure_nups_witness :
  ∃ phdr f, closureheap !! l_p luaclosure = Some (mkGCObject phdr (U_p f))
            ∧ nupvalues luaclosure = nups f.
Proof.
  apply (luaC_validate_closure_nups (H := luau64) closureheap
           (state 1 [32; 48; 64; 80; 112; 120]) 64 (gray_ LUA_TFUNCTION) luaclosure).
  - vm_compute. reflexivity.
  - apply list_elem_of_In. simpl. tauto.
  - reflexivity.
  - reflexivity.
  - reflexivity.
  - reflexivity.
Defined.

(** X7.  After a pass of the validator the roots are alive: the main thread
    is an object of the heap that is not dead, the registry passes
    [checkliveness], and every metatable of a basic type that is set is an
    object of the heap that is not dead.  A dead main thread ends the pass
    in a failed assertion before anything else is looked at. *)
Theorem luaC_validate_roots `{Headers} (heap : gmap Z GCObject) (g : global_State) :
  (luaC_validate heap g = Ok tt →
     (∃ mth, heap !! mainthread g = Some mth ∧ isdead g mth = false)
     ∧ checkliveness heap g (registry g) = Ok tt
     ∧ ∀ i m, 0 ≤ i < LUA_T_COUNT → mt g !! Z.to_nat i = Some m → m ≠ NULL →
         ∃ mo, heap !! m = Some mo ∧ isdead g mo = false)
  ∧ (∀ mth, mainthread g ≠ NULL → heap !! mainthread g = Some mth →
       isdead g mth = true →
       luaC_validate heap g = AssertFailed "!isdead(g, obj2gco(g->mainthread))").
Proof.
  split.
  - unfold luaC_validate. intros Hv. ok_inv.
    repeat match goal with E : negb _ = true |- _ => apply negb_true_iff in E end.
    split; [eauto|]. split; [assumption|].
    intros i m Hi Hm Hnn.
    match goal with
    | E : for_range 0 LUA_T_COUNT _ = Ok _ |- _ =>
        pose proof (proj1 (for_range_Ok _ _ _) E i Hi) as Hb
    end.
    cbv beta in Hb.
    assert (Hidx : index (mt g) i = Ok m) by (apply index_Ok; split; [lia | exact Hm]).
    rewrite Hidx in Hb. simpl in Hb.
    destruct (Z.eqb_spec m NULL); [contradiction|]. simpl in Hb. ok_inv.
    apply negb_true_iff in Hb. eauto.
  - intros mth Hnn Hm Hdead. unfold luaC_validate.
    assert (Hd : deref heap (mainthread g) = Ok mth) by (apply deref_Ok; auto).
    rewrite Hd. simpl. rewrite Hdead. reflexivity.
Qed.

Lemma luaC_validate_roots_witness :
  (∃ mth, baseheap !! mainthread mtstate = Some mth
          ∧ isdead (Headers := luau64) mtstate mth = false)
  ∧ checkliveness (Headers := luau64) baseheap mtstate (registry mtstate) = Ok tt
  ∧ ∀ i m, 0 ≤ i < LUA_T_COUNT (Headers := luau64) →
      mt mtstate !! Z.to_nat i = Some m → m ≠ NULL →
      ∃ mo, baseheap !! m = Some mo ∧ isdead (Headers := luau64) mtstate mo = false.
Proof.
  apply (proj1 (luaC_validate_roots (H := luau64) baseheap mtstate)).
  vm_compute. reflexivity.
Defined.

(** ** The dump: string data and arrays of references *)

Lemma emit_loop_each {E : Type} (P : E → Prop) (n : nat) (i : Z)
    (body : Z → result (list E)) :
  (∀ j, i ≤ j < i + Z.of_nat n → ∃ x, body j = Ok [x] ∧ P x) →
  ∃ out, emit_loop n i body = Ok out ∧ length out = n ∧ Forall P out.
Proof.
  revert i. induction n as [|n IH]; intros i Hbody.
  - exists []. repeat split. constructor.
  - destruct (Hbody i ltac:(lia)) as (x & Hx & HP).
    destruct (IH (i + 1)) as (rest & Hrest & Hlen & Hall).
    { intros j Hj. apply Hbody. lia. }
    exists (x :: rest). cbn [emit_loop]. rewrite Hx, Hrest. simpl.
    repeat split; [congruence|]. constructor; assumption.
Qed.

(** X8.  [dumpstringdata] writes exactly [len] bytes, of which each is
    between 32 and 127 and is neither a double quote nor a backslash,
    whatever the bytes of the string are; [len] may reach the NUL that ends
    the data. *)
Theorem dumpstringdata_jsonsafe `{Headers} (data : string) (len : Z) :
  len ≤ Z.of_nat (String.length data) + 1 →
  ∃ out, dumpstringdata data len = Ok out
         ∧ length out = Z.to_nat len ∧ Forall (fun t => jsonsafe t = true) out.
Proof.
  intros Hlen. unfold dumpstringdata, emit_range. rewrite Z.sub_0_r.
  apply emit_loop_each. intros j Hj. unfold char_at.
  destruct (lookup_lt_is_Some_2 (list_ascii_of_string data ++ [NUL]) (Z.to_nat j))
    as [c Hc].
  { rewrite length_app, length_list_ascii_of_string. simpl. lia. }
  assert (Hidx : index (list_ascii_of_string data ++ [NUL]) j = Ok c)
    by (apply index_Ok; split; [lia | exact Hc]).
  rewrite Hidx. simpl. eexists. split; [reflexivity|].
  unfold jsonsafe. rewrite safejson_verbatim.
  destruct (verbatim c) eqn:Hv; [exact Hv | reflexivity].
Qed.

Lemma dumpstringdata_jsonsafe_witness :
  ∃ out, dumpstringdata (H := luau64) payload 8 = Ok out
         ∧ length out = 8%nat ∧ Forall (fun t => jsonsafe t = true) out.
Proof.
  apply (dumpstringdata_jsonsafe (H := luau64) payload 8). simpl. lia.
Defined.

Lemma joinfrom_app (first : bool) (a b : list (list Token)) :
  joinfrom first (a ++ b) = joinfrom first a ++ joinfrom (stillfirst first a) b.
Proof.
  destruct a as [|x a]; [reflexivity|]. simpl. rewrite <- !app_assoc. do 2 f_equal.
  clear x first. induction a as [|y a IH]; [reflexivity|].
  simpl. rewrite IH. rewrite <- !app_assoc. reflexivity.
Qed.

Lemma stillfirst_app (first : bool) (a b : list (list Token)) :
  stillfirst first (a ++ b) = stillfirst (stillfirst first a) b.
Proof. destruct a; [reflexivity|]. destruct b; reflexivity. Qed.

Lemma joinfrom_commajoin (items : list (list Token)) :
  joinfrom true items = commajoin items.
Proof.
  destruct items as [|x items]; [reflexivity|].
  cbn [joinfrom app]. revert x.
  induction items as [|y items IH]; intros x.
  - simpl. apply app_nil_r.
  - cbn [joinfrom commajoin app]. rewrite IH. reflexivity.
Qed.

(** A loop that carries the flag [first] writes the items of its
    iterations, separated by commas. *)
Lemma dump_loop_join {A : Type} (data : list A)
    (F : A → bool → result (list Token * bool)) (I : A → list (list Token))
    (n i : nat) (first : bool) (r : list Token * bool) :
  (∀ x f r', F x f = Ok r' → r' = (joinfrom f (I x), stillfirst f (I x))) →
  dump_loop n (Z.of_nat i) (fun j f => x ← index data j; F x f) first = Ok r →
  r = (joinfrom first (flat_map I (take n (drop i data))),
       stillfirst first (flat_map I (take n (drop i data)))).
Proof.
  intros HF. revert i first r. induction n as [|n IH]; intros i first r Hl.
  - simpl in Hl. injection Hl as <-. reflexivity.
  - cbn [dump_loop] in Hl.
    apply bind_Ok in Hl as (r1 & Hb & Hl). apply bind_Ok in Hl as (r2 & Hrest & Hl).
    injection Hl as <-.
    apply bind_Ok in Hb as (x & Hx & Hb). apply index_Ok in Hx as [_ Hx].
    rewrite Nat2Z.id in Hx.
    replace (Z.of_nat i + 1) with (Z.of_nat (S i)) in Hrest by lia.
    rewrite (HF _ _ _ Hb) in *. cbn [fst snd] in *.
    rewrite (IH _ _ _ Hrest). cbn [fst snd].
    rewrite (drop_S data x i Hx). cbn [take flat_map].
    rewrite joinfrom_app, stillfirst_app. reflexivity.
Qed.

Lemma node_at_nodearray (h : LuaTable) (i : Z) : node_at h i = index (nodearray h) i.
Proof.
  unfold node_at, nodearray, index. destruct (node h); [|reflexivity].
  destruct (Z.eqb_spec i 0) as [->|]; [reflexivity|].
  destruct (Z.ltb_spec i 0); [reflexivity|].
  destruct (Z.to_nat i) as [|k] eqn:Hk; [lia|]. reflexivity.
Qed.

Lemma hashnodes_nodearray (h : LuaTable) :
  hashnodes h = take (Z.to_nat (sizenode h)) (nodearray h).
Proof. unfold hashnodes, nodearray. destruct (node h); reflexivity. Qed.

Section JoinFacts.
Context `{Headers}.

Lemma dumprefs_join (data : list TValue) (size : Z) (out : list Token) :
  dumprefs data size = Ok out → out = commajoin (map dumpref (gcrefs data size)).
Proof.
  unfold dumprefs, gcrefs. intros Hd.
  apply bind_Ok in Hd as (r & Hr & Hd). injection Hd as <-.
  apply (dump_loop_join data _ (fun v => map dumpref (gcref v)) _ 0%nat) in Hr.
  - rewrite Hr. cbn [fst]. rewrite joinfrom_commajoin, drop_0. f_equal.
    induction (take (Z.to_nat size) data) as [|v l IH]; [reflexivity|].
    simpl. rewrite map_app, IH. reflexivity.
  - intros v first r' Hv. cbv beta in Hv. unfold gcref.
    destruct (iscollectable v).
    + ok_inv. subst.
      match goal with E : gcvalue v = Ok _ |- _ =>
        unfold gcvalue in E; destruct (value v); try discriminate; apply Ok_inj in E as ->
      end.
      destruct first; cbn [map joinfrom stillfirst negb]; rewrite app_nil_r; reflexivity.
    + apply Ok_inj in Hv as <-. reflexivity.
Qed.

Lemma pairside_Ok (v : TValue) (out : list Token) :
  (if iscollectable v then gc ← gcvalue v; Ok (dumpref gc) else Ok (fprintf "null" []))
  = Ok out → out = pairside v.
Proof.
  unfold pairside, gcref, gcvalue. destruct (iscollectable v).
  - destruct (value v); simpl; try discriminate. intros Ho. apply Ok_inj in Ho as <-.
    reflexivity.
  - intros Ho. apply Ok_inj in Ho as <-. reflexivity.
Qed.

Lemma dumppairs_join (h : LuaTable) (out : list Token) :
  dumppairs h = Ok out → out = commajoin (flat_map pairitems (hashnodes h)).
Proof.
  unfold dumppairs. intros Hd.
  apply bind_Ok in Hd as (r & Hr & Hd). injection Hd as <-.
  rewrite (dump_loop_ext _ _ _ (fun j f => x ← index (nodearray h) j;
             (fun n first =>
                if negb (ttisnil (gval n)) && (iscollectable (gkey n) || iscollectable (gval n))
                then
                  kout ← (if iscollectable (gkey n)
                          then gc ← gcvalue (gkey n); Ok (dumpref gc)
                          else Ok (fprintf "null" []));
                  vout ← (if iscollectable (gval n)
                          then gc ← gcvalue (gval n); Ok (dumpref gc)
                          else Ok (fprintf "null" []));
                  Ok ((if negb first then fputc ","%char else [])
                      ++ kout ++ fputc ","%char ++ vout, false)
                else Ok ([], first)) x f)) in Hr
    by (intros j f; unfold dumppair; rewrite node_at_nodearray; reflexivity).
  apply (dump_loop_join (nodearray h) _ pairitems _ 0%nat) in Hr.
  - rewrite Hr. cbn [fst]. rewrite joinfrom_commajoin, drop_0, hashnodes_nodearray.
    reflexivity.
  - intros n first r' Hn. cbv beta in Hn. unfold pairitems.
    destruct (negb (ttisnil (gval n)) && (iscollectable (gkey n) || iscollectable (gval n))).
    + apply bind_Ok in Hn as (kout & Hk & Hn). apply bind_Ok in Hn as (vout & Hv & Hn).
      apply Ok_inj in Hn as <-.
      apply pairside_Ok in Hk as ->. apply pairside_Ok in Hv as ->.
      destruct first; cbn [joinfrom stillfirst negb fputc app]; rewrite ?app_nil_r;
        rewrite <- ?app_assoc; reflexivity.
    + apply Ok_inj in Hn as <-. reflexivity.
Qed.

End JoinFacts.

Lemma emit_loop_join {A : Type} (data : list A) (item : A → list Token) (n i : nat)
    (out : list Token) :
  emit_loop n (Z.of_nat i) (fun j =>
    q ← index data j;
    Ok ((if negb (j =? 0) then fputc ","%char else []) ++ item q)) = Ok out →
  out = joinfrom (Nat.eqb i 0) (map item (take n (drop i data))).
Proof.
  revert i out. induction n as [|n IH]; intros i out Hl.
  - simpl in Hl. injection Hl as <-. reflexivity.
  - cbn [emit_loop] in Hl.
    apply bind_Ok in Hl as (o1 & Hb & Hl). apply bind_Ok in Hl as (rest & Hrest & Hl).
    injection Hl as <-.
    apply bind_Ok in Hb as (x & Hx & Hb). apply index_Ok in Hx as [_ Hx].
    rewrite Nat2Z.id in Hx. apply Ok_inj in Hb as <-.
    replace (Z.of_nat i + 1) with (Z.of_nat (S i)) in Hrest by lia.
    rewrite (IH _ _ Hrest), (drop_S data x i Hx). cbn [take map joinfrom Nat.eqb].
    rewrite <- app_assoc. f_equal.
    destruct i; reflexivity.
Qed.

(** X9.  The arrays of references of the dump are well-formed lists: what
    [dumprefs] writes is the references of the collectable values among the
    first [size] elements, in order and separated by single commas; what
    [dumptable] writes in [pairs] is the keys and values of the entries whose
    value is not nil and which have a collectable side, [null] standing for
    a side that is not collectable; what [dumpproto] writes in [protos] is
    the references of the nested prototypes.  None starts or ends with a
    comma. *)
Theorem dump_arrays_joined `{Headers} `{DebugHeaders} :
  (∀ data size out, dumprefs data size = Ok out →
     out = commajoin (map dumpref (gcrefs data size)))
  ∧ (∀ h out, dumppairs h = Ok out →
       out = commajoin (flat_map pairitems (hashnodes h)))
  ∧ (∀ f out, dumpprotos f = Ok out →
       out = commajoin (map dumpref (take (Z.to_nat (sizep f)) (p f)))).
Proof.
  split; [exact dumprefs_join|]. split; [exact dumppairs_join|].
  intros f out Hd. unfold dumpprotos, emit_range in Hd. rewrite Z.sub_0_r in Hd.
  apply (emit_loop_join (p f) dumpref _ 0%nat) in Hd.
  rewrite Hd, drop_0. apply joinfrom_commajoin.
Qed.

Lemma dump_arrays_joined_witness :
  (∃ out, dumprefs (H := luau64)
            [objvalue LUA_TSTRING 80; truevalue; objvalue LUA_TTABLE 32] 3 = Ok out
          ∧ out = commajoin [dumpref 80; dumpref 32])
  ∧ (∃ out, dumppairs (H := luau64) labeltable = Ok out
            ∧ out = commajoin [dumpref 104; dumpref 144; fprintf "null" []; dumpref 144])
  ∧ (∃ out, dumpprotos nativeproto = Ok out ∧ out = []).
Proof.
  pose proof (dump_arrays_joined (H := luau64) (H0 := luau64debug)) as (Hr & Hp & Hq).
  split; [|split]; eexists; (split; [vm_compute; reflexivity|]).
  - exact (Hr [objvalue LUA_TSTRING 80; truevalue; objvalue LUA_TTABLE 32] 3 _ eq_refl).
  - exact (Hp labeltable _ eq_refl).
  - exact (Hq nativeproto _ eq_refl).
Defined.

(** ** The two exporters on the size and the category of an object *)

Lemma descriptorhead_string (c s : Z) :
  fprintf "{'type':'string','cat':%d,'size':%d,'data':'" [A_int c; A_int s]
  = descriptorhead "string" c s ++ fprintf ",'data':'" [].
Proof. vm_compute. reflexivity. Qed.

Lemma descriptorclose_string : fprintf "'}" [] = fprintf "'" [] ++ fprintf "}" [].
Proof. vm_compute. reflexivity. Qed.

Lemma descriptorhead_table (c s : Z) :
  fprintf "{'type':'table','cat':%d,'size':%d" [A_int c; A_int s]
  = descriptorhead "table" c s.
Proof. vm_compute. reflexivity. Qed.

Lemma descriptorhead_function (c s : Z) :
  fprintf "{'type':'function','cat':%d,'size':%d" [A_int c; A_int s]
  = descriptorhead "function" c s.
Proof. vm_compute. reflexivity. Qed.

Lemma descriptorhead_userdata (c s t : Z) :
  fprintf "{'type':'userdata','cat':%d,'size':%d,'tag':%d" [A_int c; A_int s; A_int t]
  = descriptorhead "userdata" c s ++ fprintf ",'tag':%d" [A_int t].
Proof. vm_compute. reflexivity. Qed.

Lemma descriptorhead_thread (c s : Z) :
  fprintf "{'type':'thread','cat':%d,'size':%d" [A_int c; A_int s]
  = descriptorhead "thread" c s.
Proof. vm_compute. reflexivity. Qed.

Lemma descriptorhead_buffer (c s : Z) :
  fprintf "{'type':'buffer','cat':%d,'size':%d}" [A_int c; A_int s]
  = descriptorhead "buffer" c s ++ [] ++ fprintf "}" [].
Proof. vm_compute. reflexivity. Qed.

Lemma descriptorhead_proto (c s : Z) :
  fprintf "{'type':'proto','cat':%d,'size':%d" [A_int c; A_int s]
  = descriptorhead "proto" c s.
Proof. vm_compute. reflexivity. Qed.

Lemma descriptorhead_upvalue (c s : Z) (b : string) :
  fprintf "{'type':'upvalue','cat':%d,'size':%d,'open':%s" [A_int c; A_int s; A_str b]
  = descriptorhead "upvalue" c s ++ fprintf ",'open':%s" [A_str b].
Proof. vm_compute. reflexivity. Qed.

(** The inversion [ok_inv], leaving the formats of [fprintf] as they are
    written. *)
Ltac ok_inv_formats :=
  repeat match goal with
  | H : _ ≫= _ = Ok _ |- _ =>
      let a := fresh "a" in let Ha := fresh "Ha" in
      apply bind_Ok in H as (a & Ha & H); cbv beta in H
  | H : LUAU_ASSERT _ _ = Ok _ |- _ => apply LUAU_ASSERT_Ok in H
  | H : deref _ _ = Ok _ |- _ =>
      let Hn := fresh "Hnull" in apply deref_Ok in H as [Hn H]
  | H : index _ _ = Ok _ |- _ =>
      let Hn := fresh "Hpos" in apply index_Ok in H as [Hn H]
  | H : Ok _ = Ok _ |- _ => apply Ok_inj in H
  | u : unit |- _ => destruct u
  end.

(** The descriptor [d] is the opening [D], something, and the closing
    brace. *)
Ltac give_rest :=
  rewrite <- ?app_assoc;
  match goal with
  | |- ∃ rest, ?D ++ ?a ++ ?b ++ ?c ++ ?d ++ ?T = ?D ++ rest ++ ?T =>
      exists (a ++ b ++ c ++ d)
  | |- ∃ rest, ?D ++ ?a ++ ?b ++ ?c ++ ?T = ?D ++ rest ++ ?T => exists (a ++ b ++ c)
  | |- ∃ rest, ?D ++ ?a ++ ?b ++ ?T = ?D ++ rest ++ ?T => exists (a ++ b)
  | |- ∃ rest, ?D ++ ?a ++ ?T = ?D ++ rest ++ ?T => exists a
  end;
  rewrite <- ?app_assoc; reflexivity.

Section SizeFacts.
Context `{Headers} `{DebugHeaders}.
Variable FFlag : FastFlags.
Variable heap : gmap Z GCObject.
Variable g : global_State.

Ltac body_inv :=
  repeat match goal with
  | E : gco2ts ?a = Ok _ |- _ => unfold gco2ts in E
  | E : gco2h ?a = Ok _ |- _ => unfold gco2h in E
  | E : gco2cl ?a = Ok _ |- _ => unfold gco2cl in E
  | E : gco2u ?a = Ok _ |- _ => unfold gco2u in E
  | E : gco2th ?a = Ok _ |- _ => unfold gco2th in E
  | E : gco2buf ?a = Ok _ |- _ => unfold gco2buf in E
  | E : gco2p ?a = Ok _ |- _ => unfold gco2p in E
  | E : gco2uv ?a = Ok _ |- _ => unfold gco2uv in E
  | E : match body ?a with _ => _ end = Ok _ |- _ =>
      destruct (body a) eqn:?; try discriminate; apply Ok_inj in E; subst
  end.

(** Every descriptor opens with the kind, the category and the size of the
    object, and closes with a brace. *)
Lemma dumpobj_head (o : ptr) (obj : GCObject) (d : list Token) :
  heap !! o = Some obj → dumpobj heap o = Ok d →
  ∃ rest, d = descriptorhead (kindname (gch_tt (gch obj))) (memcat (gch obj))
                (int (objsize obj))
              ++ rest ++ fprintf "}" [].
Proof.
  unfold dumpobj. intros Hobj Hd. ok_inv_formats.
  match goal with E : heap !! o = Some ?a |- _ =>
    assert (a = obj) as -> by congruence end.
  unfold objsize.
  destruct (gch_tt (gch obj)); try discriminate; ok_inv_formats; body_inv; cbn [kindname].
  - unfold dumpstring in Hd. ok_inv_formats. subst.
    rewrite descriptorhead_string, descriptorclose_string. give_rest.
  - unfold dumptable in Hd. ok_inv_formats. subst.
    rewrite descriptorhead_table. give_rest.
  - unfold dumpclosure in Hd. ok_inv_formats. subst.
    rewrite descriptorhead_function. destruct (isC _); give_rest.
  - unfold dumpudata. rewrite descriptorhead_userdata. give_rest.
  - unfold dumpthread in Hd. ok_inv_formats. subst.
    rewrite descriptorhead_thread. give_rest.
  - unfold dumpbuffer. rewrite descriptorhead_buffer. give_rest.
  - unfold dumpproto in Hd. ok_inv_formats. subst.
    rewrite descriptorhead_proto. give_rest.
  - unfold dumpupval in Hd. ok_inv_formats. subst.
    rewrite descriptorhead_upvalue. give_rest.
Qed.

Lemma enumnode_at (o : ptr) (size : Z) (name : option string) (obj : GCObject)
    (out : list Callback) :
  heap !! o = Some obj → enumnode heap o size name = Ok out →
  ∃ pointer, denotes heap pointer o obj
    ∧ out = [CbNode pointer (gch_tt (gch obj)) (memcat (gch obj)) size name].
Proof.
  intros Hobj He. apply enumnode_Ok in He as (obj' & pointer & Hd & ->).
  assert (obj' = obj) as -> by (destruct Hd as [Hd _]; congruence).
  eauto.
Qed.

(** Every visit of the enumeration reports the visited object once, with
    its tag, its category and its size. *)
Lemma enumobj_node (o : ptr) (obj : GCObject) (cbs : list Callback) :
  heap !! o = Some obj → enumobj FFlag heap g o = Ok cbs →
  (gch_tt (gch obj) = LUA_TSTRING → LuauHeapDumpStringSizeOverhead FFlag = true) →
  ∃ pre pointer name edges,
    cbs = pre ++ CbNode pointer (gch_tt (gch obj)) (memcat (gch obj)) (objsize obj) name
                 :: edges
    ∧ denotes heap pointer o obj.
Proof.
  unfold enumobj. intros Hobj He Hflag. ok_inv.
  match goal with E : heap !! o = Some ?a |- _ =>
    assert (a = obj) as -> by congruence end.
  unfold objsize.
  destruct (gch_tt (gch obj)) eqn:Htag; try discriminate; ok_inv; body_inv;
    [unfold enumstring in He; rewrite (Hflag eq_refl) in He
    |unfold enumtable in He
    |unfold enumclosure in He
    |unfold enumudata in He
    |unfold enumthread in He
    |unfold enumbuffer in He
    |unfold enumproto in He
    |unfold enumupval in He];
    ok_inv; subst; try (destruct (isC _); ok_inv);
    match goal with E : enumnode _ _ _ _ = Ok _ |- _ =>
      apply (enumnode_at _ _ _ _ _ Hobj) in E as (pointer & Hd & ->) end;
    rewrite ?Htag.
  - exists [], pointer, None, []. split; [reflexivity | exact Hd].
  - exists [], pointer. eexists _, _. split; [reflexivity | exact Hd].
  - exists [], pointer. eexists _, _. split; [reflexivity | exact Hd].
  - exists [], pointer. eexists _, _. split; [reflexivity | exact Hd].
  - exists [], pointer. eexists _, _. split; [reflexivity | exact Hd].
  - exists [], pointer. eexists _, _. split; [reflexivity | exact Hd].
  - exists [], pointer, None, []. split; [reflexivity | exact Hd].
  - eexists _, pointer, _, (_ ++ _). split; [|exact Hd].
    cbn [app]. reflexivity.
  - exists [], pointer. eexists _, _. split; [reflexivity | exact Hd].
Qed.

End SizeFacts.

(** X10.  The two exporters agree on every object other than a string, and
    on strings when [LuauHeapDumpStringSizeOverhead] is set: the descriptor
    that the dump writes opens with the kind of the object, its memory
    category and, converted to [int], the size that the enumeration reports
    in the node of the object, and closes with a brace; the node carries the
    tag and the memory category of the object. *)
Theorem dump_enum_same_size `{Headers} `{DebugHeaders} (FFlag : FastFlags)
    (heap : gmap Z GCObject) (g : global_State) (o : ptr) (obj : GCObject)
    (d : list Token) (cbs : list Callback) :
  heap !! o = Some obj →
  dumpobj heap o = Ok d → enumobj FFlag heap g o = Ok cbs →
  (gch_tt (gch obj) = LUA_TSTRING → LuauHeapDumpStringSizeOverhead FFlag = true) →
  ∃ size pre pointer name edges rest,
    cbs = pre ++ CbNode pointer (gch_tt (gch obj)) (memcat (gch obj)) size name :: edges
    ∧ denotes heap pointer o obj
    ∧ d = descriptorhead (kindname (gch_tt (gch obj))) (memcat (gch obj)) (int size)
          ++ rest ++ fprintf "}" [].
Proof.
  intros Hobj Hd He Hflag.
  destruct (dumpobj_head heap o obj d Hobj Hd) as (rest & ->).
  destruct (enumobj_node FFlag heap g o obj cbs Hobj He Hflag)
    as (pre & pointer & name & edges & -> & Hden).
  exists (objsize obj), pre, pointer, name, edges, rest. auto.
Qed.

Lemma dump_enum_same_size_witness :
  ∃ d cbs,
    dumpobj (H := luau64) (H0 := luau64debug) closureheap 64 = Ok d
    ∧ enumobj (H := luau64) (mkFastFlags false) closureheap (state 0 []) 64 = Ok cbs
    ∧ ∃ size pre pointer name edges rest,
        cbs = pre ++ CbNode pointer LUA_TFUNCTION 0 size name :: edges
        ∧ denotes (H := luau64) closureheap pointer 64
            (mkGCObject (gray_ LUA_TFUNCTION) (U_cl luaclosure))
        ∧ d = descriptorhead "function" 0 (int size) ++ rest ++ fprintf "}" [].
Proof.
  eexists _, _. split; [vm_compute; reflexivity|]. split; [vm_compute; reflexivity|].
  apply (dump_enum_same_size (H := luau64) (H0 := luau64debug) (mkFastFlags false)
           closureheap (state 0 []) 64
           (mkGCObject (gray_ LUA_TFUNCTION) (U_cl luaclosure))).
  - reflexivity.
  - vm_compute. reflexivity.
  - vm_compute. reflexivity.
  - discriminate.
Defined.

(** ** The whole dump *)

Section DumpPassFacts.
Context `{Headers} `{DebugHeaders}.
Variable heap : gmap Z GCObject.
Variable g : global_State.

Lemma dump_pages (pages : list ptr) (c out : list Token) :
  foldl (fun acc gco => c ← acc; dumpgco heap c gco) (Ok c) pages = Ok out ↔
  ∃ descs, Forall2 (fun o d => dumpobj heap o = Ok d) pages descs
           ∧ out = c ++ dumpentries pages descs.
Proof.
  revert c. induction pages as [|o pages IH]; intros c.
  - simpl. split.
    + intros Hf. apply Ok_inj in Hf as <-. exists []. split; [constructor|].
      unfold dumpentries. simpl. rewrite app_nil_r. reflexivity.
    + intros (descs & Hd & ->). apply Forall2_nil_inv_l in Hd as ->.
      unfold dumpentries. simpl. rewrite app_nil_r. reflexivity.
  - rewrite (luaM_visitgco_cons g). split.
    + intros (c1 & Hv & Hf). unfold dumpgco in Hv.
      apply bind_Ok in Hv as (d & Hd & Hv). apply Ok_inj in Hv as <-.
      apply IH in Hf as (descs & Hds & ->).
      exists (d :: descs). split; [constructor; assumption|].
      unfold dumpentries. cbn [zip_with concat]. rewrite <- !app_assoc. reflexivity.
    + intros (descs & Hds & ->).
      apply Forall2_cons_inv_l in Hds as (d & descs' & Hd & Hds & ->).
      exists (c ++ dumpentry o d). split.
      * unfold dumpgco. rewrite Hd. reflexivity.
      * apply IH. exists descs'. split; [assumption|].
        unfold dumpentries. cbn [zip_with concat]. rewrite <- !app_assoc. reflexivity.
Qed.

End DumpPassFacts.

(** The file that [luaC_dump] writes, and when it returns. *)
Lemma luaC_dump_Ok `{Headers} `{DebugHeaders} (heap : gmap Z GCObject)
    (g : global_State) (acct : Accounting) (categoryName : option (Z → string))
    (out : list Token) :
  luaC_dump heap g acct categoryName = Ok out ↔
  ∃ descs trailer,
    Forall2 (fun o d => dumpobj heap o = Ok d) (mainthread g :: allgcopages g) descs
    ∧ dumptrailer g acct categoryName = Ok trailer
    ∧ out = fprintf "{'objects':{" [] ++ newline
            ++ dumpentries (mainthread g :: allgcopages g) descs ++ trailer.
Proof.
  unfold luaC_dump, luaM_visitgco. split.
  - intros Hd. ok_inv_formats. subst.
    match goal with E : dumpgco _ _ _ = Ok _ |- _ =>
      unfold dumpgco in E; apply bind_Ok in E as (d & Hd & E); apply Ok_inj in E as <- end.
    match goal with E : foldl _ _ _ = Ok _ |- _ =>
      apply (dump_pages heap g) in E as (descs & Hds & ->) end.
    exists (d :: descs). eexists. split; [constructor; assumption|].
    split; [eassumption|].
    unfold dumpentries. cbn [zip_with concat]. rewrite <- !app_assoc. reflexivity.
  - intros (descs & trailer & Hds & Ht & ->).
    apply Forall2_cons_inv_l in Hds as (d & descs' & Hd & Hds & ->).
    apply bind_Ok. eexists. split; [unfold dumpgco; rewrite Hd; reflexivity|].
    apply bind_Ok. eexists. split; [apply (dump_pages heap g); eauto|].
    apply bind_Ok. eexists. split; [exact Ht|].
    unfold dumpentries. cbn [zip_with concat]. rewrite <- !app_assoc. reflexivity.
Qed.

(** X11.  [luaC_dump] returns exactly when every object that it visits (the
    main thread, then the objects of the pages) has a descriptor and the
    closing part can be written, and the file is then the opening of
    [objects], one entry per visited object, in visiting order, made of the
    address of the object, a colon, its descriptor, a comma and a line feed,
    and the closing part. *)
Theorem luaC_dump_entries `{Headers} `{DebugHeaders} (heap : gmap Z GCObject)
    (g : global_State) (acct : Accounting) (categoryName : option (Z → string))
    (out : list Token) :
  luaC_dump heap g acct categoryName = Ok out ↔
  ∃ descs trailer,
    Forall2 (fun o d => dumpobj heap o = Ok d) (mainthread g :: allgcopages g) descs
    ∧ dumptrailer g acct categoryName = Ok trailer
    ∧ out = fprintf "{'objects':{" [] ++ newline
            ++ dumpentries (mainthread g :: allgcopages g) descs ++ trailer.
Proof. apply luaC_dump_Ok. Qed.

Lemma luaC_dump_entries_witness :
  ∃ out,
    luaC_dump (H := luau64) (H0 := luau64debug) closureheap (state 0 [32; 64; 112])
      (mkAccounting 1000 (replicate 256 0)) None = Ok out
    ∧ ∃ descs trailer,
        Forall2 (fun o d => dumpobj (H := luau64) (H0 := luau64debug) closureheap o = Ok d)
          [16; 32; 64; 112] descs
        ∧ dumptrailer (H0 := luau64debug) (state 0 [32; 64; 112])
            (mkAccounting 1000 (replicate 256 0)) None = Ok trailer
        ∧ out = fprintf "{'objects':{" [] ++ newline
                ++ dumpentries [16; 32; 64; 112] descs ++ trailer.
Proof.
  eexists. split; [vm_compute; reflexivity|].
  apply (proj1 (luaC_dump_entries (H := luau64) (H0 := luau64debug) closureheap
                  (state 0 [32; 64; 112]) (mkAccounting 1000 (replicate 256 0)) None _)).
  vm_compute. reflexivity.
Defined.

(** ** The stack of a thread in the dump *)

Section StackFacts.
Context `{Headers} `{DebugHeaders}.
Variable heap : gmap Z GCObject.

Lemma frameinv_next (th : lua_State) (v : StkId) (j : Z) :
  frameinv th v j → frameinv th (v + 1) j.
Proof.
  intros [Hj Hk]. split; [exact Hj|]. intros k Hjk.
  destruct (Hk k Hjk) as (Hci & c & Hc & Hf). split; [exact Hci|].
  exists c. split; [exact Hc | lia].
Qed.

Lemma advanceframe_frameof (n : nat) (th : lua_State) (v : StkId) (j j' : Z) :
  n = Z.to_nat (ci th - j) → frameinv th v j →
  advanceframe n th v j = Ok j' → frameof th v j'.
Proof.
  revert j. induction n as [|n IH]; intros j Hn [Hj Hk] Ha; simpl in Ha.
  - apply Ok_inj in Ha as <-. split; [exact Hj|]. split; [exact Hk | lia].
  - destruct (Z.ltb_spec j (ci th)); [|lia].
    apply bind_Ok in Ha as (c & Hc & Ha). apply index_Ok in Hc as [_ Hc].
    destruct (Z.leb_spec (ci_func c) v).
    + apply (IH (j + 1)); [lia | | exact Ha].
      split; [lia|]. intros k Hjk.
      destruct (Z.eq_dec k (j + 1)) as [->|]; [|apply Hk; lia].
      split; [lia|]. eauto.
    + apply Ok_inj in Ha as <-. split; [exact Hj|]. split; [exact Hk|].
      intros _. eauto.
Qed.

Lemma frameof_frameinv (th : lua_State) (v : StkId) (j : Z) :
  frameof th v j → frameinv th v j.
Proof. intros (Hj & Hk & _). split; assumption. Qed.

Lemma dumpstacknames_names (n : nat) (o : ptr) (th : lua_State) (v : StkId) (j : Z)
    (first : bool) (out : list Token) :
  stack th ≤ v → frameinv th v j →
  dumpstacknames heap n o th v j first = Ok out →
  ∃ names,
    out = joinfrom first names
    ∧ Forall2 (fun p name =>
                 ∃ j', frameof th p.1 j' ∧ dumpslotname heap o th j' p.1 p.2 = Ok name)
        (collectablefrom v (take n (drop (Z.to_nat (v - stack th)) (slots th)))) names.
Proof.
  revert v j first out. induction n as [|n IH]; intros v j first out Hv Hinv Hd.
  - simpl in Hd. apply Ok_inj in Hd as <-. exists []. split; [reflexivity|].
    rewrite take_0. constructor.
  - cbn [dumpstacknames] in Hd.
    apply bind_Ok in Hd as (slot & Hslot & Hd). apply index_Ok in Hslot as [_ Hslot].
    rewrite (drop_S _ _ _ Hslot). cbn [take collectablefrom].
    replace (S (Z.to_nat (v - stack th))) with (Z.to_nat (v + 1 - stack th)) by lia.
    destruct (iscollectable slot); cbn [negb] in Hd.
    + apply bind_Ok in Hd as (j' & Hj' & Hd).
      apply bind_Ok in Hd as (name & Hname & Hd).
      apply bind_Ok in Hd as (rest & Hrest & Hd). apply Ok_inj in Hd as <-.
      apply advanceframe_frameof in Hj'; [|reflexivity | exact Hinv].
      apply IH in Hrest as (names & -> & Hall);
        [|lia | apply frameinv_next, frameof_frameinv; exact Hj'].
      exists (name :: names). split.
      * destruct first; reflexivity.
      * cbn [app]. constructor; [eauto | exact Hall].
    + apply IH in Hd as (names & -> & Hall); [|lia | apply frameinv_next; exact Hinv].
      exists names. split; [reflexivity | exact Hall].
Qed.

Lemma dump_loop_values {A : Type} (data : list A)
    (F : A → bool → result (list Token * bool)) (n i : nat) (first : bool)
    (r : list Token * bool) :
  dump_loop n (Z.of_nat i) (fun j f => x ← index data j; F x f) first = Ok r →
  Forall (fun x => ∃ f r', F x f = Ok r') (take n (drop i data)).
Proof.
  revert i first r. induction n as [|n IH]; intros i first r Hl.
  - rewrite take_0. constructor.
  - cbn [dump_loop] in Hl.
    apply bind_Ok in Hl as (r1 & Hb & Hl). apply bind_Ok in Hl as (r2 & Hrest & Hl).
    apply bind_Ok in Hb as (x & Hx & Hb). apply index_Ok in Hx as [_ Hx].
    rewrite Nat2Z.id in Hx.
    replace (Z.of_nat i + 1) with (Z.of_nat (S i)) in Hrest by lia.
    rewrite (drop_S data x i Hx). cbn [take]. constructor; [eauto|].
    exact (IH _ _ _ Hrest).
Qed.

Lemma dumprefs_collectable (data : list TValue) (size : Z) (out : list Token) (v : StkId) :
  dumprefs data size = Ok out →
  Forall2 (fun p t => value p.2 = Vgc t)
    (collectablefrom v (take (Z.to_nat size) data)) (gcrefs data size).
Proof.
  unfold dumprefs, gcrefs. intros Hd. apply bind_Ok in Hd as (r & Hr & _).
  apply (dump_loop_values data _ _ 0%nat) in Hr. rewrite drop_0 in Hr.
  revert v. induction Hr as [|x l (f & r' & Hx) _ IH]; intros v; [constructor|].
  cbn [collectablefrom flat_map]. apply Forall2_app; [|apply IH].
  unfold gcref. destruct (iscollectable x); [|constructor].
  apply bind_Ok in Hx as (gc & Hgc & _). unfold gcvalue in Hgc.
  destruct (value x) eqn:Hval; try discriminate. apply Ok_inj in Hgc as ->.
  repeat constructor. exact Hval.
Qed.

End StackFacts.

(** X12.  In the descriptor of a thread with a stack that is not empty the
    arrays [stack] and [stacknames] are parallel: both have one element for
    every collectable slot below the top, in the order of the slots.  The
    element of [stack] is the reference held in the slot; the element of
    [stacknames] is the name that [dumpslotname] gives to the slot in the
    frame [base_ci[j]], where [j] is the first index such that [j] is the
    current frame or the function slot of the frame after it is above the
    slot. *)
Theorem dumpthread_stacknames `{Headers} `{DebugHeaders} (heap : gmap Z GCObject)
    (o : ptr) (obj : GCObject) (th : lua_State) (d : list Token) :
  stack th < top th → dumpthread heap o obj th = Ok d →
  ∃ head names,
    d = head
        ++ fprintf ",'stack':[" []
        ++ commajoin (map dumpref (gcrefs (slots th) (top th - stack th)))
        ++ fprintf "]" []
        ++ fprintf ",'stacknames':[" [] ++ commajoin names ++ fprintf "]" []
        ++ fprintf "}" []
    ∧ Forall2 (fun p t => value p.2 = Vgc t)
        (collectableslots th) (gcrefs (slots th) (top th - stack th))
    ∧ Forall2 (fun p name =>
                 ∃ j, frameof th p.1 j ∧ dumpslotname heap o th j p.1 p.2 = Ok name)
        (collectableslots th) names.
Proof.
  intros Hne Hd. unfold dumpthread in Hd.
  apply bind_Ok in Hd as (tcl & _ & Hd). apply bind_Ok in Hd as (src & _ & Hd).
  apply bind_Ok in Hd as (st & Hst & Hd). apply Ok_inj in Hd as <-.
  destruct (Z.ltb_spec (stack th) (top th)); [|lia].
  apply bind_Ok in Hst as (rs & Hrs & Hst). apply bind_Ok in Hst as (names & Hn & Hst).
  apply Ok_inj in Hst as <-.
  pose proof (dumprefs_collectable _ _ _ (stack th) Hrs) as Hrefs.
  apply dumprefs_join in Hrs as ->.
  apply dumpstacknames_names in Hn as (ns & -> & Hns);
    [|lia | split; [lia | intros k Hk; lia]].
  rewrite Z.sub_diag, drop_0 in Hns. rewrite joinfrom_commajoin.
  match goal with
  | |- ∃ head names, ?a ++ ?b ++ ?c ++ ?e ++ _ ++ _ = _ ∧ _ =>
      exists (a ++ b ++ c ++ e), ns
  end.
  split; [|split; assumption].
  rewrite <- !app_assoc. reflexivity.
Qed.

Lemma dumpthread_stacknames_witness :
  ∃ d head names,
    dumpthread (H := luau64) (H0 := luau64debug) runningheap 136
      (mkGCObject (gray_ LUA_TTHREAD) (U_th runningthread)) runningthread = Ok d
    ∧ d = head
          ++ fprintf ",'stack':[" []
          ++ commajoin (map dumpref (gcrefs (H := luau64) (slots runningthread) 3))
          ++ fprintf "]" []
          ++ fprintf ",'stacknames':[" [] ++ commajoin names ++ fprintf "]" []
          ++ fprintf "}" []
    ∧ Forall2 (fun p t => value p.2 = Vgc t)
        (collectableslots (H := luau64) runningthread)
        (gcrefs (H := luau64) (slots runningthread) 3)
    ∧ Forall2 (fun p name =>
                 ∃ j, frameof runningthread p.1 j
                      ∧ dumpslotname (H := luau64) (H0 := luau64debug) runningheap 136
                          runningthread j p.1 p.2 = Ok name)
        (collectableslots (H := luau64) runningthread) names.
Proof.
  eexists.
  destruct (dumpthread_stacknames (H := luau64) (H0 := luau64debug) runningheap 136
              (mkGCObject (gray_ LUA_TTHREAD) (U_th runningthread)) runningthread _
              ltac:(simpl; lia) ltac:(vm_compute; reflexivity))
    as (head & names & Hout & Hrefs & Hnames).
  exists head, names. split; [vm_compute; reflexivity|].
  split; [exact Hout|]. split; assumption.
Defined.

(** ** The references of an object in the two exporters *)

Lemma pointers_bytes_of (s : string) : pointers (bytes_of s) = [].
Proof. induction s as [|a s IH]; [reflexivity | exact IH]. Qed.

Lemma pointers_conversion (c : ascii) (a : Arg) :
  (∀ o, a ≠ A_ptr o) → pointers (conversion c a) = [].
Proof.
  intros Ha. destruct a as [n|o|s]; [reflexivity | contradiction (Ha o); reflexivity |].
  apply pointers_bytes_of.
Qed.

(** A call of [fprintf] without a [%p] conversion writes no reference. *)
Lemma fprintf_pointers (format : string) (args : list Arg) :
  Forall (fun a => ∀ o, a ≠ A_ptr o) args → pointers (fprintf format args) = [].
Proof.
  remember (String.length format) as n eqn:Hn.
  assert (Hle : (String.length format ≤ n)%nat) by lia. clear Hn.
  revert format args Hle. induction n as [|n IH]; intros format args Hle Hargs.
  - destruct format; [reflexivity | simpl in Hle; lia].
  - destruct format as [|c rest]; [reflexivity|]. simpl in Hle. cbn [fprintf].
    destruct (Ascii.eqb c "%").
    + destruct rest as [|d rest']; [reflexivity|]. simpl in Hle.
      destruct Hargs as [|a args' Ha Hargs'].
      * apply IH; [lia | constructor].
      * rewrite pointers_app, (pointers_conversion _ _ Ha). apply IH; [lia | exact Hargs'].
    + change (pointers (fprintf rest args) = []). apply IH; [lia | exact Hargs].
Qed.

Lemma pointers_dumpref (o : ptr) : pointers (dumpref o) = [o].
Proof. reflexivity. Qed.

Ltac no_pointers :=
  rewrite ?pointers_app;
  repeat match goal with
  | |- context [pointers (fprintf ?f ?args)] =>
      rewrite (fprintf_pointers f args) by (repeat constructor; discriminate)
  | |- context [pointers (dumpref ?o)] => rewrite (pointers_dumpref o)
  | |- context [pointers (fputc ?c)] => change (pointers (fputc c)) with (@nil ptr)
  | |- context [pointers newline] => change (pointers newline) with (@nil ptr)
  | |- context [pointers []] => change (pointers []) with (@nil ptr)
  end.

Section RefFacts.
Context `{Headers} `{DebugHeaders}.
Variable heap : gmap Z GCObject.

Lemma dumpstringdata_pointers (data : string) (len : Z) (out : list Token) :
  dumpstringdata data len = Ok out → pointers out = [].
Proof.
  unfold dumpstringdata, emit_range. intros Hd.
  assert (Hall : Forall (fun t => pointers [t] = []) out).
  { revert Hd. apply emit_loop_Forall. intros j o Hb. ok_inv. subst.
    repeat constructor. }
  clear Hd. induction Hall as [|t l Ht _ IH]; [reflexivity|].
  change (t :: l) with ([t] ++ l). rewrite pointers_app, Ht, IH. reflexivity.
Qed.

Lemma dumpstringobj_pointers (ts : ptr) (out : list Token) :
  dumpstringobj heap ts = Ok out → pointers out = [].
Proof.
  unfold dumpstringobj. intros Hd. ok_inv_formats.
  eapply dumpstringdata_pointers; eassumption.
Qed.

Lemma dumpframename_pointers (fn : TValue) (out : list Token) :
  dumpframename heap fn = Ok out → pointers out = [].
Proof.
  unfold dumpframename. intros Hd. ok_inv_formats.
  destruct (isC _).
  - apply Ok_inj in Hd as <-. no_pointers. reflexivity.
  - ok_inv_formats. subst. no_pointers.
    match goal with
    | E : (if ?c then dumpstringobj _ _ else Ok []) = Ok ?src |- _ =>
        destruct c; [apply dumpstringobj_pointers in E; rewrite E
                    |apply Ok_inj in E as <-]
    end; reflexivity.
Qed.

Lemma dumplocalname_pointers (o : ptr) (th : lua_State) (j : Z) (c : CallInfo)
    (v : StkId) (out : list Token) :
  dumplocalname heap o th j c v = Ok out → pointers out = [].
Proof.
  unfold dumplocalname. intros Hd. ok_inv_formats.
  destruct (luaF_findlocal _ _ _) as [var|].
  - destruct (negb (varname var =? NULL)); ok_inv_formats; subst; no_pointers;
      reflexivity.
  - apply Ok_inj in Hd as <-. no_pointers. reflexivity.
Qed.

Lemma dumpslotname_pointers (o : ptr) (th : lua_State) (j : Z) (v : StkId)
    (slot : TValue) (out : list Token) :
  dumpslotname heap o th j v slot = Ok out → pointers out = [].
Proof.
  unfold dumpslotname. intros Hd. ok_inv_formats.
  destruct (v =? ci_func _); [eapply dumpframename_pointers; eassumption|].
  apply bind_Ok in Hd as (lua & _ & Hd). destruct lua.
  - eapply dumplocalname_pointers; eassumption.
  - apply Ok_inj in Hd as <-. no_pointers. reflexivity.
Qed.

Lemma dumpstacknames_pointers (n : nat) (o : ptr) (th : lua_State) (v : StkId) (j : Z)
    (first : bool) (out : list Token) :
  dumpstacknames heap n o th v j first = Ok out → pointers out = [].
Proof.
  revert v j first out. induction n as [|n IH]; intros v j first out Hd.
  - apply Ok_inj in Hd as <-. reflexivity.
  - cbn [dumpstacknames] in Hd. apply bind_Ok in Hd as (slot & _ & Hd).
    destruct (negb (iscollectable slot)); [exact (IH _ _ _ _ Hd)|].
    apply bind_Ok in Hd as (j' & _ & Hd). apply bind_Ok in Hd as (name & Hname & Hd).
    apply bind_Ok in Hd as (rest & Hrest & Hd). apply Ok_inj in Hd as <-.
    apply dumpslotname_pointers in Hname. apply IH in Hrest.
    rewrite !pointers_app, Hname, Hrest. destruct first; reflexivity.
Qed.

(** An array of references behind a test of its size. *)
Lemma dumprefs_guarded (c : bool) (data : list TValue) (size : Z) (open : string)
    (out : list Token) :
  (c = false → gcrefs data size = []) →
  (if c then rs ← dumprefs data size; Ok (fprintf open [] ++ rs ++ fprintf "]" [])
   else Ok []) = Ok out →
  pointers out = gcrefs data size.
Proof.
  intros Hc Hd. destruct c.
  - ok_inv_formats. subst. no_pointers.
    rewrite app_nil_r. apply dumprefs_pointers. assumption.
  - apply Ok_inj in Hd as <-. rewrite Hc; reflexivity.
Qed.

Lemma gcrefs_zero (data : list TValue) (size : Z) :
  negb (size =? 0) = false → gcrefs data size = [].
Proof.
  intros Hz. apply negb_false_iff, Z.eqb_eq in Hz as ->. reflexivity.
Qed.

Lemma dumpclosure_pointers (obj : GCObject) (cl : Closure) (out : list Token) :
  dumpclosure heap obj cl = Ok out →
  pointers out = env cl :: (if isC cl then gcrefs (c_upvals cl) (nupvalues cl)
                            else l_p cl :: gcrefs (l_uprefs cl) (nupvalues cl)).
Proof.
  unfold dumpclosure. intros Hd. apply bind_Ok in Hd as (rest & Hrest & Hd).
  apply Ok_inj in Hd as <-. no_pointers. cbn [app]. f_equal. rewrite app_nil_r.
  destruct (isC cl).
  - apply bind_Ok in Hrest as (ups & Hups & Hrest). apply Ok_inj in Hrest as <-.
    apply dumprefs_guarded in Hups; [|apply gcrefs_zero].
    rewrite pointers_app, Hups. destruct (c_debugname cl); no_pointers; reflexivity.
  - ok_inv_formats. subst.
    match goal with
    | E : (if _ then rs ← dumprefs _ _; _ else Ok []) = Ok _ |- _ =>
        apply dumprefs_guarded in E; [|apply gcrefs_zero]
    end.
    match goal with
    | E : (if ?c then _ else Ok []) = Ok ?name |- pointers (?name ++ _) = _ =>
        destruct c; ok_inv_formats; subst
    end; no_pointers; cbn [app]; f_equal; assumption.
Qed.

Lemma dumpudata_pointers (obj : GCObject) (u : Udata) :
  pointers (dumpudata obj u) = nonnull (u_metatable u).
Proof.
  unfold dumpudata, nonnull. destruct (u_metatable u =? NULL); no_pointers; reflexivity.
Qed.

Lemma dumpthread_pointers (o : ptr) (obj : GCObject) (th : lua_State)
    (out : list Token) :
  dumpthread heap o obj th = Ok out →
  pointers out = gt th :: gcrefs (slots th) (top th - stack th).
Proof.
  unfold dumpthread. intros Hd.
  apply bind_Ok in Hd as (tcl & _ & Hd). apply bind_Ok in Hd as (src & Hsrc & Hd).
  apply bind_Ok in Hd as (st & Hst & Hd). apply Ok_inj in Hd as <-.
  assert (Hs : pointers src = []).
  { destruct tcl as [c|]; [|apply Ok_inj in Hsrc as <-; reflexivity].
    ok_inv_formats.
    destruct (isC _); [apply Ok_inj in Hsrc as <-; reflexivity|].
    ok_inv_formats.
    destruct (negb (source _ =? NULL)); [|apply Ok_inj in Hsrc as <-; reflexivity].
    ok_inv_formats. subst. no_pointers.
    match goal with E : dumpstringobj _ _ = Ok _ |- _ =>
      apply dumpstringobj_pointers in E; rewrite E end.
    reflexivity. }
  no_pointers. rewrite Hs. cbn [app]. f_equal. rewrite app_nil_r.
  destruct (Z.ltb_spec (stack th) (top th)).
  - ok_inv_formats. subst. no_pointers.
    repeat match goal with
    | E : dumprefs _ _ = Ok _ |- _ => apply dumprefs_pointers in E; rewrite E
    | E : dumpstacknames _ _ _ _ _ _ _ = Ok _ |- _ =>
        apply dumpstacknames_pointers in E; rewrite E
    end.
    cbn [app]. rewrite !app_nil_r. reflexivity.
  - apply Ok_inj in Hst as <-. unfold gcrefs.
    replace (Z.to_nat (top th - stack th)) with 0%nat by lia. reflexivity.
Qed.

Lemma pointers_joinfrom (first : bool) (l : list ptr) :
  pointers (joinfrom first (map dumpref l)) = l.
Proof.
  revert first. induction l as [|o l IH]; intros first; [reflexivity|].
  cbn [map joinfrom]. rewrite !pointers_app, pointers_dumpref, IH.
  destruct first; reflexivity.
Qed.

Lemma dumpprotos_pointers (f : Proto) (out : list Token) :
  dumpprotos f = Ok out → pointers out = take (Z.to_nat (sizep f)) (p f).
Proof.
  unfold dumpprotos, emit_range. rewrite Z.sub_0_r. intros Hd.
  apply (emit_loop_join (p f) dumpref _ 0%nat) in Hd as ->.
  rewrite drop_0. apply pointers_joinfrom.
Qed.

Lemma dumpproto_pointers (o : ptr) (obj : GCObject) (f : Proto) (out : list Token) :
  dumpproto heap o obj f = Ok out →
  pointers out = gcrefs (k f) (sizek f) ++ take (Z.to_nat (sizep f)) (p f).
Proof.
  unfold dumpproto. intros Hd.
  apply bind_Ok in Hd as (src & Hsrc & Hd). apply bind_Ok in Hd as (ks & Hks & Hd).
  apply bind_Ok in Hd as (ps & Hps & Hd). apply Ok_inj in Hd as <-.
  assert (Hs : pointers src = []).
  { destruct (negb (source f =? NULL)); [|apply Ok_inj in Hsrc as <-; reflexivity].
    ok_inv_formats. subst. no_pointers.
    match goal with E : dumpstringobj _ _ = Ok _ |- _ =>
      apply dumpstringobj_pointers in E; rewrite E end.
    reflexivity. }
  apply dumprefs_guarded in Hks; [|apply gcrefs_zero].
  assert (Hp : pointers ps = take (Z.to_nat (sizep f)) (p f)).
  { destruct (negb (sizep f =? 0)) eqn:Hz.
    - ok_inv_formats. subst. no_pointers. rewrite app_nil_r.
      apply dumpprotos_pointers. assumption.
    - apply Ok_inj in Hps as <-. apply negb_false_iff, Z.eqb_eq in Hz. rewrite Hz.
      reflexivity. }
  no_pointers. rewrite Hs, Hks, Hp. cbn [app]. rewrite app_nil_r. reflexivity.
Qed.

Lemma dumpupval_pointers (obj : GCObject) (uv : UpVal) (out : list Token) :
  dumpupval obj uv = Ok out → pointers out = gcref (uv_v uv).
Proof.
  unfold dumpupval, gcref. intros Hd. apply bind_Ok in Hd as (ob & Hob & Hd).
  apply Ok_inj in Hd as <-. no_pointers. cbn [app]. rewrite app_nil_r.
  destruct (iscollectable (uv_v uv)).
  - apply bind_Ok in Hob as (gc & Hgc & Hob). apply Ok_inj in Hob as <-.
    unfold gcvalue in Hgc. destruct (value (uv_v uv)); try discriminate.
    apply Ok_inj in Hgc as ->. no_pointers. reflexivity.
  - apply Ok_inj in Hob as <-. reflexivity.
Qed.

Lemma dumpstring_pointers (obj : GCObject) (ts : TString) (out : list Token) :
  dumpstring obj ts = Ok out → pointers out = [].
Proof.
  unfold dumpstring. intros Hd. apply bind_Ok in Hd as (data & Hdata & Hd).
  apply Ok_inj in Hd as <-. apply dumpstringdata_pointers in Hdata.
  no_pointers. rewrite Hdata. reflexivity.
Qed.

Lemma dumpbuffer_pointers (obj : GCObject) (b : Buffer) :
  pointers (dumpbuffer obj b) = [].
Proof. unfold dumpbuffer. no_pointers. reflexivity. Qed.


(** *** The edges of the enumeration, with their targets *)

Variable FFlag : FastFlags.
Variable g : global_State.

Lemma enumedge_target (o t : ptr) (name : string) (out : list Callback) :
  enumedge heap o t name = Ok out →
  Forall2 (fun t cb => ∃ name, edgeof heap o t name cb) [t] out.
Proof.
  intros He. apply enumedge_edgeof in He as (cb & -> & Hcb).
  repeat constructor. eauto.
Qed.

Lemma enumedges_targets (o : ptr) (data : list TValue) (size : Z) (name : string)
    (out : list Callback) :
  enumedges heap o data size name = Ok out →
  Forall2 (fun t cb => ∃ name, edgeof heap o t name cb) (gcrefs data size) out.
Proof.
  intros He. apply enumedges_edges in He.
  eapply Forall2_impl; [exact He|]. cbv beta. eauto.
Qed.

Lemma guarded_targets (o : ptr) (c : bool) (m : result (list Callback))
    (refs : list ptr) (out : list Callback) :
  (c = false → refs = []) →
  (m = Ok out → Forall2 (fun t cb => ∃ name, edgeof heap o t name cb) refs out) →
  (if c then m else Ok []) = Ok out →
  Forall2 (fun t cb => ∃ name, edgeof heap o t name cb) refs out.
Proof.
  intros Hc Hm He. destruct c; [auto|].
  apply Ok_inj in He as <-. rewrite Hc by reflexivity. constructor.
Qed.

Lemma Forall2_cons_app {A B : Type} (P : A → B → Prop) (x : A) (l : list A)
    (e r : list B) :
  Forall2 P [x] e → Forall2 P l r → Forall2 P (x :: l) (e ++ r).
Proof. intros He Hr. change (x :: l) with ([x] ++ l). apply Forall2_app; assumption. Qed.

Lemma enumclosure_targets (o : ptr) (cl : Closure) (cbs : list Callback) :
  enumclosure heap o cl = Ok cbs →
  ∃ nd edges,
    cbs = nd :: edges ∧ nodeof heap o nd
    ∧ Forall2 (fun t cb => ∃ name, edgeof heap o t name cb)
        (env cl :: (if isC cl then gcrefs (c_upvals cl) (nupvalues cl)
                    else l_p cl :: gcrefs (l_uprefs cl) (nupvalues cl))) edges.
Proof.
  unfold enumclosure. intros He.
  apply bind_Ok in He as (nd & Hnd & He). apply bind_Ok in He as (e & Hedge & He).
  apply bind_Ok in He as (rest & Hrest & He). apply Ok_inj in He as <-.
  assert (Hn : ∃ n, nd = [n] ∧ nodeof heap o n).
  { destruct (isC cl); ok_inv; eapply enumnode_nodeof; eassumption. }
  destruct Hn as (n & -> & Hn). exists n, (e ++ rest).
  split; [reflexivity|]. split; [exact Hn|].
  apply enumedge_target in Hedge.
  apply Forall2_cons_app; [exact Hedge|].
  destruct (isC cl).
  - eapply guarded_targets; [apply gcrefs_zero | apply enumedges_targets | exact Hrest].
  - apply bind_Ok in Hrest as (pe & Hpe & Hrest).
    apply bind_Ok in Hrest as (ups & Hups & Hrest). apply Ok_inj in Hrest as <-.
    apply enumedge_target in Hpe. apply Forall2_cons_app; [exact Hpe|].
    eapply guarded_targets; [apply gcrefs_zero | apply enumedges_targets | exact Hups].
Qed.

Lemma enumudata_targets (o : ptr) (u : Udata) (cbs : list Callback) :
  enumudata heap o u = Ok cbs →
  ∃ nd edges,
    cbs = nd :: edges ∧ nodeof heap o nd
    ∧ Forall2 (fun t cb => ∃ name, edgeof heap o t name cb)
        (nonnull (u_metatable u)) edges.
Proof.
  unfold enumudata. intros He.
  apply bind_Ok in He as (name & _ & He). apply bind_Ok in He as (nd & Hnd & He).
  apply bind_Ok in He as (mt & Hmt & He). apply Ok_inj in He as <-.
  apply enumnode_nodeof in Hnd as (n & -> & Hn). exists n, mt.
  split; [reflexivity|]. split; [exact Hn|]. unfold nonnull.
  destruct (u_metatable u =? NULL); cbn [negb] in Hmt.
  - apply Ok_inj in Hmt as <-. constructor.
  - eapply enumedge_target; eassumption.
Qed.

Lemma enumthread_targets (o : ptr) (th : lua_State) (cbs : list Callback) :
  enumthread heap o th = Ok cbs →
  ∃ nd edges,
    cbs = nd :: edges ∧ nodeof heap o nd
    ∧ Forall2 (fun t cb => ∃ name, edgeof heap o t name cb)
        (gt th :: gcrefs (slots th) (top th - stack th)) edges.
Proof.
  unfold enumthread. intros He.
  apply bind_Ok in He as (tcl & _ & He). apply bind_Ok in He as (name & _ & He).
  apply bind_Ok in He as (nd & Hnd & He). apply bind_Ok in He as (e & Hedge & He).
  apply bind_Ok in He as (st & Hst & He). apply Ok_inj in He as <-.
  apply enumnode_nodeof in Hnd as (n & -> & Hn). exists n, (e ++ st).
  split; [reflexivity|]. split; [exact Hn|].
  apply enumedge_target in Hedge. apply Forall2_cons_app; [exact Hedge|].
  eapply guarded_targets; [|apply enumedges_targets | exact Hst].
  intros Hlt. apply Z.ltb_ge in Hlt. unfold gcrefs.
  replace (Z.to_nat (top th - stack th)) with 0%nat by lia. reflexivity.
Qed.

Lemma enumupval_targets (o : ptr) (uv : UpVal) (cbs : list Callback) :
  enumupval heap o uv = Ok cbs →
  ∃ nd edges,
    cbs = nd :: edges ∧ nodeof heap o nd
    ∧ Forall2 (fun t cb => ∃ name, edgeof heap o t name cb) (gcref (uv_v uv)) edges.
Proof.
  unfold enumupval, gcref. intros He.
  apply bind_Ok in He as (nd & Hnd & He). apply bind_Ok in He as (e & Hedge & He).
  apply Ok_inj in He as <-.
  apply enumnode_nodeof in Hnd as (n & -> & Hn). exists n, e.
  split; [reflexivity|]. split; [exact Hn|].
  destruct (iscollectable (uv_v uv)).
  - apply bind_Ok in Hedge as (gc & Hgc & Hedge). unfold gcvalue in Hgc.
    destruct (value (uv_v uv)); try discriminate. apply Ok_inj in Hgc as ->.
    eapply enumedge_target; eassumption.
  - apply Ok_inj in Hedge as <-. constructor.
Qed.

Lemma Forall2_concat1 {A B : Type} (P : A → B → Prop) (l : list A)
    (outs : list (list B)) :
  Forall2 (fun x out => Forall2 P [x] out) l outs → Forall2 P l (concat outs).
Proof.
  induction 1 as [|x out l outs Hx _ IH]; [constructor|].
  cbn [concat]. apply Forall2_cons_app; assumption.
Qed.

Lemma enumproto_targets (o : ptr) (obj : GCObject) (f : Proto) (cbs : list Callback) :
  heap !! o = Some obj → gch_tt (gch obj) = LUA_TPROTO → body obj = U_p f →
  enumproto heap g o f = Ok cbs →
  ∃ pre nd edges,
    cbs = pre ++ nd :: edges ∧ nativeblob heap g o pre ∧ nodeof heap o nd
    ∧ Forall2 (fun t cb => ∃ name, edgeof heap o t name cb)
        (gcrefs (k f) (sizek f) ++ take (Z.to_nat (sizep f)) (p f)) edges.
Proof.
  intros Hobj Htag Hbody He.
  unfold enumproto in He.
  apply bind_Ok in He as (native & Hnative & He). apply bind_Ok in He as (buf & _ & He).
  apply bind_Ok in He as (nd & Hnd & He). apply bind_Ok in He as (ks & Hks & He).
  apply bind_Ok in He as (ps & Hps & He). apply Ok_inj in He as <-.
  apply enumnode_nodeof in Hnd as (n & -> & Hn). exists native, n, (ks ++ ps).
  split; [reflexivity|]. split; [|split; [exact Hn|]].
  - destruct (negb (execdata f =? NULL)) eqn:Hx;
      [|left; apply Ok_inj in Hnative; congruence].
    destruct (getmemorysize g) as [cb|] eqn:Hcb;
      [|left; apply Ok_inj in Hnative; congruence].
    right. apply bind_Ok in Hnative as (obj' & Hobj' & Hnative).
    apply bind_Ok in Hnative as (from & Hfrom & Hnative). apply Ok_inj in Hnative as <-.
    apply deref_Ok in Hobj' as [_ Hobj'].
    assert (obj' = obj) as -> by congruence.
    apply enumtopointer_Ok in Hfrom as (_ & obj'' & Hd).
    assert (obj'' = obj) as -> by (destruct Hd as [Hd _]; congruence).
    exists obj, f, cb, from. repeat split; try assumption; try apply Hd.
    apply negb_true_iff, Z.eqb_neq in Hx. exact Hx.
  - apply Forall2_app.
    + eapply guarded_targets; [apply gcrefs_zero | apply enumedges_targets | exact Hks].
    + unfold emit_range in Hps. rewrite Z.sub_0_r in Hps.
      apply (emit_loop_index_inv (p f) _ _ 0) in Hps as (outs & Hall & ->).
      rewrite drop_0 in Hall. apply Forall2_concat1.
      eapply Forall2_impl; [exact Hall|]. intros q out Hq. cbv beta in Hq.
      eapply enumedge_target; eassumption.
Qed.

End RefFacts.

(** The body of an object, once its tag has chosen the conversion. *)
Ltac body_cases :=
  repeat match goal with
  | E : gco2ts ?a = Ok _ |- _ => unfold gco2ts in E
  | E : gco2h ?a = Ok _ |- _ => unfold gco2h in E
  | E : gco2cl ?a = Ok _ |- _ => unfold gco2cl in E
  | E : gco2u ?a = Ok _ |- _ => unfold gco2u in E
  | E : gco2th ?a = Ok _ |- _ => unfold gco2th in E
  | E : gco2buf ?a = Ok _ |- _ => unfold gco2buf in E
  | E : gco2p ?a = Ok _ |- _ => unfold gco2p in E
  | E : gco2uv ?a = Ok _ |- _ => unfold gco2uv in E
  | E : match body ?a with _ => _ end = Ok _ |- _ =>
      destruct (body a) eqn:?; try discriminate; apply Ok_inj in E; subst
  | E : Ok _ = Ok _ |- _ => apply Ok_inj in E; subst
  end.

(** The references of an object that is not a table, in the descriptor and
    in the edges. *)
Lemma dumpobj_enumobj_references `{Headers} `{DebugHeaders} (FFlag : FastFlags)
    (heap : gmap Z GCObject) (g : global_State) (o : ptr) (obj : GCObject)
    (d : list Token) (cbs : list Callback) :
  heap !! o = Some obj → gch_tt (gch obj) ≠ LUA_TTABLE →
  dumpobj heap o = Ok d → enumobj FFlag heap g o = Ok cbs →
  ∃ pre nd edges,
    cbs = pre ++ nd :: edges ∧ nativeblob heap g o pre ∧ nodeof heap o nd
    ∧ Forall2 (fun t cb => ∃ name, edgeof heap o t name cb) (pointers d) edges.
Proof.
  unfold dumpobj, enumobj. intros Hobj Htable Hd He.
  apply bind_Ok in Hd as (obj1 & Hobj1 & Hd). apply bind_Ok in He as (obj2 & Hobj2 & He).
  apply deref_Ok in Hobj1 as [_ Hobj1]. apply deref_Ok in Hobj2 as [_ Hobj2].
  assert (obj1 = obj) as -> by congruence. assert (obj2 = obj) as -> by congruence.
  assert (Hplain : ∀ nd : list Callback,
            (∃ n, nd = [n] ∧ nodeof heap o n) → pointers d = [] →
            ∃ pre n edges,
              nd = pre ++ n :: edges ∧ nativeblob heap g o pre ∧ nodeof heap o n
              ∧ Forall2 (fun t cb => ∃ name, edgeof heap o t name cb) (pointers d) edges).
  { intros nd (n & -> & Hn) Hp. exists [], n, []. rewrite Hp.
    split; [reflexivity|]. split; [left; reflexivity|]. split; [exact Hn | constructor]. }
  assert (Hgroup : ∀ refs,
            (∃ n edges, cbs = n :: edges ∧ nodeof heap o n
               ∧ Forall2 (fun t cb => ∃ name, edgeof heap o t name cb) refs edges) →
            pointers d = refs →
            ∃ pre n edges,
              cbs = pre ++ n :: edges ∧ nativeblob heap g o pre ∧ nodeof heap o n
              ∧ Forall2 (fun t cb => ∃ name, edgeof heap o t name cb) (pointers d) edges).
  { intros refs (n & edges & -> & Hn & Hall) Hp. exists [], n, edges. rewrite Hp.
    split; [reflexivity|]. split; [left; reflexivity|]. split; assumption. }
  destruct (gch_tt (gch obj)) eqn:Htag; try discriminate; try contradiction;
    ok_inv_formats; body_cases.
  - apply Hplain; [|eapply dumpstring_pointers; eassumption].
    unfold enumstring in He.
    destruct (LuauHeapDumpStringSizeOverhead FFlag); eapply enumnode_nodeof; eassumption.
  - eapply Hgroup; [eapply enumclosure_targets | eapply dumpclosure_pointers];
      eassumption.
  - eapply Hgroup; [eapply enumudata_targets; eassumption | apply dumpudata_pointers].
  - eapply Hgroup; [eapply enumthread_targets | eapply dumpthread_pointers];
      eassumption.
  - apply Hplain; [|apply dumpbuffer_pointers].
    unfold enumbuffer in He. eapply enumnode_nodeof; eassumption.
  - rewrite (dumpproto_pointers _ _ _ _ _ Hd).
    eapply enumproto_targets; eassumption.
  - eapply Hgroup; [eapply enumupval_targets | eapply dumpupval_pointers]; eassumption.
Qed.

(** X13.  For every object that is not a table the two exporters report the
    same references, in the same order: the objects whose addresses the dump
    writes in the descriptor of the object are, one for one, the objects
    that the edges which the enumeration reports after the node of the object
    lead to.  The two name a userdata differently: the dump writes the
    address of the object, the edge carries the address of its payload; for
    every other target the address in the descriptor is the target of the
    edge.  (For tables the enumeration leaves out the weak sides of the
    entries.)  The source and the name of a prototype, the names of its
    upvalues and of its local variables are among the references of
    neither. *)
Theorem dump_enum_same_references `{Headers} `{DebugHeaders} (FFlag : FastFlags)
    (heap : gmap Z GCObject) (g : global_State) (o : ptr) (obj : GCObject)
    (d : list Token) (cbs : list Callback) :
  heap !! o = Some obj → gch_tt (gch obj) ≠ LUA_TTABLE →
  dumpobj heap o = Ok d → enumobj FFlag heap g o = Ok cbs →
  ∃ pre nd edges,
    cbs = pre ++ nd :: edges ∧ nativeblob heap g o pre ∧ nodeof heap o nd
    ∧ Forall2 (fun t cb => ∃ name, edgeof heap o t name cb) (pointers d) edges
    ∧ Forall2 (fun t cb =>
                 ∃ tobj from to name,
                   cb = CbEdge from to name ∧ heap !! t = Some tobj
                   ∧ to = if bool_decide (gch_tt (gch tobj) = LUA_TUSERDATA)
                          then t + offsetof_Udata_data else t)
        (pointers d) edges.
Proof.
  intros Hobj Htable Hd He.
  destruct (dumpobj_enumobj_references FFlag heap g o obj d cbs Hobj Htable Hd He)
    as (pre & nd & edges & -> & Hpre & Hnd & Hall).
  exists pre, nd, edges. split; [reflexivity|]. split; [exact Hpre|].
  split; [exact Hnd|]. split; [exact Hall|].
  eapply Forall2_impl; [exact Hall|].
  intros t cb (name & obj' & from & tobj & to & -> & _ & Ht & Hu & Hnu).
  exists tobj, from, to, name. split; [reflexivity|]. split; [exact Ht|].
  case_bool_decide; auto.
Qed.

(** The C closure at 64 has the userdata at 80 as its upvalue: the dump
    writes 80, the edge leads to the payload at 96. *)
Lemma dump_enum_same_references_witness :
  ∃ d, dumpobj (H := luau64) (H0 := luau64debug) cclosureheap 64 = Ok d
       ∧ pointers d = [32; 80]
       ∧ enumobj (H := luau64) (mkFastFlags false) cclosureheap (state 0 []) 64
         = Ok [CbNode 64 LUA_TFUNCTION 0 64 (Some "print"); CbEdge 64 32 "env";
               CbEdge 64 96 "upvalue"]
       ∧ ∃ pre nd edges,
           [CbNode 64 LUA_TFUNCTION 0 64 (Some "print"); CbEdge 64 32 "env";
            CbEdge 64 96 "upvalue"] = pre ++ nd :: edges
           ∧ nativeblob (H := luau64) cclosureheap (state 0 []) 64 pre
           ∧ nodeof (H := luau64) cclosureheap 64 nd
           ∧ Forall2 (fun t cb => ∃ name, edgeof (H := luau64) cclosureheap 64 t name cb)
               (pointers d) edges
           ∧ Forall2 (fun t cb =>
                        ∃ tobj from to name,
                          cb = CbEdge from to name ∧ cclosureheap !! t = Some tobj
                          ∧ to = if bool_decide (gch_tt (gch tobj) = LUA_TUSERDATA)
                                 then t + offsetof_Udata_data (Headers := luau64) else t)
               (pointers d) edges.
Proof.
  eexists. split; [vm_compute; reflexivity|]. split; [vm_compute; reflexivity|].
  split; [vm_compute; reflexivity|].
  apply (dump_enum_same_references (H := luau64) (H0 := luau64debug) (mkFastFlags false)
           cclosureheap (state 0 []) 64
           (mkGCObject (gray_ LUA_TFUNCTION) (U_cl cclosure))).
  - reflexivity.
  - discriminate.
  - vm_compute. reflexivity.
  - vm_compute. reflexivity.
Defined.

(** ** The dump of a heap that the validator accepts *)

Lemma dumpobj_pointers_strong `{Headers} `{DebugHeaders} (heap : gmap Z GCObject)
    (o : ptr) (obj : GCObject) (d : list Token) (t : ptr) :
  heap !! o = Some obj → gch_tt (gch obj) ≠ LUA_TTHREAD →
  dumpobj heap o = Ok d → t ∈ pointers d → t ≠ NULL → t ∈ strongfields obj.
Proof.
  unfold dumpobj, strongfields. intros Hobj Hthread Hd Ht Hnn.
  apply bind_Ok in Hd as (obj1 & Hobj1 & Hd). apply deref_Ok in Hobj1 as [_ Hobj1].
  assert (obj1 = obj) as -> by congruence.
  destruct (gch_tt (gch obj)) eqn:Htag; try discriminate; try contradiction;
    ok_inv_formats; body_cases.
  - rewrite (dumpstring_pointers _ _ _ Hd) in Ht. inversion Ht.
  - rewrite (dumptable_pointers _ _ _ Hd) in Ht.
    rewrite !elem_of_app in *. destruct Ht as [Ht|[Ht|Ht]]; [|tauto..].
    right. right. unfold pairrefs in Ht. destruct (has_nodes _); [exact Ht | inversion Ht].
  - rewrite (dumpclosure_pointers _ _ _ _ Hd) in Ht. exact Ht.
  - rewrite dumpudata_pointers in Ht. exact Ht.
  - rewrite dumpbuffer_pointers in Ht. inversion Ht.
  - rewrite (dumpproto_pointers _ _ _ _ _ Hd) in Ht.
    rewrite !elem_of_app in *. destruct Ht as [Ht|Ht]; [tauto|].
    do 4 right. left. apply list_elem_of_In, in_flat_map. exists t.
    split; [apply list_elem_of_In; exact Ht|]. unfold nonnull.
    destruct (Z.eqb_spec t NULL); [contradiction | left; reflexivity].
  - rewrite (dumpupval_pointers _ _ _ Hd) in Ht. exact Ht.
Qed.

(** X14.  In a heap that the validator accepts the dump has no dangling
    reference outside of the stacks: every address other than null that the
    descriptor of a live visited object which is not a thread refers to is
    the address of an object of the heap that is not dead. *)
Theorem validated_dump_references `{Headers} `{DebugHeaders} (heap : gmap Z GCObject)
    (g : global_State) (o : ptr) (obj : GCObject) (d : list Token) (t : ptr) :
  luaC_validate heap g = Ok tt →
  o ∈ mainthread g :: allgcopages g → heap !! o = Some obj → isdead g obj = false →
  gch_tt (gch obj) ≠ LUA_TTHREAD →
  dumpobj heap o = Ok d → t ∈ pointers d → t ≠ NULL →
  ∃ to, heap !! t = Some to ∧ isdead g to = false.
Proof.
  intros Hpass Ho Hobj Hlive Hthread Hd Ht Hnn.
  pose proof (dumpobj_pointers_strong heap o obj d t Hobj Hthread Hd Ht Hnn) as Hs.
  pose proof (validateobj_fields heap g o obj Hobj Hlive
                (luaC_validate_visits heap g o Hpass Ho) t Hs) as Hr.
  apply validateobjref_Ok in Hr as (to & _ & Hto & Hdead & _). eauto.
Qed.

Lemma validated_dump_references_witness :
  ∃ to, goodheap !! 80 = Some to
        ∧ isdead (Headers := luau64) (state 1 [32; 48; 64; 80]) to = false.
Proof.
  eapply (validated_dump_references (H := luau64) (H0 := luau64debug) goodheap
            (state 1 [32; 48; 64; 80]) 64
            (tablewith (gray_ LUA_TTABLE) (objvalue LUA_TSTRING 80)) _ 80).
  - vm_compute. reflexivity.
  - apply list_elem_of_In. simpl. tauto.
  - reflexivity.
  - reflexivity.
  - discriminate.
  - vm_compute. reflexivity.
  - vm_compute. apply list_elem_of_In. simpl. tauto.
  - discriminate.
Defined.

(** ** Objects of an unknown kind *)

(** X15.  An object whose tag is none of the eight kinds stops both
    exporters: its visit by the dump ends in the failed assertion [0], its
    visit by the enumeration in the failed assertion [Unknown object tag],
    and when the object is the main thread or on a page neither [luaC_dump]
    nor [luaC_enumheap] returns. *)
Theorem unknown_tag_stops_exporters `{Headers} `{DebugHeaders} (FFlag : FastFlags)
    (heap : gmap Z GCObject) (g : global_State) (acct : Accounting)
    (categoryName : option (Z → string)) (o : ptr) (obj : GCObject) :
  o ≠ NULL → heap !! o = Some obj →
  gch_tt (gch obj) ∉ [LUA_TSTRING; LUA_TTABLE; LUA_TFUNCTION; LUA_TUSERDATA;
                      LUA_TTHREAD; LUA_TBUFFER; LUA_TPROTO; LUA_TUPVAL] →
  dumpobj heap o = AssertFailed "0"
  ∧ enumobj FFlag heap g o = AssertFailed "Unknown object tag"
  ∧ (o ∈ mainthread g :: allgcopages g →
     (∀ out, luaC_dump heap g acct categoryName ≠ Ok out)
     ∧ (∀ out, luaC_enumheap FFlag heap g ≠ Ok out)).
Proof.
  intros Hnn Hobj Htag.
  assert (Hderef : deref heap o = Ok obj) by (apply deref_Ok; auto).
  assert (Hd : dumpobj heap o = AssertFailed "0").
  { unfold dumpobj. rewrite Hderef. cbn [mbind result_bind].
    destruct (gch_tt (gch obj)); try reflexivity;
      contradiction Htag; rewrite !elem_of_cons; auto 10. }
  assert (He : enumobj FFlag heap g o = AssertFailed "Unknown object tag").
  { unfold enumobj. rewrite Hderef. cbn [mbind result_bind].
    destruct (gch_tt (gch obj)); try reflexivity;
      contradiction Htag; rewrite !elem_of_cons; auto 10. }
  split; [exact Hd|]. split; [exact He|].
  intros Ho. apply list_elem_of_lookup in Ho as [i Hi]. split; intros out Hout.
  - apply luaC_dump_Ok in Hout as (descs & _ & Hall & _).
    destruct (Forall2_lookup_l _ _ _ _ _ Hall Hi) as (desc & _ & Hdesc).
    rewrite Hd in Hdesc. discriminate.
  - apply luaC_enumheap_groups in Hout as (groups & Hall & _).
    destruct (Forall2_lookup_l _ _ _ _ _ Hall Hi) as (grp & _ & Hgrp).
    rewrite He in Hgrp. discriminate.
Qed.

Lemma unknown_tag_stops_exporters_witness :
  dumpobj (H := luau64) (H0 := luau64debug) oddheap 64 = AssertFailed "0"
  ∧ enumobj (H := luau64) (mkFastFlags false) oddheap (state 0 [32; 48; 64]) 64
    = AssertFailed "Unknown object tag"
  ∧ luaC_dump (H := luau64) (H0 := luau64debug) oddheap (state 0 [32; 48; 64])
      (mkAccounting 0 []) None = AssertFailed "0"
  ∧ luaC_enumheap (H := luau64) (mkFastFlags false) oddheap (state 0 [32; 48; 64])
    = AssertFailed "Unknown object tag".
Proof.
  destruct (unknown_tag_stops_exporters (H := luau64) (H0 := luau64debug)
              (mkFastFlags false) oddheap (state 0 [32; 48; 64]) (mkAccounting 0 []) None
              64 (mkGCObject (gray_ LUA_TNUMBER) (U_buf (mkBuffer 0))))
    as (Hd & He & _).
  - discriminate.
  - reflexivity.
  - rewrite !elem_of_cons. intros Hin.
    repeat (destruct Hin as [Hin|Hin]; [discriminate|]). inversion Hin.
  - split; [exact Hd|]. split; [exact He|]. split; vm_compute; reflexivity.
Defined.

(** ** A store that bypasses the write barrier *)

Lemma bind_congr {A B : Type} (m1 m2 : result A) (f1 f2 : A → result B) :
  m1 = m2 → (∀ a, f1 a = f2 a) → m1 ≫= f1 = m2 ≫= f2.
Proof. intros -> Hf. destruct m2; simpl; auto. Qed.

Lemma for_loop_ext (n : nat) (i : Z) (b1 b2 : Z → result unit) :
  (∀ j, b1 j = b2 j) → for_loop n i b1 = for_loop n i b2.
Proof.
  intros Hext. revert i. induction n as [|n IH]; intros i; [reflexivity|].
  simpl. rewrite Hext. apply bind_congr; [reflexivity | intros _; apply IH].
Qed.

Lemma for_range_ext (lo hi : Z) (b1 b2 : Z → result unit) :
  (∀ j, b1 j = b2 j) → for_range lo hi b1 = for_range lo hi b2.
Proof. apply for_loop_ext. Qed.

(** A loop stops at its first iteration that does not return. *)
Lemma for_loop_stops (n : nat) (lo i : Z) (body : Z → result unit) (r : result unit) :
  lo ≤ i < lo + Z.of_nat n → (∀ j, lo ≤ j < i → body j = Ok tt) →
  body i = r → r ≠ Ok tt → for_loop n lo body = r.
Proof.
  revert lo. induction n as [|n IH]; intros lo Hi Hbefore Hr Hno; [lia|].
  cbn [for_loop]. destruct (Z.eq_dec lo i) as [->|Hne].
  - rewrite Hr. destruct r as [[]| | |]; [contradiction Hno| |  |]; reflexivity.
  - rewrite (Hbefore lo) by lia. simpl.
    apply IH; [lia | intros j Hj; apply Hbefore; lia | exact Hr | exact Hno].
Qed.

Lemma for_range_stops (lo hi i : Z) (body : Z → result unit) (r : result unit) :
  lo ≤ i < hi → (∀ j, lo ≤ j < i → body j = Ok tt) →
  body i = r → r ≠ Ok tt → for_range lo hi body = r.
Proof. intros Hi. apply for_loop_stops. lia. Qed.

(** The steps of a proof that two runs of the validator agree. *)
Ltac same_run :=
  repeat match goal with
  | |- ?x = ?x => reflexivity
  | |- ?m ≫= _ = ?m ≫= _ => apply bind_congr; [reflexivity | intros ?]
  | |- for_range ?a ?b _ ≫= _ = for_range ?a ?b _ ≫= _ =>
      apply bind_congr; [apply for_range_ext; intros ? | intros ?]
  | |- for_range ?a ?b _ = for_range ?a ?b _ => apply for_range_ext; intros ?
  | |- (if ?c then _ else _) = (if ?c then _ else _) => destruct c
  end.

Section Frame.
Context `{Headers}.
Variable heap : gmap Z GCObject.
Variable g : global_State.
Variable o : ptr.
Variables obj obj' : GCObject.
Variables h h' : LuaTable.
Hypothesis Ho : o ≠ NULL.
Hypothesis Hobj : heap !! o = Some obj.
Hypothesis Hheader : gch obj' = gch obj.
Hypothesis Hbody : body obj = U_h h.
Hypothesis Hbody' : body obj' = U_h h'.
Hypothesis Hgclist : h_gclist h' = h_gclist h.
Hypothesis Hdead : isdead g obj' = isdead g obj.
Hypothesis Hblack : isblack obj' = isblack obj.
Hypothesis Hwhite : iswhite obj' = iswhite obj.
Hypothesis Hgray : isgray obj' = isgray obj.
Hypothesis Hliveness : ∀ v, checkliveness (<[o := obj']> heap) g v = checkliveness heap g v.

Lemma deref_stored : deref (<[o := obj']> heap) o = Ok obj' ∧ deref heap o = Ok obj.
Proof.
  unfold deref. destruct (Z.eqb_spec o NULL); [contradiction|].
  rewrite lookup_insert_eq, Hobj. split; reflexivity.
Qed.

Lemma deref_elsewhere (a : ptr) : a ≠ o → deref (<[o := obj']> heap) a = deref heap a.
Proof.
  intros Ha. unfold deref. rewrite lookup_insert_ne by congruence. reflexivity.
Qed.

(** A continuation that looks at the header and at the colours of an
    object, or converts it to a kind other than a table, cannot tell the two
    heaps apart. *)
Lemma deref_frame {B : Type} (a : ptr) (k : GCObject → result B) :
  k obj' = k obj → deref (<[o := obj']> heap) a ≫= k = deref heap a ≫= k.
Proof.
  intros Hk. destruct (Z.eq_dec a o) as [->|Ha].
  - destruct deref_stored as [-> ->]. exact Hk.
  - rewrite (deref_elsewhere a Ha). reflexivity.
Qed.

Lemma validateobjref_frame (f t : ptr) :
  validateobjref (<[o := obj']> heap) g f t = validateobjref heap g f t.
Proof.
  unfold validateobjref.
  destruct (Z.eq_dec t o) as [->|Ht].
  - destruct deref_stored as [-> ->]. simpl. rewrite Hdead, Hwhite. same_run.
    apply deref_frame. rewrite Hblack. reflexivity.
  - rewrite (deref_elsewhere t Ht). same_run.
    apply deref_frame. rewrite Hblack. reflexivity.
Qed.

Lemma validateref_frame (f : ptr) (v : TValue) :
  validateref (<[o := obj']> heap) g f v = validateref heap g f v.
Proof.
  unfold validateref. same_run. rewrite validateobjref_frame.
  apply deref_frame. rewrite Hheader. reflexivity.
Qed.

Lemma validatetable_frame (f : ptr) (t : LuaTable) :
  validatetable (<[o := obj']> heap) g f t = validatetable heap g f t.
Proof.
  unfold validatetable, validatenode. rewrite validateobjref_frame. same_run;
    rewrite ?validateref_frame; same_run.
Qed.

Lemma gco2p_stored : gco2p obj' = Fault ∧ gco2p obj = Fault.
Proof. unfold gco2p. rewrite Hbody, Hbody'. split; reflexivity. Qed.

Lemma gco2uv_stored : gco2uv obj' = Fault ∧ gco2uv obj = Fault.
Proof. unfold gco2uv. rewrite Hbody, Hbody'. split; reflexivity. Qed.

Lemma validateclosure_frame (f : ptr) (cl : Closure) :
  validateclosure (<[o := obj']> heap) g f cl = validateclosure heap g f cl.
Proof.
  unfold validateclosure. rewrite !validateobjref_frame. same_run.
  - rewrite ?validateref_frame. same_run.
  - destruct (Z.eq_dec (l_p cl) o) as [Hp|Hp].
    + rewrite Hp. destruct deref_stored as [-> ->]. simpl.
      destruct gco2p_stored as [-> ->]. reflexivity.
    + rewrite (deref_elsewhere _ Hp). same_run; rewrite ?validateref_frame; same_run.
Qed.

Lemma deref_uv_frame (uv : ptr) : deref_uv (<[o := obj']> heap) g uv = deref_uv heap g uv.
Proof.
  unfold deref_uv. same_run. apply deref_frame.
  destruct gco2uv_stored as [-> ->]. reflexivity.
Qed.

Lemma validateopenupval_frame (uv : ptr) :
  validateopenupval (<[o := obj']> heap) g uv = validateopenupval heap g uv.
Proof.
  unfold validateopenupval. destruct (Z.eq_dec uv o) as [->|Huv].
  - destruct deref_stored as [-> ->]. simpl. rewrite Hheader. same_run.
    destruct gco2uv_stored as [-> ->]. reflexivity.
  - rewrite (deref_elsewhere _ Huv). same_run; rewrite ?deref_uv_frame; same_run.
Qed.

Lemma size_stored : size (<[o := obj']> heap) = size heap.
Proof.
  rewrite <- (insert_id heap o obj Hobj) at 2.
  rewrite <- (insert_delete_eq heap o obj'), <- (insert_delete_eq heap o obj).
  rewrite !map_size_insert, !lookup_delete_eq. reflexivity.
Qed.

Lemma validatethreadupvals_frame (n : nat) (uv : ptr) :
  validatethreadupvals (<[o := obj']> heap) g n uv = validatethreadupvals heap g n uv.
Proof.
  revert uv. induction n as [|n IH]; intros uv; [reflexivity|].
  cbn [validatethreadupvals]. same_run. rewrite validateopenupval_frame.
  same_run. apply IH.
Qed.

Lemma validateuvring_frame (n : nat) (uv : ptr) :
  validateuvring (<[o := obj']> heap) g n uv = validateuvring heap g n uv.
Proof.
  revert uv. induction n as [|n IH]; intros uv; [reflexivity|].
  cbn [validateuvring]. same_run. rewrite validateopenupval_frame.
  same_run. apply IH.
Qed.

Lemma validatestack_frame (f : ptr) (l : lua_State) :
  validatestack (<[o := obj']> heap) g f l = validatestack heap g f l.
Proof.
  unfold validatestack. rewrite !validateobjref_frame, size_stored. same_run;
    rewrite ?Hliveness, ?validatethreadupvals_frame; same_run.
Qed.

Lemma validateproto_frame (f : ptr) (q : Proto) :
  validateproto (<[o := obj']> heap) g f q = validateproto heap g f q.
Proof.
  unfold validateproto. rewrite !validateobjref_frame. same_run;
    rewrite ?validateref_frame, ?validateobjref_frame; same_run.
Qed.

(** The visit of every other object is the same. *)
Lemma validateobj_frame (a : ptr) :
  a ≠ o → validateobj (<[o := obj']> heap) g a = validateobj heap g a.
Proof.
  intros Ha. unfold validateobj. rewrite (deref_elsewhere a Ha). same_run.
  destruct (gch_tt (gch a0)); same_run;
    rewrite ?validatetable_frame, ?validateclosure_frame, ?validatestack_frame,
      ?validateproto_frame, ?validateref_frame, ?validateobjref_frame; same_run.
Qed.

Lemma validategraylist_walk_frame (n : nat) (a : ptr) :
  validategraylist_walk (<[o := obj']> heap) n a = validategraylist_walk heap n a.
Proof.
  revert a. induction n as [|n IH]; intros a; [reflexivity|].
  cbn [validategraylist_walk]. same_run. destruct (Z.eq_dec a o) as [->|Ha].
  - destruct deref_stored as [-> ->]. simpl. rewrite Hgray, Hheader. same_run.
    unfold gco2h, gco2cl, gco2th, gco2p. rewrite Hbody, Hbody'.
    destruct (gch_tt (gch obj)); try reflexivity. simpl. rewrite Hgclist. apply IH.
  - rewrite (deref_elsewhere _ Ha). same_run.
    destruct (gch_tt (gch a0)); same_run; apply IH.
Qed.

Lemma validategraylist_frame (a : ptr) :
  validategraylist (<[o := obj']> heap) g a = validategraylist heap g a.
Proof.
  unfold validategraylist. rewrite size_stored. same_run.
  apply validategraylist_walk_frame.
Qed.

Lemma visits_stuck (r : result unit) (pages : list ptr) :
  r ≠ Ok tt →
  foldl (fun acc gco => c ← acc; validategco (<[o := obj']> heap) g c gco) r pages = r.
Proof.
  intros Hr. induction pages as [|a pages IH]; [reflexivity|].
  simpl. destruct r as [[]| | |]; [contradiction Hr; reflexivity|exact IH..].
Qed.

Lemma visits_stop (r : result unit) (pages : list ptr) :
  o ∈ pages → (∀ a, a ∈ pages → validateobj heap g a = Ok tt) →
  validateobj (<[o := obj']> heap) g o = r → r ≠ Ok tt →
  foldl (fun acc gco => c ← acc; validategco (<[o := obj']> heap) g c gco) (Ok tt) pages
  = r.
Proof.
  intros Hin Hold Hr Hno. induction pages as [|a pages IH]; [inversion Hin|].
  simpl. unfold validategco at 2.
  destruct (Z.eq_dec a o) as [->|Ha].
  - rewrite Hr. apply visits_stuck. exact Hno.
  - rewrite (validateobj_frame a Ha), (Hold a) by (left).
    apply IH.
    + apply elem_of_cons in Hin as [Hin|Hin]; [congruence | exact Hin].
    + intros b Hb. apply Hold. right. exact Hb.
Qed.

(** When a heap that the validator accepts is changed in the body of one
    table, the pass over the new heap ends as the visit of this table does,
    if it does not return. *)
Lemma luaC_validate_frame (r : result unit) :
  luaC_validate heap g = Ok tt → o ∈ mainthread g :: allgcopages g →
  validateobj (<[o := obj']> heap) g o = r → r ≠ Ok tt →
  luaC_validate (<[o := obj']> heap) g = r.
Proof.
  intros Hpass Hin Hr Hno.
  assert (Hvisits : ∀ a, a ∈ mainthread g :: allgcopages g → validateobj heap g a = Ok tt)
    by (intros a Ha; exact (luaC_validate_visits heap g a Hpass Ha)).
  unfold luaC_validate in *.
  apply bind_Ok in Hpass as (mth & Hmth & Hpass).
  apply bind_Ok in Hpass as ([] & Hmdead & Hpass).
  apply bind_Ok in Hpass as ([] & Hreg & Hpass).
  apply bind_Ok in Hpass as ([] & Hmt & Hpass).
  apply bind_Ok in Hpass as ([] & Hweak & Hpass).
  apply bind_Ok in Hpass as ([] & Hgray' & Hpass).
  apply bind_Ok in Hpass as ([] & Hagain & Hpass).
  assert (Hmain : deref (<[o := obj']> heap) (mainthread g)
                  ≫= (fun mth => LUAU_ASSERT (negb (isdead g mth))
                                   "!isdead(g, obj2gco(g->mainthread))")
                  = Ok tt).
  { rewrite deref_frame by (rewrite Hdead; reflexivity). rewrite Hmth. exact Hmdead. }
  apply bind_Ok in Hmain as (mth' & -> & Hmain). cbn [mbind result_bind].
  rewrite Hmain. cbn [mbind result_bind].
  rewrite Hliveness, Hreg. cbn [mbind result_bind].
  rewrite (for_range_ext _ _ _
             (fun i => m ← index (mt g) i;
                       if negb (m =? NULL) then
                         mo ← deref heap m;
                         LUAU_ASSERT (negb (isdead g mo)) "!isdead(g, obj2gco(g->mt[i]))"
                       else Ok tt))
    by (intros j; same_run; apply deref_frame; rewrite Hdead; reflexivity).
  rewrite Hmt. cbn [mbind result_bind].
  rewrite !validategraylist_frame, Hweak, Hgray', Hagain. cbn [mbind result_bind].
  unfold luaM_visitgco.
  assert (Hall : foldl (fun acc gco => c ← acc; validategco (<[o := obj']> heap) g c gco)
                   (Ok tt) (mainthread g :: allgcopages g) = r)
    by (apply visits_stop; assumption).
  simpl in Hall. unfold validategco at 2 in Hall.
  change (validategco (<[o := obj']> heap) g tt (mainthread g))
    with (validateobj (<[o := obj']> heap) g (mainthread g)).
  destruct (validateobj (<[o := obj']> heap) g (mainthread g)) as [[]| | |] eqn:Hm;
    cbn [mbind result_bind].
  - rewrite Hall. destruct r as [[]| | |]; [contradiction Hno|..]; reflexivity.
  - rewrite visits_stuck in Hall by discriminate. exact Hall.
  - rewrite visits_stuck in Hall by discriminate. exact Hall.
  - rewrite visits_stuck in Hall by discriminate. exact Hall.
Qed.

End Frame.

(** The macros of the examples look at the headers only. *)
Lemma luau64_headermacros (g : global_State) : headermacros (H := luau64) g.
Proof.
  split.
  - intros a b Hab. simpl.
    unfold luau_isdead, luau_isblack, luau_iswhite, luau_isgray. rewrite Hab. auto.
  - intros heap o a b v Ha Hab. simpl. unfold luau_checkliveness.
    destruct (luau_iscollectable v); [|reflexivity].
    destruct (gcvalue v) as [gc| | |]; try reflexivity. simpl.
    unfold deref. destruct (gc =? NULL); [reflexivity|].
    destruct (Z.eq_dec gc o) as [Heq|Hne].
    + rewrite Heq, lookup_insert_eq, Ha. simpl. unfold luau_isdead. rewrite Hab.
      reflexivity.
    + rewrite lookup_insert_ne by congruence. reflexivity.
Qed.

(** X16.  The validator catches a store that bypasses the write barrier.  In
    a heap that it accepts while the collector keeps its invariant, let a slot
    of the array part of a live black table that it visits be overwritten
    with a reference to a white object that is not dead; then the pass over
    the new heap ends in the failed assertion on the colours,
    [!(isblack(f) && iswhite(t))]. *)
Theorem forced_store_detected `{Headers} (heap : gmap Z GCObject) (g : global_State)
    (o : ptr) (hdr : GCheader) (h : LuaTable) (i : Z) (v : TValue) (t : ptr)
    (to : GCObject) :
  headermacros g → keepinvariant g = true →
  luaC_validate heap g = Ok tt →
  o ∈ mainthread g :: allgcopages g →
  heap !! o = Some (mkGCObject hdr (U_h h)) → gch_tt hdr = LUA_TTABLE →
  isdead g (mkGCObject hdr (U_h h)) = false → isblack (mkGCObject hdr (U_h h)) = true →
  0 ≤ i < sizearray h →
  iscollectable v = true → value v = Vgc t → t ≠ NULL →
  heap !! t = Some to → ttype v = gch_tt (gch to) →
  isdead g to = false → iswhite to = true →
  luaC_validate (<[o := mkGCObject hdr (U_h (setarray h i v))]> heap) g
  = AssertFailed "!(isblack(f) && iswhite(t))".
Proof.
  intros [Hmacros Hlive] Hk Hpass Hin Hobj Htag Hdead Hblack Hi Hc Hv Ht Hto Htt
    Htdead Hwhite.
  set (obj := mkGCObject hdr (U_h h)) in *.
  set (obj' := mkGCObject hdr (U_h (setarray h i v))).
  destruct (Hmacros obj' obj eq_refl) as (Hd & Hb & Hw & Hg).
  pose proof (luaC_validate_visits heap g o Hpass Hin) as Hvisit.
  assert (Ho : o ≠ NULL).
  { unfold validateobj in Hvisit. apply bind_Ok in Hvisit as (x & Hx & _).
    apply deref_Ok in Hx as [Ho _]. exact Ho. }
  assert (Htable : validatetable heap g o h = Ok tt).
  { pose proof (validateobj_live heap g o obj Hobj Hdead Hvisit) as Hl.
    simpl in Hl. rewrite Htag in Hl. exact Hl. }
  assert (Hnew : validateobj (<[o := obj']> heap) g o
                 = AssertFailed "!(isblack(f) && iswhite(t))").
  { unfold validateobj, deref. destruct (Z.eqb_spec o NULL); [contradiction|].
    rewrite lookup_insert_eq. simpl. rewrite Hd, Hdead, Htag. simpl.
    rewrite (validatetable_frame heap g o obj obj' Ho Hobj eq_refl Hd Hb Hw).
    unfold validatetable in *. cbn [lastfree h_metatable sizearray array setarray].
    change (sizenode (setarray h i v)) with (sizenode h).
    apply bind_Ok in Htable as ([] & -> & Htable).
    apply bind_Ok in Htable as ([] & -> & Htable).
    apply bind_Ok in Htable as ([] & Harray & _). cbn [mbind result_bind].
    rewrite (for_range_stops 0 (sizearray h) i _
               (AssertFailed "!(isblack(f) && iswhite(t))") Hi);
      [reflexivity | | | discriminate].
    - intros j Hj. pose proof (proj1 (for_range_Ok _ _ _) Harray j ltac:(lia)) as Hold.
      cbv beta in Hold. unfold index in *. destruct (j <? 0); [exact Hold|].
      rewrite list_lookup_insert_ne by lia. exact Hold.
    - pose proof (proj1 (for_range_Ok _ _ _) Harray i Hi) as Hold. cbv beta in Hold.
      apply bind_Ok in Hold as (x & Hx & _). apply index_Ok in Hx as [_ Hx].
      apply lookup_lt_Some in Hx.
      assert (Hidx : index (<[Z.to_nat i := v]> (array h)) i = Ok v).
      { apply index_Ok. split; [lia|]. apply list_lookup_insert_eq. exact Hx. }
      rewrite Hidx. cbn [mbind result_bind].
      unfold validateref, validateobjref, gcvalue. rewrite Hc, Hv. cbn [mbind result_bind].
      assert (Hdt : deref heap t = Ok to) by (apply deref_Ok; auto).
      assert (Hdo : deref heap o = Ok obj) by (apply deref_Ok; auto).
      rewrite Hdt. cbn [mbind result_bind].
      rewrite bool_decide_eq_true_2 by exact Htt. cbn [LUAU_ASSERT mbind result_bind].
      rewrite Htdead, Hk, Hdo. cbn [negb LUAU_ASSERT mbind result_bind].
      rewrite Hblack, Hwhite. reflexivity. }
  apply (luaC_validate_frame heap g o obj obj' h (setarray h i v) Ho Hobj eq_refl
           eq_refl eq_refl eq_refl Hd Hb Hw Hg);
    [|exact Hpass | exact Hin | exact Hnew | discriminate].
  intros x. apply (Hlive heap o obj obj' x Hobj eq_refl).
Qed.

Lemma forced_store_detected_witness :
  luaC_validate (H := luau64)
    (<[64 := mkGCObject (black LUA_TTABLE)
               (U_h (setarray {| lsizenode := 0; sizearray := 1; lastfree := 0;
                                 h_metatable := NULL; array := [objvalue LUA_TSTRING 80];
                                 node := DummyNode; h_gclist := NULL |}
                       0 (objvalue LUA_TSTRING 88)))]> barrierheap)
    (state 1 [32; 48; 64; 80; 88])
  = AssertFailed "!(isblack(f) && iswhite(t))".
Proof.
  apply (forced_store_detected (H := luau64) barrierheap (state 1 [32; 48; 64; 80; 88]) 64
           (black LUA_TTABLE) _ 0 (objvalue LUA_TSTRING 88) 88
           (stringobj (white LUA_TSTRING) "w")).
  - apply luau64_headermacros.
  - reflexivity.
  - vm_compute. reflexivity.
  - apply list_elem_of_In. simpl. tauto.
  - reflexivity.
  - reflexivity.
  - reflexivity.
  - reflexivity.
  - simpl. lia.
  - reflexivity.
  - reflexivity.
  - discriminate.
  - reflexivity.
  - reflexivity.
  - reflexivity.
  - reflexivity.
Defined.
